(** * Generalized-coordinate dynamics of a kinematic tree (brax.v2.generalized.dynamics)

    A shallow embedding of [transform_com], [inverse], [_passive] and
    [forward] from [src/brax/v2/generalized/dynamics.py].

    Modelling conventions.
    - A [jp.ndarray] scalar is a real number ([R]); rounding, overflow and
      NaN of the machine floats are outside the model.
    - A batched value (a [Motion] whose fields have a leading axis of size
      [n]) is a list of [n] per-item records; [jax.vmap] is [map]/[map2].
      An operation that raises on arrays of mismatched shapes is a total
      function here, and the theorems state the shapes they need.
    - Integer index arrays are lists of [Z], because the source uses the
      parent index [-1] to reach the padding row appended to an array.
    - The modules [brax.v2.base], [brax.v2.scan] and [brax.v2.math] that
      the dynamics imports are outside [src/].  Their value types, scans and
      index arithmetic are modelled from the spec; the pose, rotation and
      inertia operations, of which the spec gives no formula, are the fields
      of the class [Algebra], in which the development is generic. *)

From Stdlib Require Import Reals Lra Lia List ZArith Ascii Bool Arith.
Import ListNotations.
Open Scope R_scope.

(** ** Arrays *)

Module Arr.

Section Generic.
Context {A B C : Type}.

(** [jax.vmap(f)(xs, ys)] over two batched arguments. *)
Fixpoint map2 (f : A -> B -> C) (xs : list A) (ys : list B) : list C :=
  match xs, ys with
  | x :: xs', y :: ys' => f x y :: map2 f xs' ys'
  | _, _ => []
  end.

End Generic.

Section Indexing.
Context {A : Type}.

(** Position selected by an integer index in an array of length [n]:
    a negative index counts from the end, as in Python and [jp.take]. *)
Definition wrap (n : nat) (i : Z) : nat :=
  Z.to_nat (i mod Z.of_nat n).

(** [a.take(idx)] on the leading axis. *)
Definition take (d : A) (xs : list A) (idx : list Z) : list A :=
  map (fun i => nth (wrap (length xs) i) xs d) idx.

(** [a[off : off + w]]. *)
Definition slice (off w : nat) (xs : list A) : list A :=
  firstn w (skipn off xs).

(** [a.reshape((n, w, -1))]: [n] consecutive rows of width [w]. *)
Definition reshape (n w : nat) (xs : list A) : list (list A) :=
  map (fun k => slice (k * w) w xs) (seq 0 n).

(** [a.take(i, axis=1)] on a reshaped array: column [i]. *)
Definition column (d : A) (i : nat) (m : list (list A)) : list A :=
  map (fun r => nth i r d) m.

(** [jp.column_stack(cols).reshape(-1)]: interleave [cols], each of
    length [n], row by row. *)
Definition column_stack (d : A) (n : nat) (cols : list (list A)) : list A :=
  flat_map (fun k => map (fun c => nth k c d) cols) (seq 0 n).

End Indexing.

(** [jp.sum] of a vector of scalars. *)
Definition sum (xs : list R) : R := fold_right Rplus 0 xs.

End Arr.

(** ** Spatial algebra: the value types of [brax.v2.base] *)

(** An array of shape [(3,)]. *)
Record Vec3 := mkVec3 { vx : R; vy : R; vz : R }.

(** A rotation is a quaternion [w, x, y, z], an array of shape [(4,)]. *)
Record Quat := mkQuat { qw : R; qx : R; qy : R; qz : R }.

(** Modelled from the spec: the class [Transform] of [brax.v2.base], a rigid
    pose: position and orientation. *)
Record Transform := mkTransform { pos : Vec3; rot : Quat }.

(** Modelled from the spec: the class [Motion] of [brax.v2.base], a spatial
    motion: an angular and a linear velocity or acceleration. *)
Record Motion := mkMotion { ang : Vec3; vel : Vec3 }.

(** Modelled from the spec: the class [Force] of [brax.v2.base], a spatial
    force; its fields are [ang] and [vel] in the source too. *)
Record Force := mkForce { fang : Vec3; fvel : Vec3 }.

(** The 3x3 inertia tensor, by rows. *)
Record Mat3 := mkMat3 { r0 : Vec3; r1 : Vec3; r2 : Vec3 }.

(** Modelled from the spec: the class [Inertia] of [brax.v2.base], a spatial
    inertia: mass, inertia tensor and the pose of the centre of mass. *)
Record Inertia := mkInertia { transform : Transform; i : Mat3; mass : R }.

Module V3.

Definition zero : Vec3 := mkVec3 0 0 0.
Definition add (a b : Vec3) : Vec3 :=
  mkVec3 (vx a + vx b) (vy a + vy b) (vz a + vz b).
Definition sub (a b : Vec3) : Vec3 :=
  mkVec3 (vx a - vx b) (vy a - vy b) (vz a - vz b).
Definition neg (a : Vec3) : Vec3 := mkVec3 (- vx a) (- vy a) (- vz a).
(** [jp.multiply(s, v)] for a scalar [s]. *)
Definition scale (s : R) (a : Vec3) : Vec3 :=
  mkVec3 (s * vx a) (s * vy a) (s * vz a).
(** [v / s] for a scalar [s]. *)
Definition div (a : Vec3) (s : R) : Vec3 :=
  mkVec3 (vx a / s) (vy a / s) (vz a / s).
Definition dot (a b : Vec3) : R := vx a * vx b + vy a * vy b + vz a * vz b.
Definition cross (a b : Vec3) : Vec3 :=
  mkVec3 (vy a * vz b - vz a * vy b)
         (vz a * vx b - vx a * vz b)
         (vx a * vy b - vy a * vx b).
(** [v * s] for a scalar [s]. *)
Definition mul (a : Vec3) (s : R) : Vec3 :=
  mkVec3 (vx a * s) (vy a * s) (vz a * s).
(** [jp.sum(vs, axis=0)]. *)
Definition sum (vs : list Vec3) : Vec3 := fold_right add zero vs.

End V3.

Module Transform_.

Definition quat_id : Quat := mkQuat 1 0 0 0.

(** Modelled from the spec: [Transform.zero(shape)] of [brax.v2.base], one
    row of it: the zero/identity transform. *)
Definition zero : Transform := mkTransform V3.zero quat_id.

(** Modelled from the spec: [Transform.create(pos=p)] of [brax.v2.base]; the
    rotation left out is the identity. *)
Definition create_pos (p : Vec3) : Transform := mkTransform p quat_id.

(** [t.replace(pos=p)]: every other field is kept. *)
Definition replace_pos (t : Transform) (p : Vec3) : Transform :=
  mkTransform p (rot t).

End Transform_.

Module Motion_.

(** Modelled from the spec: [Motion.zero(shape)] of [brax.v2.base], one row
    of it. *)
Definition zero : Motion := mkMotion V3.zero V3.zero.

(** Modelled from the spec: [Motion.create(vel=v)] of [brax.v2.base]; the
    angular part left out is zero ("linear component only"). *)
Definition create_vel (v : Vec3) : Motion := mkMotion V3.zero v.

(** Modelled from the spec: motion addition, [a + b] of [brax.v2.base]. *)
Definition add (a b : Motion) : Motion :=
  mkMotion (V3.add (ang a) (ang b)) (V3.add (vel a) (vel b)).

(** Modelled from the spec: scalar multiplication, [m * s] of
    [brax.v2.base]. *)
Definition scale (m : Motion) (s : R) : Motion :=
  mkMotion (V3.mul (ang m) s) (V3.mul (vel m) s).

(** Modelled from the spec: [a.cross(b)] of [brax.v2.base] for two motions,
    [cross(a,b) = (w_a x w_b, w_a x v_b + v_a x w_b)]. *)
Definition cross (a b : Motion) : Motion :=
  mkMotion (V3.cross (ang a) (ang b))
           (V3.add (V3.cross (ang a) (vel b)) (V3.cross (vel a) (ang b))).

(** [m.replace(ang=a)]: every other field is kept. *)
Definition replace_ang (m : Motion) (a : Vec3) : Motion := mkMotion a (vel m).

(** Modelled from the spec: [m.dot(f)] of [brax.v2.base], the dot product
    of a motion with a force. *)
Definition dot (m : Motion) (f : Force) : R :=
  V3.dot (ang m) (fang f) + V3.dot (vel m) (fvel f).

(** [jp.sum(ms, axis=0)] on a batch of motions. *)
Definition sum (ms : list Motion) : Motion := fold_right add zero ms.

End Motion_.

Module Force_.

Definition zero : Force := mkForce V3.zero V3.zero.

(** Modelled from the spec: force addition, [a + b] of [brax.v2.base]. *)
Definition add (a b : Force) : Force :=
  mkForce (V3.add (fang a) (fang b)) (V3.add (fvel a) (fvel b)).

End Force_.

(** The operations of [brax.v2.math] and [brax.v2.base] that the dynamics
    calls and of which neither [src/] nor the spec gives the body.  The
    development is generic in them.  [free_q_width] is the number of entries
    of [q] that a free joint occupies, a constant of [brax.v2.scan]; the
    dynamics never reads those entries. *)
Class Algebra := {
  (** [math.rotate(vec, quat)] *)
  rotate : Vec3 -> Quat -> Vec3;
  (** [math.quat_rot_axis(axis, angle)] *)
  quat_rot_axis : Vec3 -> R -> Quat;
  (** [math.normalize(x)], which returns the unit vector and the norm *)
  normalize : Quat -> Quat * R;
  (** [t.do(o)] for a transform, a motion and an inertia [o] *)
  do_transform : Transform -> Transform -> Transform;
  do_motion : Transform -> Motion -> Motion;
  do_inertia : Transform -> Inertia -> Inertia;
  (** [t.inv()] *)
  inv : Transform -> Transform;
  (** [inertia.mul(m)] *)
  mul : Inertia -> Motion -> Force;
  (** [m.cross(f)] for a motion and a force *)
  cross_force : Motion -> Force -> Force;
  free_q_width : nat
}.

(** What the spec states of these operations and the proofs rely on:
    [mul] is a linear map, so it sends the zero motion to the zero force,
    and the cross product of the zero motion with the zero force is zero. *)
Class AlgebraLaws (A : Algebra) : Prop := {
  mul_zero : forall I, mul I Motion_.zero = Force_.zero;
  cross_force_zero : cross_force Motion_.zero Force_.zero = Force_.zero
}.

(** ** The mechanism: [brax.v2.base.System] *)

(** Modelled from the spec: the per-link and per-dof rows of [System] in
    [brax.v2.base], of which the source reads the fields below. *)
Record Link := mkLink {
  link_transform : Transform;   (* sys.link.transform *)
  link_joint : Transform;       (* sys.link.joint *)
  link_inertia : Inertia        (* sys.link.inertia *)
}.

Record DoF := mkDoF {
  motion : Motion;              (* sys.dof.motion *)
  stiffness : R;                (* sys.dof.stiffness *)
  damping : R                   (* sys.dof.damping *)
}.

(** Modelled from the spec: the class [System] of [brax.v2.base]: the links
    and dofs, the joint-type tag and the parent index of every link, and
    gravity. *)
Record System := mkSystem {
  link : list Link;
  dof : list DoF;
  link_types : list ascii;      (* one of 'f', '1', '2', '3' per link *)
  link_parents : list Z;        (* -1 for the root *)
  gravity : Vec3
}.

Module Sys.

(** Placeholders read by [nth] outside an array; never reached on
    arrays of the right length. *)
Definition no_inertia : Inertia :=
  mkInertia Transform_.zero (mkMat3 V3.zero V3.zero V3.zero) 0.
Definition no_link : Link := mkLink Transform_.zero Transform_.zero no_inertia.
Definition no_dof : DoF := mkDoF Motion_.zero 0 0.

(** Row [l] of [sys.link] and row [e] of [sys.dof]. *)
Definition link_at (sys : System) (l : nat) : Link := nth l (link sys) no_link.
Definition dof_at (sys : System) (e : nat) : DoF := nth e (dof sys) no_dof.

Definition is_free (typ : ascii) : bool := Ascii.eqb typ "f".

(** [typ in 'fb'] for a one-character tag. *)
Definition in_fb (typ : ascii) : bool := Ascii.eqb typ "f" || Ascii.eqb typ "b".

(** [int(typ)] for a digit tag; Python raises on any other tag. *)
Definition int (typ : ascii) : nat :=
  let c := nat_of_ascii typ in
  if (48 <=? c)%nat && (c <=? 57)%nat then (c - 48)%nat else O.

(** The tags the scans know: free, and one to three stacked axes. *)
Definition supported (typ : ascii) : bool :=
  Ascii.eqb typ "f" || Ascii.eqb typ "1" || Ascii.eqb typ "2" || Ascii.eqb typ "3".

(** How the scans split an argument: by link, by dof or by position
    coordinate (['l'], ['d'], ['q'] in [in_types]). *)
Inductive Kind := L | D | Q.

Section Layout.
Context {A : Algebra}.

(** Modelled from the spec: the widths by which [brax.v2.scan] splits an
    array of kind [k]: one row per link; six dofs for a free joint (the
    source reshapes its dof arrays to [(-1, 6, 3)]) and [int(typ)] for a
    stacked one; as many position coordinates as dofs for a stacked joint
    (the source pairs them in [cdof_fn]). *)
Definition width (k : Kind) (typ : ascii) : nat :=
  match k with
  | L => 1%nat
  | D => if is_free typ then 6%nat else int typ
  | Q => if is_free typ then free_q_width else int typ
  end.

Variable sys : System.

Definition num_links : nat := length (link_types sys).

Definition typ (l : nat) : ascii := nth l (link_types sys) "f"%char.

Definition parent (l : nat) : Z := nth l (link_parents sys) (-1)%Z.

(** First entry of link [l] in an array of kind [k]. *)
Definition offset (k : Kind) (l : nat) : nat :=
  list_sum (map (width k) (firstn l (link_types sys))).

Definition num_dofs : nat := offset D num_links.

Definition num_q : nat := offset Q num_links.

(** Modelled from the spec: the depth of a link in the tree, which
    [brax.v2.scan] computes by recursion on the parent; the number of
    ancestors of link [l], with fuel for the recursion. *)
Fixpoint depth_fn (fuel : nat) (l : nat) : nat :=
  match fuel with
  | O => O
  | S fuel' =>
      if (parent l <? 0)%Z then O else S (depth_fn fuel' (Z.to_nat (parent l)))
  end.

Definition depth (l : nat) : nat := depth_fn num_links l.

Definition max_depth : nat :=
  fold_right Nat.max O (map depth (seq 0 num_links)).

(** The links at depth [d], in link order. *)
Definition level (d : nat) : list nat :=
  filter (fun l => depth l =? d)%nat (seq 0 num_links).

(** Position of link [l] inside its depth level. *)
Definition level_rank (l : nat) : nat :=
  length (filter (fun k => depth k =? depth l)%nat (seq 0 l)).

(** The links of type [t], in link order. *)
Definition links_of_type (t : ascii) : list nat :=
  filter (fun l => Ascii.eqb (typ l) t) (seq 0 num_links).

(** Position of link [l] among the links of its type. *)
Definition type_rank (l : nat) : nat :=
  length (filter (fun k => Ascii.eqb (typ k) (typ l)) (seq 0 l)).

(** Modelled from the spec: [sys.dof_link()] of [brax.v2.base], the
    dof-to-link map: the link that each dof drives. *)
Definition dof_link : list Z :=
  flat_map (fun l => repeat (Z.of_nat l) (width D (typ l))) (seq 0 num_links).

(** Modelled from the spec: [sys.dof_link(depth=True)] of [brax.v2.base],
    the same map with each link named by its position inside its depth
    level. *)
Definition dof_link_depth : list Z :=
  flat_map (fun l => repeat (Z.of_nat (level_rank l)) (width D (typ l)))
           (seq 0 num_links).

(** The entries of the links [ls] in an array [xs] of kind [k]. *)
Definition gather {X : Type} (k : Kind) (ls : list nat) (xs : list X) : list X :=
  flat_map (fun l => Arr.slice (offset k l) (width k (typ l)) xs) ls.

End Layout.

Section WellFormed.
Context {A : Algebra}.
Variable sys : System.

(** The arrays of the mechanism have one row per link and one per dof, and
    every tag is one the scans know. *)
Definition shaped : bool :=
  (length (link sys) =? num_links sys)%nat
  && (length (link_parents sys) =? num_links sys)%nat
  && (length (dof sys) =? num_dofs sys)%nat
  && forallb supported (link_types sys).

(** A single tree whose links are numbered parents first: link 0 is the
    root and every other link has a parent of smaller index. *)
Definition rooted_tree : bool :=
  (1 <=? num_links sys)%nat
  && forallb
       (fun l =>
          (if (l =? 0)%nat then (parent sys l =? -1)%Z else (0 <=? parent sys l)%Z)
          && (parent sys l <? Z.of_nat l)%Z)
       (seq 0 (num_links sys)).

End WellFormed.
End Sys.

(** ** Scatter-add and the tree scans *)

Module Scan.
Import Sys.

Section IndexSum.
Context {Y : Type} (add : Y -> Y -> Y).

(** [v] added to slot [p] of [buf]; nothing happens past the end. *)
Fixpoint add_at (p : nat) (v : Y) (buf : list Y) : list Y :=
  match buf, p with
  | [], _ => []
  | b :: bs, O => add b v :: bs
  | b :: bs, S p' => b :: add_at p' v bs
  end.

(** [buf.at[k].add(v)]: a negative index counts from the end and an index
    outside the buffer is dropped. *)
Definition at_add (buf : list Y) (k : Z) (v : Y) : list Y :=
  if (0 <=? k)%Z then add_at (Z.to_nat k) v buf
  else if (- Z.of_nat (length buf) <=? k)%Z
       then add_at (Z.to_nat (Z.of_nat (length buf) + k)) v buf
       else buf.

(** Modelled from the spec: [x.index_sum(idx, o)] of [brax.v2.base], the
    scatter-add: every contribution is accumulated, in order, into the slot
    its index names, several contributions to one slot being allowed. *)
Fixpoint index_sum (buf : list Y) (idx : list Z) (vals : list Y) : list Y :=
  match idx, vals with
  | k :: idx', v :: vals' => index_sum (at_add buf k v) idx' vals'
  | _, _ => buf
  end.

(** The sum, slot by slot, of the values addressed to each of [n] slots. *)
Definition segment_sum (zero : Y) (vals : list Y) (idx : list Z) (n : nat) : list Y :=
  index_sum (repeat zero n) idx vals.

End IndexSum.

Section Scans.
Context {A : Algebra}.
Variable sys : System.
Context {In Y : Type}.

(** Modelled from the spec: [scan.link_types(sys, f, in_types, out_types,
    *args)] of [brax.v2.scan].  The links are partitioned by type tag, [f]
    runs once per tag on the entries of all links of that tag ([in_args]
    gathers them as [in_types] says), and the outputs are put back in link
    order, each link receiving the entries that [kout] gives it. *)
Definition link_types (f : ascii -> In -> list Y) (in_args : list nat -> In)
    (kout : Kind) : list Y :=
  flat_map
    (fun l =>
       let t := typ sys l in
       Arr.slice (type_rank sys l * width kout t) (width kout t)
                 (f t (in_args (links_of_type sys t))))
    (seq 0 (num_links sys)).

Variable dY : Y.

(** For the links of level [d], the row of each link's parent inside the
    level above. *)
Definition parent_rows (d : nat) : list Z :=
  map (fun l => Z.of_nat (level_rank sys (Z.to_nat (parent sys l)))) (level sys d).

Section Forward.
Variable f : option (list Y) -> In -> list Y.
Variable in_args : list nat -> In.

(** Output of [f] on the level [d]; its carry is, for each link, the
    output of the level above at the row of the link's parent. *)
Fixpoint forward_level (d : nat) : list Y :=
  match d with
  | O => f None (in_args (level sys 0))
  | S d' =>
      f (Some (Arr.take dY (forward_level d') (parent_rows (S d'))))
        (in_args (level sys (S d')))
  end.

(** Modelled from the spec: [scan.tree(sys, f, in_types, *args)] of
    [brax.v2.scan], root to leaves.  The links are visited by depth
    level; [f] receives [None] at the root level and below it the value of
    each link's parent, and the outputs are put back in link order. *)
Definition tree : list Y :=
  map (fun l => nth (level_rank sys l) (forward_level (depth sys l)) dY)
      (seq 0 (num_links sys)).

End Forward.

Section Backward.
Variable add : Y -> Y -> Y.
Variable f : option (list Y) -> In -> list Y.
Variable in_args : list nat -> In.

(** Output of the level [k] steps above the deepest one. *)
Fixpoint backward_level (k : nat) : list Y :=
  match k with
  | O => f None (in_args (level sys (max_depth sys)))
  | S k' =>
      let d := (max_depth sys - S k')%nat in
      f (Some (segment_sum add dY (backward_level k') (parent_rows (S d))
                           (length (level sys d))))
        (in_args (level sys d))
  end.

(** Modelled from the spec: [scan.tree(..., reverse=True)], leaves to root:
    [f] receives [None] at the deepest level and above it, for each link,
    the sum of the outputs of its children. *)
Definition tree_reverse : list Y :=
  map (fun l => nth (level_rank sys l)
                    (backward_level (max_depth sys - depth sys l)) dY)
      (seq 0 (num_links sys)).

End Backward.
End Scans.
End Scan.

(** ** The dynamics: [brax/v2/generalized/dynamics.py] *)

Module Dynamics.
Import Sys.

Section Dynamics.
Context {A : Algebra}.
Variable sys : System.

(** *** [transform_com] *)

Section TransformCom.
Variables (q qd : list R) (x : list Transform).

(** [xi = x.vmap().do(sys.link.inertia.transform)] *)
Definition xi : list Transform :=
  Arr.map2 do_transform x (map (fun l => transform (link_inertia l)) (link sys)).

(** [mass = sys.link.inertia.mass] *)
Definition masses : list R := map (fun l => mass (link_inertia l)) (link sys).

(** [com = jp.sum(jax.vmap(jp.multiply)(mass, xi.pos), axis=0) / jp.sum(mass)] *)
Definition com : Vec3 :=
  V3.div (V3.sum (Arr.map2 V3.scale masses (map pos xi))) (Arr.sum masses).

(** [xi.replace(pos=xi.pos - com)] *)
Definition cinr_pose : list Transform :=
  map (fun t => Transform_.replace_pos t (V3.sub (pos t) com)) xi.

(** [cinr = xi.replace(pos=xi.pos - com).vmap().do(sys.link.inertia)] *)
Definition cinr : list Inertia :=
  Arr.map2 do_inertia cinr_pose (map link_inertia (link sys)).

(** [x_pad = x.concatenate(Transform.zero(shape=(1,)))] *)
Definition x_pad : list Transform := x ++ [Transform_.zero].

(** [pidx]: the link itself for a free joint, its parent otherwise. *)
Definition pidx : list Z :=
  map (fun '(l, (t, p)) => if is_free t then Z.of_nat l else p)
      (combine (seq 0 (length (link_types sys)))
               (combine (link_types sys) (link_parents sys))).

(** [j = x_pad.take(pidx).vmap().do(sys.link.transform).vmap().do(sys.link.joint)] *)
Definition j : list Transform :=
  Arr.map2 do_transform
    (Arr.map2 do_transform (Arr.take Transform_.zero x_pad pidx)
              (map link_transform (link sys)))
    (map link_joint (link sys)).

(** [rot_fn = lambda ang, q: math.normalize(math.quat_rot_axis(ang, q))[0]] *)
Definition rot_fn (a : Vec3) (qk : R) : Quat := fst (normalize (quat_rot_axis a qk)).

(** One turn of the loop of [cdof_fn] over the axis [k]; the state is the
    accumulated joint transform of every link and the list [jds]. *)
Definition cdof_step (j_stack : list (list Transform)) (jd_stack : list (list Motion))
    (st : list Transform * list (list Motion)) (k : nat)
    : list Transform * list (list Motion) :=
  let '(jt, jds) := st in
  (Arr.map2 do_transform jt (Arr.column Transform_.zero k j_stack),
   jds ++ [Arr.map2 do_motion (map inv jt) (Arr.column Motion_.zero k jd_stack)]).

(** [cdof_fn(typ, q, motion)]: the subspace vectors of the joints of one
    tag, each axis expressed after the axes that precede it in its joint. *)
Definition cdof_fn (typ : ascii) (qs : list R) (mo : list Motion) : list Motion :=
  if is_free typ then mo
  else
    let jt := Arr.map2 (fun m qk => mkTransform (V3.mul (vel m) qk) (rot_fn (ang m) qk))
                       mo qs in
    let jd := mo in
    let num_dofs := int typ in
    let num_links := (length mo / num_dofs)%nat in
    let j_stack := Arr.reshape num_links num_dofs jt in
    let jd_stack := Arr.reshape num_links num_dofs jd in
    let '(_, jds) :=
      fold_left (cdof_step j_stack jd_stack) (seq 0 num_dofs)
                (repeat Transform_.zero num_links, []) in
    Arr.column_stack Motion_.zero num_links jds.

(** [cdof = scan.link_types(sys, cdof_fn, 'qd', 'd', q, sys.dof.motion)] *)
Definition cdof_local : list Motion :=
  Scan.link_types sys (fun t '(qs, mo) => cdof_fn t qs mo)
             (fun ls => (gather sys Q ls q, gather sys D ls (map motion (dof sys))))
             D.

(** [ang = jax.vmap(math.rotate)(cdof.ang, j.take(sys.dof_link()).rot)]
    and [cdof = cdof.replace(ang=ang)] *)
Definition cdof_rotated : list Motion :=
  Arr.map2 (fun m t => Motion_.replace_ang m (rotate (ang m) (rot t)))
           cdof_local (Arr.take Transform_.zero j (dof_link sys)).

(** [cdof = Transform.create(pos=com - j.pos).take(sys.dof_link()).vmap().do(cdof)] *)
Definition cdof : list Motion :=
  Arr.map2 do_motion
    (Arr.take Transform_.zero
              (map (fun t => Transform_.create_pos (V3.sub com (pos t))) j)
              (dof_link sys))
    cdof_rotated.

(** [cdof_qd = jax.vmap(lambda x, y: x * y)(cdof, qd)] *)
Definition cdof_qd : list Motion := Arr.map2 Motion_.scale cdof qd.

(** [cd_fn(cd_parent, cdof_qd, dof_idx)]: [cd = cd[parent] + map-sum(cdof * qd)]. *)
Definition cd_fn (cd_parent : option (list Motion)) (cq : list Motion)
    (dof_idx : list Z) : list Motion :=
  let cd_parent :=
    match cd_parent with None => [Motion_.zero] | Some c => c end in
  Scan.index_sum Motion_.add cd_parent dof_idx cq.

(** [cd = scan.tree(sys, cd_fn, 'dd', cdof_qd, sys.dof_link(depth=True))] *)
Definition cd : list Motion :=
  Scan.tree sys Motion_.zero (fun c '(cq, di) => cd_fn c cq di)
       (fun ls => (gather sys D ls cdof_qd, gather sys D ls (dof_link_depth sys))).

(** The free branch of [cdofd_fn]; its [cd] argument is overwritten. *)
Definition cdofd_free (cdf cq : list Motion) : list Motion :=
  let cq6 := Arr.reshape (length cq / 6) 6 cq in
  let cd6 := map (fun row => Motion_.sum (firstn 3 row)) cq6 in
  let cdofd :=
    Arr.map2 (fun c row => map (Motion_.cross c) row) cd6
             (Arr.reshape (length cdf / 6) 6 cdf) in
  let cdofd :=
    map (fun row => map (fun _ => Motion_.zero) (firstn 3 row) ++ skipn 3 row) cdofd in
  concat cdofd.

(** The list [cds] after the loop of [cdofd_fn]. *)
Definition cds_loop (cdl : list Motion) (cq_stack : list (list Motion))
    (num_dofs : nat) : list (list Motion) :=
  fold_left
    (fun cds k =>
       cds ++ [Arr.map2 Motion_.add (last cds []) (Arr.column Motion_.zero k cq_stack)])
    (seq 0 (num_dofs - 1)) [cdl].

(** [cdofd_fn(typ, cd, cdof, cdof_qd)]. *)
Definition cdofd_fn (typ : ascii) (cdl cdf cq : list Motion) : list Motion :=
  if is_free typ then cdofd_free cdf cq
  else
    let num_dofs := int typ in
    let cq_stack := Arr.reshape (length cdl) num_dofs cq in
    let cds := cds_loop cdl cq_stack num_dofs in
    let cdv := Arr.column_stack Motion_.zero (length cdl) cds in
    Arr.map2 Motion_.cross cdv cdf.

(** [cd_p = cd.concatenate(Motion.zero(shape=(1,))).take(pidx)] *)
Definition cd_p : list Motion := Arr.take Motion_.zero (cd ++ [Motion_.zero]) pidx.

(** [cdofd = scan.link_types(sys, cdofd_fn, 'ldd', 'd', cd_p, cdof, cdof_qd)] *)
Definition cdofd : list Motion :=
  Scan.link_types sys (fun t '(cdl, cdf, cq) => cdofd_fn t cdl cdf cq)
             (fun ls => (gather sys L ls cd_p, gather sys D ls cdof,
                         gather sys D ls cdof_qd))
             D.

(** [transform_com(sys, q, qd, x)] returns [com, cinr, cd, cdof, cdofd]. *)
Definition transform_com
    : Vec3 * list Inertia * list Motion * list Motion * list Motion :=
  (com, cinr, cd, cdof, cdofd).

End TransformCom.

(** *** [inverse] *)

Section Inverse.
Variables (qd : list R) (cinr : list Inertia) (cd cdof cdofd : list Motion).

(** [cdd_fn(cdd_parent, cdofd, qd, dof_idx)]:
    [cdd = cdd[parent] + map-sum(cdofd * qd)]. *)
Definition cdd_fn (cdd_parent : option (list Motion)) (cdofd_l : list Motion)
    (qd_l : list R) (dof_idx : list Z) : list Motion :=
  let cdd_parent :=
    match cdd_parent with
    | None => [Motion_.create_vel (V3.neg (gravity sys))]
    | Some c => c
    end in
  Scan.index_sum Motion_.add cdd_parent dof_idx (Arr.map2 Motion_.scale cdofd_l qd_l).

(** [cdd = scan.tree(sys, cdd_fn, 'ddd', cdofd, qd, sys.dof_link(depth=True))] *)
Definition cdd : list Motion :=
  Scan.tree sys Motion_.zero (fun c '(cl, ql, di) => cdd_fn c cl ql di)
       (fun ls => (gather sys D ls cdofd, gather sys D ls qd,
                   gather sys D ls (dof_link_depth sys))).

(** [frc(cinr, cdd, cd) = cinr.mul(cdd) + cd.cross(cinr.mul(cd))] *)
Definition frc (ci : Inertia) (cddl cdl : Motion) : Force :=
  Force_.add (mul ci cddl) (cross_force cdl (mul ci cdl)).

(** [cfrc_flat = jax.vmap(frc)(cinr, cdd, cd)] *)
Definition cfrc_flat : list Force :=
  Arr.map2 (fun ci '(a, v) => frc ci a v) cinr (combine cdd cd).

(** [cfrc_fn(cfrc_child, cfrc)]: [cfrc += cfrc_child] when there is one. *)
Definition cfrc_fn (cfrc_child : option (list Force)) (cfrc : list Force)
    : list Force :=
  match cfrc_child with
  | Some c => Arr.map2 Force_.add cfrc c
  | None => cfrc
  end.

(** [cfrc = scan.tree(sys, cfrc_fn, 'l', cfrc_flat, reverse=True)] *)
Definition cfrc : list Force :=
  Scan.tree_reverse sys Force_.zero Force_.add cfrc_fn
               (fun ls => gather sys L ls cfrc_flat).

(** [tau = jax.vmap(lambda x, y: x.dot(y))(cdof, cfrc.take(sys.dof_link()))] *)
Definition inverse : list R :=
  Arr.map2 Motion_.dot cdof (Arr.take Force_.zero cfrc (dof_link sys)).

End Inverse.

(** *** [_passive] *)

(** [stiffness_fn(typ, q, dof)]. *)
Definition stiffness_fn (typ : ascii) (qs : list R) (dofs : list DoF) : list R :=
  if in_fb typ then map (fun _ => 0) dofs
  else Arr.map2 (fun qk d => - qk * stiffness d) qs dofs.

(** [_passive(sys, q, qd)]: the spring force by joint tag, minus the damping. *)
Definition _passive (q qd : list R) : list R :=
  let frc :=
    Scan.link_types sys (fun t '(qs, dofs) => stiffness_fn t qs dofs)
               (fun ls => (gather sys Q ls q, gather sys D ls (dof sys)))
               D in
  Arr.map2 Rminus frc (Arr.map2 (fun d v => damping d * v) (dof sys) qd).

(** *** [forward] *)

(** [forward(sys, q, qd, cinr, cd, cdof, cdofd, tau)]:
    [qfrc = qfrc_passive - qfrc_bias + tau]. *)
Definition forward (q qd : list R) (cinr : list Inertia)
    (cd cdof cdofd : list Motion) (tau : list R) : list R :=
  let qfrc_passive := _passive q qd in
  let qfrc_bias := inverse qd cinr cd cdof cdofd in
  let qfrc := Arr.map2 Rplus (Arr.map2 Rminus qfrc_passive qfrc_bias) tau in
  qfrc.

End Dynamics.
End Dynamics.

(** ** A concrete spatial algebra *)

(** Modelled from the spec: the pose, rotation and inertia operations of
    [brax.v2.math] and [brax.v2.base], modules outside [src/].  The spec names
    them ("pose compose/invert, pose application", "inertia mul ... linear
    map") without formulas; the bodies below are the usual unit-quaternion
    conventions for rigid bodies.  No theorem on the dynamics depends on
    them: they serve to run the dynamics on concrete mechanisms. *)
Module Concrete.

Definition qvec (q : Quat) : Vec3 := mkVec3 (qx q) (qy q) (qz q).

Definition rotate (v : Vec3) (q : Quat) : Vec3 :=
  let s := qw q in
  let u := qvec q in
  V3.add (V3.add (V3.scale 2 (V3.scale (V3.dot u v) u))
                 (V3.scale (s * s - V3.dot u u) v))
         (V3.scale (2 * s) (V3.cross u v)).

Definition quat_mul (u v : Quat) : Quat :=
  mkQuat (qw u * qw v - qx u * qx v - qy u * qy v - qz u * qz v)
         (qw u * qx v + qx u * qw v + qy u * qz v - qz u * qy v)
         (qw u * qy v - qx u * qz v + qy u * qw v + qz u * qx v)
         (qw u * qz v + qx u * qy v - qy u * qx v + qz u * qw v).

Definition quat_inv (q : Quat) : Quat := mkQuat (qw q) (- qx q) (- qy q) (- qz q).

Definition quat_rot_axis (axis : Vec3) (angle : R) : Quat :=
  let s := sin (angle / 2) in
  mkQuat (cos (angle / 2)) (vx axis * s) (vy axis * s) (vz axis * s).

Definition normalize (q : Quat) : Quat * R :=
  let n := sqrt (qw q * qw q + qx q * qx q + qy q * qy q + qz q * qz q) in
  let d := if Req_EM_T n 0 then 1 / 1000000 else n in
  (mkQuat (qw q / d) (qx q / d) (qy q / d) (qz q / d), n).

Definition do_transform (t o : Transform) : Transform :=
  mkTransform (V3.add (pos t) (rotate (pos o) (rot t))) (quat_mul (rot t) (rot o)).

Definition inv (t : Transform) : Transform :=
  mkTransform (rotate (V3.neg (pos t)) (quat_inv (rot t))) (quat_inv (rot t)).

Definition do_motion (t : Transform) (m : Motion) : Motion :=
  let rot_t := quat_inv (rot t) in
  mkMotion (rotate (ang m) rot_t)
           (rotate (V3.sub (vel m) (V3.cross (pos t) (ang m))) rot_t).

Definition mat_vec (m : Mat3) (v : Vec3) : Vec3 :=
  mkVec3 (V3.dot (r0 m) v) (V3.dot (r1 m) v) (V3.dot (r2 m) v).

Definition mat_T (m : Mat3) : Mat3 :=
  mkMat3 (mkVec3 (vx (r0 m)) (vx (r1 m)) (vx (r2 m)))
         (mkVec3 (vy (r0 m)) (vy (r1 m)) (vy (r2 m)))
         (mkVec3 (vz (r0 m)) (vz (r1 m)) (vz (r2 m))).

Definition mat_mul (a b : Mat3) : Mat3 :=
  let bt := mat_T b in
  mkMat3 (mat_vec bt (r0 a)) (mat_vec bt (r1 a)) (mat_vec bt (r2 a)).

Definition mat_add (a b : Mat3) : Mat3 :=
  mkMat3 (V3.add (r0 a) (r0 b)) (V3.add (r1 a) (r1 b)) (V3.add (r2 a) (r2 b)).

Definition mat_scale (a : Mat3) (s : R) : Mat3 :=
  mkMat3 (V3.mul (r0 a) s) (V3.mul (r1 a) s) (V3.mul (r2 a) s).

Definition quat_to_3x3 (q : Quat) : Mat3 :=
  let d := qw q * qw q + qx q * qx q + qy q * qy q + qz q * qz q in
  let s := 2 / d in
  let xs := qx q * s in let ys := qy q * s in let zs := qz q * s in
  let wx := qw q * xs in let wy := qw q * ys in let wz := qw q * zs in
  let xx := qx q * xs in let xy := qx q * ys in let xz := qx q * zs in
  let yy := qy q * ys in let yz := qy q * zs in let zz := qz q * zs in
  mkMat3 (mkVec3 (1 - (yy + zz)) (xy - wz) (xz + wy))
         (mkVec3 (xy + wz) (1 - (xx + zz)) (yz - wx))
         (mkVec3 (xz - wy) (yz + wx) (1 - (xx + yy))).

Definition do_inertia (t : Transform) (it : Inertia) : Inertia :=
  let p := pos t in
  let h := mkMat3 (V3.cross p (mkVec3 (-1) 0 0))
                  (V3.cross p (mkVec3 0 (-1) 0))
                  (V3.cross p (mkVec3 0 0 (-1))) in
  let r := quat_to_3x3 (rot t) in
  mkInertia (mkTransform (V3.mul p (mass it)) (rot t))
            (mat_add (mat_mul (mat_mul r (i it)) (mat_T r))
                     (mat_scale (mat_mul h (mat_T h)) (mass it)))
            (mass it).

Definition mul (it : Inertia) (m : Motion) : Force :=
  mkForce (V3.add (mat_vec (i it) (ang m)) (V3.cross (pos (transform it)) (vel m)))
          (V3.sub (V3.scale (mass it) (vel m)) (V3.cross (pos (transform it)) (ang m))).

Definition cross_force (m : Motion) (f : Force) : Force :=
  mkForce (V3.add (V3.cross (ang m) (fang f)) (V3.cross (vel m) (fvel f)))
          (V3.cross (ang m) (fvel f)).

Definition algebra : Algebra :=
  Build_Algebra rotate quat_rot_axis normalize do_transform do_motion
                do_inertia inv mul cross_force 7.

End Concrete.

(** ** Reference formulations *)

Module Spec.

(** Sum of [f 0 .. f (n-1)]. *)
Fixpoint vsum (n : nat) (f : nat -> Vec3) : Vec3 :=
  match n with
  | O => V3.zero
  | S k => V3.add (vsum k f) (f k)
  end.

Fixpoint rsum (n : nat) (f : nat -> R) : R :=
  match n with
  | O => 0
  | S k => rsum k f + f k
  end.

(** The mass-weighted average of [n] points:
    [sum_l (m l * p l) / sum_l (m l)]. *)
Definition weighted_average (n : nat) (m : nat -> R) (p : nat -> Vec3) : Vec3 :=
  V3.div (vsum n (fun l => V3.scale (m l) (p l))) (rsum n m).

Section Quantities.
Context {A : Algebra}.
Variable sys : System.

(** World position of the centre of mass of link [l] when the links are
    posed at [x]: the pose of the link composed with the local offset of its
    inertia. *)
Definition world_pos (x : list Transform) (l : nat) : Vec3 :=
  pos (do_transform (nth l x Transform_.zero)
                    (transform (link_inertia (Sys.link_at sys l)))).

Definition mass_of (l : nat) : R := mass (link_inertia (Sys.link_at sys l)).



(** The frame a joint is anchored at: the pose of the link itself for a
    free joint, of the parent otherwise, the identity standing for the
    parent of the root. *)
Definition anchor (x : list Transform) (l : nat) : Transform :=
  if Sys.is_free (Sys.typ sys l) then nth l x Transform_.zero
  else if (Sys.parent sys l =? -1)%Z then Transform_.zero
       else nth (Z.to_nat (Sys.parent sys l)) x Transform_.zero.

(** The links whose parent is [l], in link order. *)
Definition children (l : nat) : list nat :=
  filter (fun c => (Sys.parent sys c =? Z.of_nat l)%Z) (seq 0 (Sys.num_links sys)).

(** The velocity a stacked joint starts from: that of the parent link, zero
    above the root. *)
Definition parent_velocity (cd : list Motion) (l : nat) : Motion :=
  if (Sys.parent sys l =? -1)%Z then Motion_.zero
  else nth (Z.to_nat (Sys.parent sys l)) cd Motion_.zero.

End Quantities.

(** [base] plus the velocity-weighted subspace vectors [cdof_e * qd_e] of
    the [a] dofs from [off] on, added in order. *)
Definition running_velocity (base : Motion) (cdof : list Motion) (qd : list R)
    (off a : nat) : Motion :=
  fold_left Motion_.add
    (map (fun e => Motion_.scale (nth e cdof Motion_.zero) (nth e qd 0)) (seq off a))
    base.

(** The sum of the forces [f 0], ..., [f (n - 1)]. *)
Fixpoint fsum (n : nat) (f : nat -> Force) : Force :=
  match n with
  | O => Force_.zero
  | S k => Force_.add (fsum k f) (f k)
  end.

Section Joints.
Context {A : Algebra}.
Variable sys : System.

(** The transform of one axis of a stacked joint at the coordinate [qk]:
    a turn by [qk] about the angular part of the axis and a shift by [qk]
    along its linear part. *)
Definition axis_transform (m : Motion) (qk : R) : Transform :=
  mkTransform (V3.mul (vel m) qk) (Dynamics.rot_fn (ang m) qk).

(** The transforms of the first [a] axes of the joint of link [l],
    composed in order from the identity. *)
Definition joint_prefix (q : list R) (l a : nat) : Transform :=
  fold_left do_transform
    (map (fun k =>
            axis_transform (motion (Sys.dof_at sys (Sys.offset sys Sys.D l + k)))
                           (nth (Sys.offset sys Sys.Q l + k) q 0))
         (seq 0 a))
    Transform_.zero.

End Joints.

End Spec.

(** ** Sample mechanisms *)

Module Sample.

Definition unit_inertia : Inertia :=
  mkInertia Transform_.zero
            (mkMat3 (mkVec3 1 0 0) (mkVec3 0 1 0) (mkVec3 0 0 1)) 1.

Definition plain_link : Link := mkLink Transform_.zero Transform_.zero unit_inertia.

Definition hinge (axis : Vec3) (k c : R) : DoF :=
  mkDoF (mkMotion axis V3.zero) k c.

(** Two links in a chain, each on a hinge: the first turns about [z], the
    second about [x]. *)
Definition chain (g : Vec3) : System :=
  mkSystem [plain_link; plain_link]
           [hinge (mkVec3 0 0 1) 3 1; hinge (mkVec3 1 0 0) 5 2]
           ["1"%char; "1"%char]
           [(-1)%Z; 0%Z]
           g.

(** A single hinged link whose inertia tensor has a product of inertia
    between [x] and [y]. *)
Definition skew_inertia : Inertia :=
  mkInertia Transform_.zero
            (mkMat3 (mkVec3 2 1 0) (mkVec3 1 2 0) (mkVec3 0 0 3)) 1.

Definition skewed : System :=
  mkSystem [mkLink Transform_.zero Transform_.zero skew_inertia]
           [hinge (mkVec3 0 0 1) 0 0]
           ["1"%char]
           [(-1)%Z]
           (mkVec3 0 0 0).

(** The link turned by half a turn about [x]. *)
Definition x_flipped : list Transform :=
  [mkTransform V3.zero (mkQuat 0 1 0 0)].

(** A pendulum: one link on a hinge about [y], its centre of mass one unit
    along [x], of mass 2. *)
Definition bob : Inertia :=
  mkInertia (mkTransform (mkVec3 1 0 0) Transform_.quat_id)
            (mkMat3 (mkVec3 1 0 0) (mkVec3 0 1 0) (mkVec3 0 0 1)) 2.

Definition pendulum (g : Vec3) : System :=
  mkSystem [mkLink Transform_.zero Transform_.zero bob]
           [hinge (mkVec3 0 1 0) 0 0]
           ["1"%char]
           [(-1)%Z]
           g.

(** A body floating freely with one hinged arm: link 0 on a free joint
    (three translations, then three rotations), link 1 on a hinge about
    [y] carried by link 0. *)
Definition floater (g : Vec3) : System :=
  mkSystem [plain_link; mkLink Transform_.zero Transform_.zero bob]
           [mkDoF (mkMotion V3.zero (mkVec3 1 0 0)) 0 0;
            mkDoF (mkMotion V3.zero (mkVec3 0 1 0)) 0 0;
            mkDoF (mkMotion V3.zero (mkVec3 0 0 1)) 0 0;
            mkDoF (mkMotion (mkVec3 1 0 0) V3.zero) 0 0;
            mkDoF (mkMotion (mkVec3 0 1 0) V3.zero) 0 0;
            mkDoF (mkMotion (mkVec3 0 0 1) V3.zero) 0 0;
            hinge (mkVec3 0 1 0) 4 1]
           ["f"%char; "1"%char]
           [(-1)%Z; 0%Z]
           g.

(** The floater at the origin, unrotated: position, unit quaternion and
    hinge angle. *)
Definition q_floater : list R := [0; 0; 0; 1; 0; 0; 0; 0].

(** The floater drifting along [x] and [z] and turning about [z]. *)
Definition qd_floater : list R := [1; 0; 2; 0; 0; 3; 0].

Definition earth : Vec3 := mkVec3 0 0 (-981 / 100).

(** Both links at the origin, unrotated. *)
Definition x_rest : list Transform := [Transform_.zero; Transform_.zero].

(** The first link turned by half a turn about [x]. *)
Definition x_turned : list Transform :=
  [mkTransform V3.zero (mkQuat 0 1 0 0); Transform_.zero].

Definition q_rest : list R := [0; 0].

(** The first hinge turning at unit rate. *)
Definition qd_spin : list R := [1; 0].

Definition qd_rest : list R := [0; 0].

(** What [transform_com] derives for the chain under gravity, at rest
    position, with the first hinge turning. *)
Definition cinr : list Inertia :=
  Dynamics.cinr (A := Concrete.algebra) (chain earth) x_rest.
Definition cd : list Motion :=
  Dynamics.cd (A := Concrete.algebra) (chain earth) q_rest qd_spin x_rest.
Definition cdof : list Motion :=
  Dynamics.cdof (A := Concrete.algebra) (chain earth) q_rest x_rest.
Definition cdofd : list Motion :=
  Dynamics.cdofd (A := Concrete.algebra) (chain earth) q_rest qd_spin x_rest.

End Sample.


(** ** Vectors and arrays: basic facts *)

Ltac v3 :=
  repeat match goal with
         | v : Vec3 |- _ => destruct v
         | m : Motion |- _ => destruct m
         | f : Force |- _ => destruct f
         end;
  unfold Motion_.add, Motion_.scale, Motion_.cross, Motion_.zero, Motion_.dot,
    Motion_.create_vel, Force_.add, Force_.zero,
    V3.add, V3.sub, V3.neg, V3.scale, V3.mul, V3.div, V3.dot, V3.cross, V3.zero;
  simpl;
  repeat match goal with
         | |- mkVec3 _ _ _ = mkVec3 _ _ _ => f_equal
         | |- mkMotion _ _ = mkMotion _ _ => f_equal
         | |- mkForce _ _ = mkForce _ _ => f_equal
         end;
  try lra.

(** Evaluation of the dynamics on a concrete mechanism down to real
    arithmetic. *)
Tactic Notation "real_eval" :=
  lazy -[Rplus Rmult Rminus Ropp Rdiv Rinv IZR sin cos sqrt Req_EM_T].
Tactic Notation "real_eval" "in" hyp(H) :=
  lazy -[Rplus Rmult Rminus Ropp Rdiv Rinv IZR sin cos sqrt Req_EM_T] in H.

Ltac real_list :=
  real_eval;
  repeat match goal with
         | |- cons _ _ = cons _ _ => f_equal
         | |- mkVec3 _ _ _ = mkVec3 _ _ _ => f_equal
         | |- mkMotion _ _ = mkMotion _ _ => f_equal
         | |- mkForce _ _ = mkForce _ _ => f_equal
         end;
  try lra.

Lemma V3_add_comm (a b : Vec3) : V3.add a b = V3.add b a.
Proof. v3. Qed.

Lemma V3_add_assoc (a b c : Vec3) : V3.add a (V3.add b c) = V3.add (V3.add a b) c.
Proof. v3. Qed.

Lemma V3_add_zero_l (a : Vec3) : V3.add V3.zero a = a.
Proof. v3. Qed.

Lemma V3_add_zero_r (a : Vec3) : V3.add a V3.zero = a.
Proof. v3. Qed.

Section ArrFacts.
Context {X Y Z' : Type}.

Lemma map2_length (f : X -> Y -> Z') xs ys :
  length (Arr.map2 f xs ys) = Nat.min (length xs) (length ys).
Proof.
  revert ys; induction xs as [|x xs IH]; intros [|y ys]; simpl; auto.
Qed.

Lemma map2_nth (f : X -> Y -> Z') xs ys k dx dy dz :
  (k < length xs)%nat -> (k < length ys)%nat ->
  nth k (Arr.map2 f xs ys) dz = f (nth k xs dx) (nth k ys dy).
Proof.
  revert ys k; induction xs as [|x xs IH]; intros [|y ys] [|k]; simpl; intros;
    try lia; auto.
  apply IH; lia.
Qed.

Lemma map2_app (f : X -> Y -> Z') xs1 xs2 ys1 ys2 :
  length xs1 = length ys1 ->
  Arr.map2 f (xs1 ++ xs2) (ys1 ++ ys2) = Arr.map2 f xs1 ys1 ++ Arr.map2 f xs2 ys2.
Proof.
  revert ys1; induction xs1 as [|x xs1 IH]; intros [|y ys1]; simpl; intros;
    try discriminate; auto.
  f_equal; apply IH; lia.
Qed.

Lemma map2_map_l {W} (f : X -> Y -> Z') (g : W -> X) ws ys :
  Arr.map2 f (map g ws) ys = Arr.map2 (fun w y => f (g w) y) ws ys.
Proof.
  revert ys; induction ws as [|w ws IH]; intros [|y ys]; simpl; auto.
  f_equal; apply IH.
Qed.

Lemma map2_map_r {W} (f : X -> Y -> Z') (g : W -> Y) xs ws :
  Arr.map2 f xs (map g ws) = Arr.map2 (fun x w => f x (g w)) xs ws.
Proof.
  revert ws; induction xs as [|x xs IH]; intros [|w ws]; simpl; auto.
  f_equal; apply IH.
Qed.

Lemma map_map2 {W} (g : Z' -> W) (f : X -> Y -> Z') xs ys :
  map g (Arr.map2 f xs ys) = Arr.map2 (fun x y => g (f x y)) xs ys.
Proof.
  revert ys; induction xs as [|x xs IH]; intros [|y ys]; simpl; auto.
  f_equal; apply IH.
Qed.

Lemma map2_ext (f g : X -> Y -> Z') xs ys :
  (forall x y, f x y = g x y) -> Arr.map2 f xs ys = Arr.map2 g xs ys.
Proof.
  intros E; revert ys; induction xs as [|x xs IH]; intros [|y ys]; simpl; auto.
  rewrite E; f_equal; apply IH.
Qed.

End ArrFacts.

(** ** The centre of mass *)

Lemma vsum_shift n (f : nat -> Vec3) :
  Spec.vsum (S n) f = V3.add (f O) (Spec.vsum n (fun l => f (S l))).
Proof.
  induction n as [|n IH].
  - simpl. now rewrite V3_add_zero_l, V3_add_zero_r.
  - change (Spec.vsum (S (S n)) f) with (V3.add (Spec.vsum (S n) f) (f (S n))).
    rewrite IH. simpl. now rewrite V3_add_assoc.
Qed.

Lemma rsum_shift n (f : nat -> R) :
  Spec.rsum (S n) f = f O + Spec.rsum n (fun l => f (S l)).
Proof.
  induction n as [|n IH].
  - simpl. lra.
  - change (Spec.rsum (S (S n)) f) with (Spec.rsum (S n) f + f (S n)).
    rewrite IH. simpl. lra.
Qed.

Lemma V3_sum_nth (vs : list Vec3) d :
  V3.sum vs = Spec.vsum (length vs) (fun l => nth l vs d).
Proof.
  induction vs as [|v vs IH].
  - reflexivity.
  - simpl length. rewrite vsum_shift. simpl. now rewrite IH.
Qed.

Lemma Arr_sum_nth (xs : list R) d :
  Arr.sum xs = Spec.rsum (length xs) (fun l => nth l xs d).
Proof.
  induction xs as [|v vs IH].
  - reflexivity.
  - simpl length. rewrite rsum_shift. simpl. now rewrite IH.
Qed.

Lemma vsum_ext n (f g : nat -> Vec3) :
  (forall l, (l < n)%nat -> f l = g l) -> Spec.vsum n f = Spec.vsum n g.
Proof.
  induction n as [|n IH]; intros E; simpl; auto.
  rewrite IH, E by (intros; try apply E; lia). reflexivity.
Qed.

Lemma rsum_ext n (f g : nat -> R) :
  (forall l, (l < n)%nat -> f l = g l) -> Spec.rsum n f = Spec.rsum n g.
Proof.
  induction n as [|n IH]; intros E; simpl; auto.
  rewrite IH, E by (intros; try apply E; lia). reflexivity.
Qed.

Section ComFacts.
Context {A : Algebra}.
Variable sys : System.
Variable x : list Transform.
Hypothesis Hx : length x = length (link sys).

Lemma xi_length : length (Dynamics.xi sys x) = length (link sys).
Proof. unfold Dynamics.xi. rewrite map2_length, length_map. lia. Qed.

Lemma xi_nth l :
  (l < length (link sys))%nat ->
  nth l (Dynamics.xi sys x) Transform_.zero =
  do_transform (nth l x Transform_.zero)
               (transform (link_inertia (Sys.link_at sys l))).
Proof.
  intros Hl. unfold Dynamics.xi.
  rewrite map2_nth with (dx := Transform_.zero)
                        (dy := transform (link_inertia Sys.no_link))
    by (rewrite ?length_map; lia).
  now rewrite (map_nth (fun l => transform (link_inertia l))).
Qed.

Lemma com_formula :
  Dynamics.com sys x =
  Spec.weighted_average (length (link sys)) (Spec.mass_of sys) (Spec.world_pos sys x).
Proof.
  unfold Dynamics.com, Spec.weighted_average. f_equal.
  - rewrite (V3_sum_nth _ V3.zero), map2_length, length_map, xi_length.
    unfold Dynamics.masses. rewrite length_map, Nat.min_id.
    apply vsum_ext; intros l Hl.
    rewrite map2_nth with (dx := mass (link_inertia Sys.no_link)) (dy := pos Transform_.zero)
      by (rewrite !length_map, ?xi_length; lia).
    rewrite (map_nth (fun l => mass (link_inertia l))), (map_nth pos), xi_nth by lia.
    reflexivity.
  - rewrite (Arr_sum_nth _ 0). unfold Dynamics.masses. rewrite length_map.
    apply rsum_ext; intros l Hl.
    now rewrite (map_nth (fun l => mass (link_inertia l)) (link sys) Sys.no_link).
Qed.

End ComFacts.

(** ** Slices, blocks and ranks *)

Section ListFacts.
Context {X : Type}.

Lemma slice_app_mid (a b c : list X) :
  Arr.slice (length a) (length b) (a ++ b ++ c) = b.
Proof.
  unfold Arr.slice.
  rewrite skipn_app, skipn_all, Nat.sub_diag. simpl.
  rewrite firstn_app, firstn_all, Nat.sub_diag. simpl.
  now rewrite app_nil_r.
Qed.

Lemma slice_nth off w (xs : list X) a d :
  (a < w)%nat -> nth a (Arr.slice off w xs) d = nth (off + a) xs d.
Proof.
  intros Ha. unfold Arr.slice. rewrite nth_firstn.
  destruct (Nat.ltb_spec a w); try lia. apply nth_skipn.
Qed.

Lemma slice_length off w (xs : list X) :
  (off + w <= length xs)%nat -> length (Arr.slice off w xs) = w.
Proof.
  intros H. unfold Arr.slice. rewrite length_firstn, length_skipn. lia.
Qed.

Lemma nth_map_in {Y} (f : X -> Y) xs a d d' :
  (a < length xs)%nat -> nth a (map f xs) d = f (nth a xs d').
Proof.
  intros Ha. rewrite (nth_indep _ d (f d')) by (now rewrite length_map).
  apply map_nth.
Qed.

Lemma slice_map {Y} (f : X -> Y) off w xs :
  Arr.slice off w (map f xs) = map f (Arr.slice off w xs).
Proof. unfold Arr.slice. now rewrite skipn_map, firstn_map. Qed.

Lemma flat_map_ext_in {Y} (f g : Y -> list X) ls :
  (forall l, In l ls -> f l = g l) -> flat_map f ls = flat_map g ls.
Proof.
  intros E. rewrite !flat_map_concat_map. f_equal. now apply map_ext_in.
Qed.

Lemma flat_map_length_const {Y} (g : Y -> list X) ls w :
  (forall l, In l ls -> length (g l) = w) ->
  length (flat_map g ls) = (length ls * w)%nat.
Proof.
  induction ls as [|l ls IH]; intros E; simpl; auto.
  rewrite length_app, E by (simpl; auto).
  rewrite IH by (intros; apply E; simpl; auto). lia.
Qed.

Lemma slice_uniform {Y} (g : Y -> list X) ls w r d :
  (forall l, In l ls -> length (g l) = w) ->
  (r < length ls)%nat ->
  Arr.slice (r * w) w (flat_map g ls) = g (nth r ls d).
Proof.
  intros E Hr.
  rewrite <- (firstn_skipn r ls) at 1.
  assert (Hs : skipn r ls = nth r ls d :: skipn (S r) ls).
  { clear E. revert r Hr; induction ls as [|l ls IH]; intros [|r] Hr; simpl in *;
      try lia; auto. apply IH; lia. }
  rewrite Hs, flat_map_app. simpl.
  assert (Hin : In (nth r ls d) ls) by (apply nth_In; lia).
  replace (r * w)%nat with (length (flat_map g (firstn r ls))).
  - rewrite <- (E _ Hin) at 1. apply slice_app_mid.
  - rewrite (flat_map_length_const g (firstn r ls) w).
    + rewrite length_firstn. f_equal. lia.
    + intros l Hl. apply E. rewrite <- (firstn_skipn r ls). apply in_or_app; auto.
Qed.

End ListFacts.

Section Ranks.
Variable P : nat -> bool.

Lemma filter_seq_S n :
  filter P (seq 0 (S n)) = filter P (seq 0 n) ++ (if P n then [n] else []).
Proof.
  rewrite seq_S, filter_app. simpl. now destruct (P n).
Qed.

(** The [r]-th number below [n] that satisfies [P] has [r] predecessors
    satisfying [P]. *)
Lemma filter_nth_rank n r d :
  (r < length (filter P (seq 0 n)))%nat ->
  let l := nth r (filter P (seq 0 n)) d in
  (l < n)%nat /\ P l = true /\ length (filter P (seq 0 l)) = r.
Proof.
  induction n as [|n IH]; intros Hr.
  - simpl in Hr. lia.
  - rewrite filter_seq_S in *. rewrite length_app in Hr.
    destruct (Nat.lt_ge_cases r (length (filter P (seq 0 n)))) as [Hlt|Hge].
    + rewrite app_nth1 by lia. destruct (IH Hlt) as (H1 & H2 & H3). auto.
    + destruct (P n) eqn:EP; simpl in Hr; try lia.
      assert (r = length (filter P (seq 0 n))) by lia. subst r.
      rewrite nth_middle. auto.
Qed.

Lemma filter_rank_nth n l d :
  (l < n)%nat -> P l = true ->
  let r := length (filter P (seq 0 l)) in
  (r < length (filter P (seq 0 n)))%nat /\ nth r (filter P (seq 0 n)) d = l.
Proof.
  intros Hl HP.
  assert (E : seq 0 n = seq 0 l ++ l :: seq (S l) (n - S l)).
  { replace n with (l + S (n - S l))%nat at 1 by lia.
    rewrite seq_app. simpl. reflexivity. }
  simpl. rewrite E, filter_app. simpl. rewrite HP. split.
  - rewrite length_app. simpl. lia.
  - apply nth_middle.
Qed.

End Ranks.

(** ** The layout of the dof and coordinate arrays *)

Section LayoutFacts.
Context {A : Algebra}.
Variable sys : System.
Import Sys.

Lemma firstn_S_nth {X} (xs : list X) l d :
  (l < length xs)%nat -> firstn (S l) xs = firstn l xs ++ [nth l xs d].
Proof.
  revert l; induction xs as [|x xs IH]; intros [|l] H; simpl in *; try lia; auto.
  f_equal. apply IH. lia.
Qed.

Lemma offset_S k l :
  (l < num_links sys)%nat ->
  offset sys k (S l) = (offset sys k l + width k (typ sys l))%nat.
Proof.
  intros Hl. unfold offset, typ.
  rewrite (firstn_S_nth _ l "f"%char) by exact Hl.
  rewrite map_app, list_sum_app. simpl. lia.
Qed.

Lemma offset_mono k l m :
  (l <= m)%nat -> (m <= num_links sys)%nat -> (offset sys k l <= offset sys k m)%nat.
Proof.
  induction 1; intros Hm; auto.
  rewrite offset_S by lia. specialize (IHle ltac:(lia)). lia.
Qed.

Lemma offset_fits k l :
  (l < num_links sys)%nat ->
  (offset sys k l + width k (typ sys l) <= offset sys k (num_links sys))%nat.
Proof.
  intros Hl. rewrite <- offset_S by exact Hl. apply offset_mono; lia.
Qed.

Section Blocks.
Context {X : Type}.
Variable k : Kind.
Variable g : nat -> list X.
Hypothesis g_width :
  forall l, (l < num_links sys)%nat -> length (g l) = width k (typ sys l).

Lemma blocks_length l :
  (l <= num_links sys)%nat -> length (flat_map g (seq 0 l)) = offset sys k l.
Proof.
  induction l as [|l IH]; intros Hl.
  - reflexivity.
  - rewrite seq_S, flat_map_app, length_app, IH, offset_S by lia.
    simpl. rewrite app_nil_r, g_width by lia. reflexivity.
Qed.

Lemma blocks_slice l :
  (l < num_links sys)%nat ->
  Arr.slice (offset sys k l) (width k (typ sys l))
            (flat_map g (seq 0 (num_links sys))) = g l.
Proof.
  intros Hl.
  replace (num_links sys) with (l + S (num_links sys - S l))%nat at 1 by lia.
  rewrite seq_app, flat_map_app. simpl.
  rewrite <- blocks_length, <- g_width by lia.
  apply slice_app_mid.
Qed.

Lemma gather_blocks ls :
  (forall l, In l ls -> (l < num_links sys)%nat) ->
  gather sys k ls (flat_map g (seq 0 (num_links sys))) = flat_map g ls.
Proof.
  intros Hls. unfold gather. apply flat_map_ext_in.
  intros l Hl. apply blocks_slice. auto.
Qed.

End Blocks.

Lemma gather_slice_length {X} k (xs : list X) l :
  length xs = offset sys k (num_links sys) ->
  (l < num_links sys)%nat ->
  length (Arr.slice (offset sys k l) (width k (typ sys l)) xs) = width k (typ sys l).
Proof.
  intros Hxs Hl. apply slice_length. rewrite Hxs. now apply offset_fits.
Qed.

Lemma links_of_type_lt t l : In l (links_of_type sys t) -> (l < num_links sys)%nat.
Proof.
  unfold links_of_type. rewrite filter_In, in_seq. lia.
Qed.

Lemma links_of_type_typ t l : In l (links_of_type sys t) -> typ sys l = t.
Proof.
  unfold links_of_type. rewrite filter_In. intros [_ H].
  now apply Ascii.eqb_eq in H.
Qed.

Lemma level_lt d l : In l (level sys d) -> (l < num_links sys)%nat.
Proof.
  unfold level. rewrite filter_In, in_seq. lia.
Qed.

Lemma level_depth d l : In l (level sys d) -> depth sys l = d.
Proof.
  unfold level. rewrite filter_In. intros [_ H].
  now apply Nat.eqb_eq in H.
Qed.

(** [scan.link_types] with a function that works link by link: when [f] on
    the gathered entries of a tag is the concatenation of per-link blocks
    [g], the scan returns the blocks in link order. *)
Lemma link_types_per_link {In Y} (f : ascii -> In -> list Y)
    (in_args : list nat -> In) (kout : Kind) (g : nat -> list Y) :
  (forall l, (l < num_links sys)%nat ->
             length (g l) = width kout (typ sys l)) ->
  (forall t, f t (in_args (links_of_type sys t)) =
             flat_map g (links_of_type sys t)) ->
  Scan.link_types sys f in_args kout = flat_map g (seq 0 (num_links sys)).
Proof.
  intros Hw Hf. unfold Scan.link_types. apply flat_map_ext_in.
  intros l Hl. apply in_seq in Hl. cbv zeta. rewrite Hf.
  destruct (filter_rank_nth (fun k => Ascii.eqb (typ sys k) (typ sys l))
              (num_links sys) l O) as [Hr Hn]; [lia | apply Ascii.eqb_refl |].
  cbv zeta in Hr, Hn.
  unfold type_rank.
  rewrite (slice_uniform g _ _ _ O).
  - unfold links_of_type. now rewrite Hn.
  - intros l' Hl'. rewrite Hw by (eapply links_of_type_lt; eauto).
    f_equal. eapply links_of_type_typ; eauto.
  - exact Hr.
Qed.

End LayoutFacts.

(** ** The passive force *)

Lemma map_flat_map {X Y W} (f : Y -> W) (g : X -> list Y) ls :
  map f (flat_map g ls) = flat_map (fun l => map f (g l)) ls.
Proof.
  induction ls as [|l ls IH]; simpl; auto.
  now rewrite map_app, IH.
Qed.

Lemma map2_flat_map {X Y W V} (f : Y -> W -> V) (a : X -> list Y) (b : X -> list W) ls :
  (forall l, In l ls -> length (a l) = length (b l)) ->
  Arr.map2 f (flat_map a ls) (flat_map b ls) =
  flat_map (fun l => Arr.map2 f (a l) (b l)) ls.
Proof.
  induction ls as [|l ls IH]; intros E; simpl; auto.
  rewrite map2_app by (apply E; simpl; auto).
  f_equal. apply IH. intros; apply E; simpl; auto.
Qed.

Section PassiveFacts.
Context {A : Algebra}.
Variable sys : System.
Import Sys.

Lemma gather_map {X Y} (f : X -> Y) k ls xs :
  gather sys k ls (map f xs) = map f (gather sys k ls xs).
Proof.
  unfold gather. rewrite map_flat_map. apply flat_map_ext.
  intros l. apply slice_map.
Qed.

Lemma stiffness_fn_scale c t qs dofs :
  Dynamics.stiffness_fn t (map (Rmult c) qs) dofs =
  map (Rmult c) (Dynamics.stiffness_fn t qs dofs).
Proof.
  unfold Dynamics.stiffness_fn. destruct (in_fb t).
  - rewrite map_map. apply map_ext. intros _. ring.
  - rewrite map2_map_l, map_map2. apply map2_ext. intros; ring.
Qed.

Lemma passive_spring_scale c q :
  Scan.link_types sys (fun t '(qs, dofs) => Dynamics.stiffness_fn t qs dofs)
    (fun ls => (gather sys Q ls (map (Rmult c) q), gather sys D ls (dof sys))) D =
  map (Rmult c)
    (Scan.link_types sys (fun t '(qs, dofs) => Dynamics.stiffness_fn t qs dofs)
       (fun ls => (gather sys Q ls q, gather sys D ls (dof sys))) D).
Proof.
  unfold Scan.link_types. rewrite map_flat_map. apply flat_map_ext.
  intros l. cbv zeta. rewrite gather_map, stiffness_fn_scale. apply slice_map.
Qed.

Lemma passive_damper_scale c (dofs : list DoF) qd :
  Arr.map2 (fun d v => damping d * v) dofs (map (Rmult c) qd) =
  map (Rmult c) (Arr.map2 (fun d v => damping d * v) dofs qd).
Proof.
  rewrite map2_map_r, map_map2. apply map2_ext. intros; ring.
Qed.

Lemma map2_minus_scale c xs ys :
  Arr.map2 Rminus (map (Rmult c) xs) (map (Rmult c) ys) =
  map (Rmult c) (Arr.map2 Rminus xs ys).
Proof.
  rewrite map2_map_l, map2_map_r, map_map2. apply map2_ext. intros; ring.
Qed.

Lemma passive_homogeneous c q qd :
  Dynamics._passive sys (map (Rmult c) q) (map (Rmult c) qd) =
  map (Rmult c) (Dynamics._passive sys q qd).
Proof.
  unfold Dynamics._passive. cbv zeta.
  now rewrite passive_spring_scale, passive_damper_scale, map2_minus_scale.
Qed.

Lemma in_fb_not_free t : in_fb t = false -> is_free t = false.
Proof.
  unfold in_fb, is_free. destruct (Ascii.eqb t "f"); simpl; congruence.
Qed.

Lemma index_decompose k e :
  (e < offset sys k (num_links sys))%nat ->
  exists l a, (l < num_links sys)%nat /\ (a < width k (typ sys l))%nat /\
              e = (offset sys k l + a)%nat.
Proof.
  generalize (Nat.le_refl (num_links sys)).
  generalize (num_links sys) at 1 3 as m.
  induction m as [|m IH]; intros Hm He.
  - unfold offset in He. simpl in He. lia.
  - rewrite offset_S in He by lia.
    destruct (Nat.lt_ge_cases e (offset sys k m)) as [Hlt|Hge].
    + apply IH; lia.
    + exists m, (e - offset sys k m)%nat. repeat split; lia.
Qed.

Section Spring.
Variable q : list R.
Hypothesis Hq : length q = num_q sys.
Hypothesis Hdof : length (dof sys) = num_dofs sys.

Lemma spring_block_length l :
  (l < num_links sys)%nat ->
  length (Dynamics.stiffness_fn (typ sys l)
            (Arr.slice (offset sys Q l) (width Q (typ sys l)) q)
            (Arr.slice (offset sys D l) (width D (typ sys l)) (dof sys)))
  = width D (typ sys l).
Proof.
  intros Hl. unfold Dynamics.stiffness_fn.
  destruct (in_fb (typ sys l)) eqn:E.
  - rewrite length_map. now apply gather_slice_length.
  - rewrite map2_length, !gather_slice_length by auto.
    simpl. rewrite (in_fb_not_free _ E). lia.
Qed.

Lemma passive_spring_blocks :
  Scan.link_types sys (fun t '(qs, dofs) => Dynamics.stiffness_fn t qs dofs)
    (fun ls => (gather sys Q ls q, gather sys D ls (dof sys))) D =
  flat_map
    (fun l => Dynamics.stiffness_fn (typ sys l)
                (Arr.slice (offset sys Q l) (width Q (typ sys l)) q)
                (Arr.slice (offset sys D l) (width D (typ sys l)) (dof sys)))
    (seq 0 (num_links sys)).
Proof.
  apply link_types_per_link.
  - apply spring_block_length.
  - intros t. unfold Dynamics.stiffness_fn, gather.
    destruct (in_fb t) eqn:E.
    + rewrite map_flat_map. apply flat_map_ext_in. intros l Hl.
      now rewrite (links_of_type_typ _ _ _ Hl), E.
    + rewrite map2_flat_map.
      * apply flat_map_ext_in. intros l Hl.
        now rewrite (links_of_type_typ _ _ _ Hl), E.
      * intros l Hl. pose proof (links_of_type_lt _ _ _ Hl).
        rewrite !gather_slice_length by auto.
        rewrite (links_of_type_typ _ _ _ Hl). simpl.
        now rewrite (in_fb_not_free _ E).
Qed.

Lemma passive_length qd :
  length qd = num_dofs sys -> length (Dynamics._passive sys q qd) = num_dofs sys.
Proof.
  intros Hqd. unfold Dynamics._passive. cbv zeta.
  rewrite passive_spring_blocks, !map2_length, Hdof, Hqd.
  rewrite (blocks_length sys D) by (auto using spring_block_length).
  unfold num_dofs. lia.
Qed.

Lemma passive_entry qd l a :
  length qd = num_dofs sys ->
  (l < num_links sys)%nat -> (a < width D (typ sys l))%nat ->
  let e := (offset sys D l + a)%nat in
  nth e (Dynamics._passive sys q qd) 0 =
  (if in_fb (typ sys l) then 0
   else - nth (offset sys Q l + a) q 0 * stiffness (dof_at sys e))
  - damping (dof_at sys e) * nth e qd 0.
Proof.
  intros Hqd Hl Ha e.
  assert (He : (e < num_dofs sys)%nat).
  { pose proof (offset_fits sys D l Hl). unfold num_dofs, e. lia. }
  unfold Dynamics._passive. cbv zeta.
  rewrite passive_spring_blocks.
  rewrite (map2_nth _ _ _ _ 0 0).
  2:{ rewrite (blocks_length sys D) by (auto using spring_block_length). exact He. }
  2:{ rewrite map2_length. lia. }
  rewrite (map2_nth _ _ _ _ no_dof 0) by lia.
  f_equal.
  unfold e. rewrite <- (slice_nth _ (width D (typ sys l))) by exact Ha.
  rewrite (blocks_slice sys D) by (auto using spring_block_length).
  unfold Dynamics.stiffness_fn. destruct (in_fb (typ sys l)) eqn:E.
  - rewrite (nth_map_in _ _ _ 0 no_dof); auto.
    rewrite gather_slice_length by auto. exact Ha.
  - rewrite (map2_nth _ _ _ _ 0 no_dof).
    + rewrite !slice_nth; auto.
      simpl. rewrite (in_fb_not_free _ E).
      simpl in Ha. now rewrite (in_fb_not_free _ E) in Ha.
    + rewrite gather_slice_length by auto. simpl. rewrite (in_fb_not_free _ E).
      simpl in Ha. now rewrite (in_fb_not_free _ E) in Ha.
    + rewrite gather_slice_length by auto. exact Ha.
Qed.

End Spring.
End PassiveFacts.

(** ** Scatter-add *)

Section IndexSumFacts.
Context {Y : Type} (add : Y -> Y -> Y).

Lemma at_add_nat buf r v :
  Scan.at_add add buf (Z.of_nat r) v = Scan.add_at add r v buf.
Proof.
  unfold Scan.at_add. destruct (Z.leb_spec 0 (Z.of_nat r)); try lia.
  now rewrite Nat2Z.id.
Qed.

Lemma add_at_middle pre c rest v :
  Scan.add_at add (length pre) v (pre ++ c :: rest) = pre ++ add c v :: rest.
Proof.
  induction pre as [|p pre IH]; simpl; auto. now rewrite IH.
Qed.

Lemma add_at_length p v buf : length (Scan.add_at add p v buf) = length buf.
Proof.
  revert p; induction buf as [|b buf IH]; intros [|p]; simpl; auto.
Qed.

Lemma at_add_length buf k v : length (Scan.at_add add buf k v) = length buf.
Proof.
  unfold Scan.at_add.
  destruct (0 <=? k)%Z; [apply add_at_length|].
  destruct (_ <=? k)%Z; [apply add_at_length|reflexivity].
Qed.

Lemma index_sum_length buf idx vals :
  length (Scan.index_sum add buf idx vals) = length buf.
Proof.
  revert buf vals; induction idx as [|k idx IH]; intros buf [|v vals]; simpl; auto.
  now rewrite IH, at_add_length.
Qed.

Lemma index_sum_app buf i1 i2 v1 v2 :
  length i1 = length v1 ->
  Scan.index_sum add buf (i1 ++ i2) (v1 ++ v2) =
  Scan.index_sum add (Scan.index_sum add buf i1 v1) i2 v2.
Proof.
  revert buf v1; induction i1 as [|k i1 IH]; intros buf [|v v1] H; simpl in *;
    try discriminate; auto.
Qed.

(** All the contributions of one block land in one slot, in order. *)
Lemma index_sum_repeat pre c rest b :
  Scan.index_sum add (pre ++ c :: rest)
                 (repeat (Z.of_nat (length pre)) (length b)) b =
  pre ++ fold_left add b c :: rest.
Proof.
  revert c; induction b as [|v b IH]; intros c; simpl; auto.
  now rewrite at_add_nat, add_at_middle, IH.
Qed.

(** Scatter-add of a list of blocks, the block of [l] going to slot
    [rk l]: slot by slot, the carry plus the block's entries. *)
Lemma index_sum_blocks (rk : nat -> nat) (block : nat -> list Y) ls :
  forall pre carry,
  length carry = length ls ->
  (forall r, (r < length ls)%nat -> rk (nth r ls O) = (length pre + r)%nat) ->
  Scan.index_sum add (pre ++ carry)
    (flat_map (fun l => repeat (Z.of_nat (rk l)) (length (block l))) ls)
    (flat_map block ls) =
  pre ++ Arr.map2 (fun c l => fold_left add (block l) c) carry ls.
Proof.
  induction ls as [|l ls IH]; intros pre [|c carry] Hlen Hrk; simpl in *;
    try discriminate; auto.
  rewrite index_sum_app by apply repeat_length.
  rewrite (Hrk O) by lia. rewrite Nat.add_0_r, index_sum_repeat.
  change (pre ++ fold_left add (block l) c :: carry)
    with (pre ++ [fold_left add (block l) c] ++ carry).
  rewrite app_assoc, IH.
  - now rewrite <- app_assoc.
  - lia.
  - intros r Hr. rewrite (Hrk (S r)) by lia. rewrite length_app. simpl. lia.
Qed.

End IndexSumFacts.

(** ** The kinematic tree *)

Section TreeFacts.
Variable sys : System.
Import Sys.
Hypothesis Htree : rooted_tree sys = true.

Lemma tree_nonempty : (1 <= num_links sys)%nat.
Proof.
  unfold rooted_tree in Htree. apply andb_prop in Htree as [H _].
  now apply Nat.leb_le.
Qed.

Lemma tree_parent l :
  (l < num_links sys)%nat ->
  (parent sys l < Z.of_nat l)%Z /\
  (l = O -> parent sys l = (-1)%Z) /\ (l <> O -> (0 <= parent sys l)%Z).
Proof.
  intros Hl. unfold rooted_tree in Htree. apply andb_prop in Htree as [_ H].
  rewrite forallb_forall in H.
  specialize (H l ltac:(apply in_seq; lia)).
  apply andb_prop in H as [H1 H2]. apply Z.ltb_lt in H2.
  split; [exact H2|]. destruct (Nat.eqb_spec l O).
  - apply Z.eqb_eq in H1. split; congruence.
  - apply Z.leb_le in H1. split; congruence.
Qed.

Lemma parent_lt l :
  (l < num_links sys)%nat -> l <> O ->
  (Z.to_nat (parent sys l) < l)%nat.
Proof.
  intros Hl Hn. destruct (tree_parent l Hl) as (H1 & _ & H3).
  specialize (H3 Hn). lia.
Qed.

Lemma depth_fn_stable l :
  (l < num_links sys)%nat ->
  forall f1 f2, (l < f1)%nat -> (l < f2)%nat ->
  depth_fn sys f1 l = depth_fn sys f2 l.
Proof.
  induction l as [l IH] using lt_wf_ind. intros Hl [|f1] [|f2] H1 H2; try lia.
  simpl. destruct (Z.ltb_spec (parent sys l) 0); auto.
  f_equal. destruct (Nat.eq_dec l O) as [->|Hn].
  - destruct (tree_parent O Hl) as (_ & H3 & _). specialize (H3 eq_refl). lia.
  - pose proof (parent_lt l Hl Hn). apply IH; lia.
Qed.

Lemma depth_fn_S f l :
  depth_fn sys (S f) l =
  if (parent sys l <? 0)%Z then O else S (depth_fn sys f (Z.to_nat (parent sys l))).
Proof. reflexivity. Qed.

Lemma depth_root : depth sys O = O.
Proof.
  pose proof tree_nonempty as Hn. unfold depth.
  destruct (num_links sys) as [|n] eqn:E; try lia. simpl.
  destruct (tree_parent O ltac:(lia)) as (_ & H & _).
  rewrite (H eq_refl). reflexivity.
Qed.

Lemma depth_child l :
  (l < num_links sys)%nat -> l <> O ->
  depth sys l = S (depth sys (Z.to_nat (parent sys l))).
Proof.
  intros Hl Hn. unfold depth.
  destruct (tree_parent l Hl) as (_ & _ & H). specialize (H Hn).
  pose proof (parent_lt l Hl Hn).
  destruct (num_links sys) as [|n] eqn:E; try lia.
  rewrite (depth_fn_S n l).
  destruct (Z.ltb_spec (parent sys l) 0); try lia.
  f_equal. apply depth_fn_stable; lia.
Qed.

Lemma filter_none {X} (P : X -> bool) xs :
  (forall x, In x xs -> P x = false) -> filter P xs = [].
Proof.
  induction xs as [|x xs IH]; intros H; simpl; auto.
  rewrite H by (simpl; auto). apply IH. intros; apply H; simpl; auto.
Qed.

Lemma level_root : level sys O = [O].
Proof.
  pose proof tree_nonempty as Hn. unfold level.
  destruct (num_links sys) as [|n] eqn:E; try lia.
  simpl. rewrite depth_root. simpl. f_equal.
  apply filter_none. intros l Hl. apply in_seq in Hl.
  rewrite depth_child by lia. reflexivity.
Qed.

Lemma level_rank_lt l :
  (l < num_links sys)%nat ->
  (level_rank sys l < length (level sys (depth sys l)))%nat /\
  nth (level_rank sys l) (level sys (depth sys l)) O = l.
Proof.
  intros Hl.
  apply (filter_rank_nth (fun k => depth sys k =? depth sys l)%nat); auto.
  apply Nat.eqb_refl.
Qed.

Lemma level_nth_rank d r :
  (r < length (level sys d))%nat -> level_rank sys (nth r (level sys d) O) = r.
Proof.
  intros Hr.
  destruct (filter_nth_rank (fun k => depth sys k =? d)%nat _ r O Hr)
    as (H1 & H2 & H3).
  cbv zeta in *. apply Nat.eqb_eq in H2.
  unfold level_rank, level. rewrite H2. exact H3.
Qed.

End TreeFacts.

(** ** The forward scan of a scatter-add step *)

Lemma map2_map_same {X Y W} (f : Y -> X -> W) (h : X -> Y) ls :
  Arr.map2 f (map h ls) ls = map (fun l => f (h l) l) ls.
Proof.
  induction ls as [|l ls IH]; simpl; auto. now rewrite IH.
Qed.

Lemma wrap_small n r : (r < n)%nat -> Arr.wrap n (Z.of_nat r) = r.
Proof.
  intros H. unfold Arr.wrap. rewrite Z.mod_small by lia. apply Nat2Z.id.
Qed.

Section ForwardScan.
Context {A : Algebra}.
Variable sys : System.
Import Sys.
Hypothesis Htree : rooted_tree sys = true.
Context {In Y : Type}.
Variables (dY seed : Y) (add : Y -> Y -> Y).
Variable f : option (list Y) -> In -> list Y.
Variable in_args : list nat -> In.
Variable block : nat -> list Y.
Hypothesis block_width :
  forall l, (l < num_links sys)%nat -> length (block l) = width D (typ sys l).
Hypothesis f_scatter :
  forall c ls, (forall l, List.In l ls -> (l < num_links sys)%nat) ->
    f c (in_args ls) =
    Scan.index_sum add (match c with None => [seed] | Some c' => c' end)
                   (gather sys D ls (dof_link_depth sys)) (flat_map block ls).

Lemma gather_dof_link_depth ls :
  (forall l, List.In l ls -> (l < num_links sys)%nat) ->
  gather sys D ls (dof_link_depth sys) =
  flat_map (fun l => repeat (Z.of_nat (level_rank sys l)) (length (block l))) ls.
Proof.
  intros Hls. unfold dof_link_depth.
  rewrite (gather_blocks sys D) by (auto; intros; apply repeat_length).
  apply flat_map_ext_in. intros l Hl. now rewrite block_width by auto.
Qed.

Lemma level_scatter d carry :
  length carry = length (level sys d) ->
  f (Some carry) (in_args (level sys d)) =
  Arr.map2 (fun c l => fold_left add (block l) c) carry (level sys d).
Proof.
  intros Hc. rewrite f_scatter by apply level_lt.
  rewrite gather_dof_link_depth by apply level_lt.
  apply (index_sum_blocks add (level_rank sys) block (level sys d) []); auto.
  intros r Hr. now apply level_nth_rank.
Qed.

Lemma forward_level_O : Scan.forward_level sys dY f in_args O = [fold_left add (block O) seed].
Proof.
  simpl. rewrite f_scatter by apply level_lt.
  rewrite gather_dof_link_depth by apply level_lt.
  rewrite (level_root sys Htree).
  apply (index_sum_blocks add (level_rank sys) block [O] [] [seed]); auto.
  intros r Hr. simpl in Hr. assert (r = O) by lia. subst r. reflexivity.
Qed.

Lemma forward_level_S d :
  Scan.forward_level sys dY f in_args (S d) =
  Arr.map2 (fun c l => fold_left add (block l) c)
           (Arr.take dY (Scan.forward_level sys dY f in_args d) (Scan.parent_rows sys (S d)))
           (level sys (S d)).
Proof.
  simpl. apply level_scatter.
  unfold Arr.take, Scan.parent_rows. now rewrite !length_map.
Qed.

Lemma forward_level_length d : length (Scan.forward_level sys dY f in_args d) = length (level sys d).
Proof.
  destruct d as [|d].
  - now rewrite forward_level_O, (level_root sys Htree).
  - rewrite forward_level_S, map2_length.
    unfold Arr.take, Scan.parent_rows. rewrite !length_map. lia.
Qed.

Lemma tree_length : length (Scan.tree sys dY f in_args) = num_links sys.
Proof. unfold Scan.tree. now rewrite length_map, length_seq. Qed.

Lemma tree_nth l :
  (l < num_links sys)%nat ->
  nth l (Scan.tree sys dY f in_args) dY =
  nth (level_rank sys l) (Scan.forward_level sys dY f in_args (depth sys l)) dY.
Proof.
  intros Hl. unfold Scan.tree.
  rewrite (nth_map_in _ _ _ dY O) by (now rewrite length_seq).
  now rewrite seq_nth.
Qed.

(** The value of a link is the value of its parent (the seed at the root)
    plus, in order, the entries of its own block. *)
Lemma tree_entry l :
  (l < num_links sys)%nat ->
  nth l (Scan.tree sys dY f in_args) dY =
  fold_left add (block l)
    (if (l =? 0)%nat then seed
     else nth (Z.to_nat (parent sys l)) (Scan.tree sys dY f in_args) dY).
Proof.
  intros Hl. rewrite tree_nth by exact Hl.
  destruct (Nat.eqb_spec l O) as [->|Hn].
  - rewrite (depth_root sys Htree), forward_level_O.
    unfold level_rank. reflexivity.
  - pose proof (parent_lt sys Htree l Hl Hn) as Hp.
    rewrite tree_nth by lia.
    rewrite (depth_child sys Htree l Hl Hn), forward_level_S.
    destruct (level_rank_lt sys l Hl) as [Hr Hnth].
    rewrite (depth_child sys Htree l Hl Hn) in Hr, Hnth.
    rewrite (map2_nth _ _ _ _ dY O).
    + rewrite Hnth. f_equal.
      unfold Arr.take, Scan.parent_rows. rewrite map_map.
      rewrite (nth_map_in _ _ _ dY O) by exact Hr.
      rewrite Hnth, wrap_small; auto.
      rewrite forward_level_length. apply level_rank_lt. lia.
    + unfold Arr.take, Scan.parent_rows. now rewrite !length_map.
    + exact Hr.
Qed.

End ForwardScan.

(** ** Slices by index *)

Lemma slice_as_map {X} off w (xs : list X) d :
  (off + w <= length xs)%nat ->
  Arr.slice off w xs = map (fun e => nth e xs d) (seq off w).
Proof.
  intros H. apply (nth_ext _ _ d d).
  - rewrite slice_length, length_map, length_seq; auto.
  - rewrite slice_length by auto. intros a Ha.
    rewrite slice_nth by auto.
    rewrite (nth_map_in _ _ _ d O) by (now rewrite length_seq).
    now rewrite seq_nth.
Qed.

Lemma map2_as_map {X Y W} (f : X -> Y -> W) off w xs ys dx dy :
  (off + w <= length xs)%nat -> (off + w <= length ys)%nat ->
  Arr.map2 f (Arr.slice off w xs) (Arr.slice off w ys) =
  map (fun e => f (nth e xs dx) (nth e ys dy)) (seq off w).
Proof.
  intros Hx Hy.
  rewrite (slice_as_map off w xs dx), (slice_as_map off w ys dy) by auto.
  rewrite map2_map_l, map2_map_r.
  generalize (seq off w) as es. induction es as [|e es IH]; simpl; auto.
  now rewrite IH.
Qed.

(** ** The acceleration scan of [inverse] *)

Section AccelerationScan.
Context {A : Algebra}.
Variable sys : System.
Import Sys.
Variables (qd : list R) (cdofd : list Motion).
Hypothesis Hqd : length qd = num_dofs sys.
Hypothesis Hcdofd : length cdofd = num_dofs sys.

Lemma cdd_fn_scatter c ls :
  (forall l, In l ls -> (l < num_links sys)%nat) ->
  Dynamics.cdd_fn sys c (gather sys D ls cdofd) (gather sys D ls qd)
                  (gather sys D ls (dof_link_depth sys)) =
  Scan.index_sum Motion_.add
    (match c with
     | None => [Motion_.create_vel (V3.neg (gravity sys))]
     | Some c' => c'
     end)
    (gather sys D ls (dof_link_depth sys))
    (flat_map
       (fun l => map (fun e => Motion_.scale (nth e cdofd Motion_.zero) (nth e qd 0))
                     (seq (offset sys D l) (width D (typ sys l))))
       ls).
Proof.
  intros Hls. unfold Dynamics.cdd_fn. f_equal.
  unfold gather. rewrite map2_flat_map.
  - apply flat_map_ext_in. intros l Hl. specialize (Hls l Hl).
    pose proof (offset_fits sys D l Hls). unfold num_dofs in *.
    apply map2_as_map; lia.
  - intros l Hl. specialize (Hls l Hl).
    rewrite !gather_slice_length; auto.
Qed.

End AccelerationScan.

(** ** Parent indices and the padding row *)

Lemma pad_nth {X} (xs : list X) z d k :
  (-1 <= k < Z.of_nat (length xs))%Z ->
  nth (Arr.wrap (length (xs ++ [z])) k) (xs ++ [z]) d =
  if (k =? -1)%Z then z else nth (Z.to_nat k) xs d.
Proof.
  intros Hk. unfold Arr.wrap. rewrite length_app. simpl length.
  destruct (Z.eqb_spec k (-1)) as [->|Hne].
  - replace (-1 mod Z.of_nat (length xs + 1))%Z with (Z.of_nat (length xs)).
    + rewrite Nat2Z.id. apply nth_middle.
    + apply Z.mod_unique with (q := (-1)%Z); lia.
  - rewrite Z.mod_small by lia. apply app_nth1. lia.
Qed.

Section PidxFacts.
Variable sys : System.
Import Sys.
Hypothesis Hparents : length (link_parents sys) = num_links sys.

Lemma pidx_length : length (Dynamics.pidx sys) = num_links sys.
Proof.
  unfold Dynamics.pidx. rewrite length_map, !length_combine, length_seq, Hparents.
  unfold num_links. lia.
Qed.

Lemma pidx_nth l :
  (l < num_links sys)%nat ->
  nth l (Dynamics.pidx sys) 0%Z =
  if is_free (typ sys l) then Z.of_nat l else parent sys l.
Proof.
  intros Hl. unfold Dynamics.pidx.
  rewrite (nth_map_in _ _ _ 0%Z (O, ("f"%char, (-1)%Z))).
  - rewrite !combine_nth, seq_nth; auto.
    rewrite length_seq, length_combine, Hparents. unfold num_links. lia.
  - rewrite !length_combine, length_seq, Hparents. unfold num_links in *. lia.
Qed.

(** Row [l] of [xs.concatenate(pad).take(pidx)]. *)
Lemma take_pidx_nth {X} (xs : list X) z l :
  length xs = num_links sys ->
  (l < num_links sys)%nat ->
  (-1 <= parent sys l < Z.of_nat (num_links sys))%Z ->
  nth l (Arr.take z (xs ++ [z]) (Dynamics.pidx sys)) z =
  if is_free (typ sys l) then nth l xs z
  else if (parent sys l =? -1)%Z then z
       else nth (Z.to_nat (parent sys l)) xs z.
Proof.
  intros Hxs Hl Hp. unfold Arr.take.
  rewrite (nth_map_in _ _ _ z 0%Z) by (now rewrite pidx_length).
  rewrite pidx_nth by exact Hl.
  destruct (is_free (typ sys l)).
  - rewrite pad_nth by lia.
    destruct (Z.eqb_spec (Z.of_nat l) (-1)); try lia. now rewrite Nat2Z.id.
  - apply pad_nth. lia.
Qed.

End PidxFacts.

(** ** The inertia in the centre-of-mass frame *)

Section CinrFacts.
Context {A : Algebra}.
Variable sys : System.
Variable x : list Transform.
Hypothesis Hx : length x = length (link sys).


End CinrFacts.

(** ** Lengths of the outputs of the scans *)

Section LengthFacts.
Context {A : Algebra}.
Variable sys : System.
Import Sys.

Lemma dof_link_length : length (dof_link sys) = num_dofs sys.
Proof.
  unfold dof_link, num_dofs.
  apply (blocks_length sys D); auto. intros; apply repeat_length.
Qed.

Lemma dof_link_nth l a :
  (l < num_links sys)%nat -> (a < width D (typ sys l))%nat ->
  nth (offset sys D l + a) (dof_link sys) 0%Z = Z.of_nat l.
Proof.
  intros Hl Ha. rewrite <- (slice_nth _ (width D (typ sys l))) by exact Ha.
  unfold dof_link.
  rewrite (blocks_slice sys D) by (auto; intros; apply repeat_length).
  now rewrite nth_repeat_lt.
Qed.

Lemma gather_length_type {X} k t (xs : list X) :
  length xs = offset sys k (num_links sys) ->
  length (gather sys k (links_of_type sys t) xs) =
  (length (links_of_type sys t) * width k t)%nat.
Proof.
  intros Hxs. unfold gather. apply flat_map_length_const.
  intros l Hl. rewrite gather_slice_length; auto.
  - f_equal. eapply links_of_type_typ; eauto.
  - eapply links_of_type_lt; eauto.
Qed.

(** The output of [scan.link_types] has one block per link when [f]
    returns as many entries as the links of each tag need. *)
Lemma link_types_slice {In Y} (f : ascii -> In -> list Y)
    (in_args : list nat -> In) (kout : Kind) l :
  (forall t, length (f t (in_args (links_of_type sys t))) =
             (length (links_of_type sys t) * width kout t)%nat) ->
  (l < num_links sys)%nat ->
  Arr.slice (offset sys kout l) (width kout (typ sys l))
            (Scan.link_types sys f in_args kout) =
  Arr.slice (type_rank sys l * width kout (typ sys l)) (width kout (typ sys l))
            (f (typ sys l) (in_args (links_of_type sys (typ sys l)))).
Proof.
  intros Hf Hl. unfold Scan.link_types.
  rewrite (blocks_slice sys kout); auto.
  intros k Hk. cbv zeta. apply slice_length. rewrite Hf.
  destruct (filter_rank_nth (fun k' => Ascii.eqb (typ sys k') (typ sys k))
              (num_links sys) k O) as [Hr _]; [lia | apply Ascii.eqb_refl |].
  cbv zeta in Hr. unfold type_rank, links_of_type.
  set (r := length (filter _ (seq 0 k))) in *.
  set (m := length (filter _ (seq 0 (num_links sys)))) in *.
  nia.
Qed.

Lemma link_types_length {In Y} (f : ascii -> In -> list Y)
    (in_args : list nat -> In) (kout : Kind) :
  (forall t, length (f t (in_args (links_of_type sys t))) =
             (length (links_of_type sys t) * width kout t)%nat) ->
  length (Scan.link_types sys f in_args kout) = offset sys kout (num_links sys).
Proof.
  intros Hf. unfold Scan.link_types.
  apply (blocks_length sys kout); auto.
  intros k Hk. cbv zeta. apply slice_length. rewrite Hf.
  destruct (filter_rank_nth (fun k' => Ascii.eqb (typ sys k') (typ sys k))
              (num_links sys) k O) as [Hr _]; [lia | apply Ascii.eqb_refl |].
  cbv zeta in Hr. unfold type_rank, links_of_type.
  set (r := length (filter _ (seq 0 k))) in *.
  set (m := length (filter _ (seq 0 (num_links sys)))) in *.
  nia.
Qed.

Lemma column_stack_length {X} (d : X) n cols :
  length (Arr.column_stack d n cols) = (n * length cols)%nat.
Proof.
  unfold Arr.column_stack.
  rewrite (flat_map_length_const _ _ (length cols)).
  - now rewrite length_seq.
  - intros; apply length_map.
Qed.

Lemma cdof_loop_length j_stack jd_stack ks st :
  length (snd (fold_left (Dynamics.cdof_step j_stack jd_stack) ks st)) =
  (length (snd st) + length ks)%nat.
Proof.
  revert st; induction ks as [|k ks IH]; intros [jt jds]; simpl.
  - lia.
  - rewrite IH. simpl. rewrite length_app. simpl. lia.
Qed.

Lemma cdof_fn_length t qs mo m :
  length mo = (m * width D t)%nat ->
  length (Dynamics.cdof_fn t qs mo) = (m * width D t)%nat.
Proof.
  intros Hmo. unfold Dynamics.cdof_fn. simpl in *.
  destruct (is_free t); auto.
  match goal with
  | |- context [fold_left ?f ?ks ?st] =>
      pose proof (cdof_loop_length
                    (Arr.reshape (length mo / int t) (int t)
                       (Arr.map2 (fun m0 qk =>
                          mkTransform (V3.mul (vel m0) qk)
                                      (Dynamics.rot_fn (ang m0) qk)) mo qs))
                    (Arr.reshape (length mo / int t) (int t) mo) ks st) as Hlen;
      destruct (fold_left f ks st) as [jt jds]
  end.
  simpl in Hlen. rewrite length_seq in Hlen.
  rewrite column_stack_length, Hlen, Hmo.
  destruct (int t) as [|w]; [lia|].
  now rewrite Nat.div_mul by lia.
Qed.

Section CdofLength.
Variables (q qd : list R) (x : list Transform).
Hypothesis Hdof : length (dof sys) = num_dofs sys.

Lemma cdof_local_length : length (Dynamics.cdof_local sys q) = num_dofs sys.
Proof.
  unfold Dynamics.cdof_local. apply link_types_length.
  intros t. apply cdof_fn_length. apply gather_length_type.
  now rewrite length_map.
Qed.

Lemma cdof_length : length (Dynamics.cdof sys q x) = num_dofs sys.
Proof.
  unfold Dynamics.cdof, Dynamics.cdof_rotated.
  rewrite !map2_length. unfold Arr.take.
  rewrite !length_map, dof_link_length, cdof_local_length. lia.
Qed.

Lemma cdof_qd_length :
  length qd = num_dofs sys -> length (Dynamics.cdof_qd sys q qd x) = num_dofs sys.
Proof.
  intros Hqd. unfold Dynamics.cdof_qd. rewrite map2_length, cdof_length. lia.
Qed.

End CdofLength.

End LengthFacts.

(** ** The velocity scan of [transform_com] *)

Section VelocityScan.
Context {A : Algebra}.
Variable sys : System.
Import Sys.
Variables (q qd : list R) (x : list Transform).
Hypothesis Htree : rooted_tree sys = true.
Hypothesis Hdof : length (dof sys) = num_dofs sys.
Hypothesis Hqd : length qd = num_dofs sys.

(** The velocity of a link is that of its parent (zero at the root) plus
    the velocity-weighted subspace vectors of its own dofs. *)
Lemma cd_entry l :
  (l < num_links sys)%nat ->
  nth l (Dynamics.cd sys q qd x) Motion_.zero =
  fold_left Motion_.add
    (Arr.slice (offset sys D l) (width D (typ sys l)) (Dynamics.cdof_qd sys q qd x))
    (if (l =? 0)%nat then Motion_.zero
     else nth (Z.to_nat (parent sys l)) (Dynamics.cd sys q qd x) Motion_.zero).
Proof.
  intros Hl. unfold Dynamics.cd.
  apply (tree_entry sys Htree Motion_.zero Motion_.zero Motion_.add)
    with (block := fun k =>
            Arr.slice (offset sys D k) (width D (typ sys k))
                      (Dynamics.cdof_qd sys q qd x));
    auto.
  intros k Hk. apply gather_slice_length; auto.
  now apply cdof_qd_length.
Qed.

End VelocityScan.

(** ** The generalized force of [inverse] and the sum of [forward] *)

Section InverseFacts.
Context {A : Algebra}.
Variable sys : System.
Import Sys.
Variables (qd : list R) (cinr : list Inertia) (cd cdof cdofd : list Motion).
Hypothesis Hcdof : length cdof = num_dofs sys.

Lemma cfrc_length : length (Dynamics.cfrc sys qd cinr cd cdofd) = num_links sys.
Proof.
  unfold Dynamics.cfrc, Scan.tree_reverse. now rewrite length_map, length_seq.
Qed.

Lemma inverse_length :
  length (Dynamics.inverse sys qd cinr cd cdof cdofd) = num_dofs sys.
Proof.
  unfold Dynamics.inverse, Arr.take.
  rewrite map2_length, length_map, dof_link_length. lia.
Qed.

Lemma dof_link_range e :
  (e < num_dofs sys)%nat ->
  exists l, nth e (dof_link sys) 0%Z = Z.of_nat l /\ (l < num_links sys)%nat.
Proof.
  intros He. destruct (index_decompose sys D e He) as (l & a & Hl & Ha & ->).
  exists l. split; auto. now apply dof_link_nth.
Qed.

Lemma inverse_nth e :
  (e < num_dofs sys)%nat ->
  nth e (Dynamics.inverse sys qd cinr cd cdof cdofd) 0 =
  Motion_.dot (nth e cdof Motion_.zero)
              (nth (Z.to_nat (nth e (dof_link sys) 0%Z))
                   (Dynamics.cfrc sys qd cinr cd cdofd) Force_.zero).
Proof.
  intros He. unfold Dynamics.inverse.
  rewrite (map2_nth _ _ _ _ Motion_.zero Force_.zero).
  - f_equal. unfold Arr.take.
    rewrite (nth_map_in _ _ _ Force_.zero 0%Z) by (now rewrite dof_link_length).
    destruct (dof_link_range e He) as (l & -> & Hl).
    rewrite wrap_small by (now rewrite cfrc_length).
    now rewrite Nat2Z.id.
  - lia.
  - unfold Arr.take. now rewrite length_map, dof_link_length.
Qed.

End InverseFacts.

(** ** The rate of the motion subspace *)

Lemma flat_map_singleton {X Y} (h : X -> Y) ls : flat_map (fun l => [h l]) ls = map h ls.
Proof. induction ls as [|l ls IH]; simpl; congruence. Qed.

Lemma map_nth_seq {X Y} (h : X -> Y) ls d :
  map (fun k => h (nth k ls d)) (seq 0 (length ls)) = map h ls.
Proof.
  induction ls as [|l ls IH]; simpl; auto.
  f_equal. rewrite <- seq_shift, map_map. exact IH.
Qed.

Lemma flat_map_nth_seq {X Y} (h : X -> list Y) ls d :
  flat_map (fun k => h (nth k ls d)) (seq 0 (length ls)) = flat_map h ls.
Proof.
  rewrite !flat_map_concat_map. f_equal. apply map_nth_seq.
Qed.

Lemma map2_map_map {X Y W} (f : Y -> W -> X) (g : nat -> Y) (h : nat -> W) ls :
  Arr.map2 f (map g ls) (map h ls) = map (fun l => f (g l) (h l)) ls.
Proof. induction ls as [|l ls IH]; simpl; congruence. Qed.

Lemma map2_fst {X Y} (xs : list X) (ys : list Y) :
  length xs = length ys -> Arr.map2 (fun b _ => b) xs ys = xs.
Proof.
  revert ys; induction xs as [|x xs IH]; intros [|y ys] H; simpl in *;
    try discriminate; auto.
  f_equal. apply IH. lia.
Qed.

Lemma reshape_blocks {X} (g : nat -> list X) ls w :
  (forall l, In l ls -> length (g l) = w) ->
  Arr.reshape (length ls) w (flat_map g ls) = map g ls.
Proof.
  intros Hg. unfold Arr.reshape.
  rewrite <- (map_nth_seq g ls O). apply map_ext_in.
  intros k Hk. apply in_seq in Hk. apply slice_uniform; auto. lia.
Qed.

Section RunningSum.

(** One more column added to the running sums. *)
Lemma running_sum_step m (cdl : list Motion) (rows : list (list Motion)) :
  (forall r, In r rows -> (m < length r)%nat) ->
  Arr.map2 Motion_.add
    (Arr.map2 (fun b r => fold_left Motion_.add (firstn m r) b) cdl rows)
    (Arr.column Motion_.zero m rows) =
  Arr.map2 (fun b r => fold_left Motion_.add (firstn (S m) r) b) cdl rows.
Proof.
  unfold Arr.column.
  revert cdl; induction rows as [|r rows IH]; intros [|b cdl] Hr;
    cbn [Arr.map2 map]; auto.
  f_equal.
  - rewrite (firstn_S_nth r m Motion_.zero) by (apply Hr; simpl; auto).
    now rewrite fold_left_app.
  - apply IH. intros; apply Hr; simpl; auto.
Qed.

Lemma cds_loop_spec m cdl rows :
  length cdl = length rows ->
  (forall r, In r rows -> (m <= length r)%nat) ->
  fold_left
    (fun cds k =>
       cds ++ [Arr.map2 Motion_.add (last cds []) (Arr.column Motion_.zero k rows)])
    (seq 0 m) [cdl] =
  map (fun k => Arr.map2 (fun b r => fold_left Motion_.add (firstn k r) b) cdl rows)
      (seq 0 (S m)).
Proof.
  intros Hlen. induction m as [|m IH]; intros Hr.
  - simpl. now rewrite map2_fst.
  - rewrite seq_S, fold_left_app, IH by (intros r Hin; specialize (Hr r Hin); lia).
    cbn [fold_left Nat.add].
    rewrite (seq_S (S m)), map_app. cbn [map Nat.add]. do 2 f_equal.
    rewrite seq_S, map_app. cbn [map Nat.add]. rewrite last_last.
    apply running_sum_step. intros r Hin. specialize (Hr r Hin). lia.
Qed.

Lemma column_stack_blocks (phi : nat -> Motion -> list Motion -> Motion)
    (base : nat -> Motion) (row : nat -> list Motion) ls ks :
  Arr.column_stack Motion_.zero (length ls)
    (map (fun k => Arr.map2 (phi k) (map base ls) (map row ls)) ks) =
  flat_map (fun l => map (fun k => phi k (base l) (row l)) ks) ls.
Proof.
  unfold Arr.column_stack.
  rewrite <- (flat_map_nth_seq
                (fun l => map (fun k => phi k (base l) (row l)) ks) ls O).
  apply flat_map_ext_in. intros r Hr. apply in_seq in Hr.
  rewrite map_map. apply map_ext. intros k.
  rewrite map2_map_map.
  now rewrite (nth_map_in _ _ _ Motion_.zero O) by lia.
Qed.

End RunningSum.

Section CdofdFacts.
Context {A : Algebra}.
Variable sys : System.
Import Sys.

Lemma offset_L l : (l <= num_links sys)%nat -> offset sys L l = l.
Proof.
  induction l as [|l IH]; intros Hl; [reflexivity|].
  rewrite offset_S, IH by lia. simpl. lia.
Qed.

Lemma gather_L {X} ls (xs : list X) d :
  (forall l, In l ls -> (l < num_links sys)%nat) ->
  length xs = num_links sys ->
  gather sys L ls xs = map (fun l => nth l xs d) ls.
Proof.
  intros Hls Hxs. unfold gather. rewrite <- flat_map_singleton.
  apply flat_map_ext_in. intros l Hl. specialize (Hls l Hl).
  rewrite offset_L by lia. cbn [width].
  now rewrite (slice_as_map l 1 xs d) by lia.
Qed.

Lemma cdofd_fn_stacked t ls (base : nat -> Motion) (fblk qblk : nat -> list Motion) :
  is_free t = false -> (1 <= int t)%nat ->
  (forall l, In l ls -> length (fblk l) = int t) ->
  (forall l, In l ls -> length (qblk l) = int t) ->
  Dynamics.cdofd_fn t (map base ls) (flat_map fblk ls) (flat_map qblk ls) =
  flat_map
    (fun l =>
       Arr.map2 Motion_.cross
         (map (fun k => fold_left Motion_.add (firstn k (qblk l)) (base l))
              (seq 0 (int t)))
         (fblk l))
    ls.
Proof.
  intros Hf Hw Hfb Hqb. unfold Dynamics.cdofd_fn, Dynamics.cds_loop.
  rewrite Hf. cbv zeta.
  rewrite length_map, (reshape_blocks qblk ls (int t)) by auto.
  rewrite cds_loop_spec.
  - replace (S (int t - 1)) with (int t) by lia.
    rewrite (column_stack_blocks
               (fun k b r => fold_left Motion_.add (firstn k r) b) base qblk ls).
    apply map2_flat_map. intros l Hl.
    rewrite length_map, length_seq. symmetry; auto.
  - now rewrite !length_map.
  - intros r Hr. apply in_map_iff in Hr as (l & <- & Hl).
    rewrite Hqb by auto. lia.
Qed.

Lemma cds_loop_length cdl rows w :
  length (Dynamics.cds_loop cdl rows w) = S (w - 1).
Proof.
  unfold Dynamics.cds_loop.
  assert (H : forall ks init,
             length (fold_left
               (fun cds k =>
                  cds ++ [Arr.map2 Motion_.add (last cds [])
                            (Arr.column Motion_.zero k rows)]) ks init)
             = (length init + length ks)%nat).
  { induction ks as [|k ks IH]; intros init; simpl; [lia|].
    rewrite IH, length_app. simpl. lia. }
  rewrite H, length_seq. simpl. lia.
Qed.

Lemma concat_length_const {X} (rs : list (list X)) w :
  (forall r, In r rs -> length r = w) -> length (concat rs) = (length rs * w)%nat.
Proof.
  intros H. rewrite <- (map_id rs) at 1. rewrite <- flat_map_concat_map.
  now apply flat_map_length_const.
Qed.

Lemma cdofd_free_length cdf cq m :
  length cdf = (m * 6)%nat -> length cq = (m * 6)%nat ->
  length (Dynamics.cdofd_free cdf cq) = (m * 6)%nat.
Proof.
  intros Hf Hq. unfold Dynamics.cdofd_free. cbv zeta.
  rewrite Hf, Hq, Nat.div_mul by lia.
  unfold Arr.reshape. rewrite map_map, map2_map_map, map_map.
  rewrite (concat_length_const _ 6).
  - now rewrite length_map, length_seq.
  - intros r Hr. apply in_map_iff in Hr as (k & <- & Hk). apply in_seq in Hk.
    rewrite length_app, length_map, <- length_app, firstn_skipn, length_map.
    apply slice_length. nia.
Qed.

Lemma cdofd_fn_length t cdl cdf cq m :
  length cdl = m ->
  length cdf = (m * width D t)%nat -> length cq = (m * width D t)%nat ->
  length (Dynamics.cdofd_fn t cdl cdf cq) = (m * width D t)%nat.
Proof.
  intros Hl Hf Hq. unfold Dynamics.cdofd_fn. cbn [width] in *.
  destruct (is_free t).
  - now apply cdofd_free_length.
  - cbv zeta. rewrite map2_length, column_stack_length, cds_loop_length, Hl, Hf.
    destruct (int t) as [|w]; simpl; lia.
Qed.

End CdofdFacts.

Section ShapedFacts.
Context {A : Algebra}.
Variable sys : System.
Import Sys.
Hypothesis Hshaped : shaped sys = true.

Lemma shaped_link : length (link sys) = num_links sys.
Proof.
  unfold shaped in Hshaped. repeat (apply andb_prop in Hshaped as [Hshaped ?]).
  now apply Nat.eqb_eq.
Qed.

Lemma shaped_parents : length (link_parents sys) = num_links sys.
Proof.
  unfold shaped in Hshaped. repeat (apply andb_prop in Hshaped as [Hshaped ?]).
  now apply Nat.eqb_eq.
Qed.

Lemma shaped_dof : length (dof sys) = num_dofs sys.
Proof.
  unfold shaped in Hshaped. repeat (apply andb_prop in Hshaped as [Hshaped ?]).
  now apply Nat.eqb_eq.
Qed.

Lemma shaped_supported l : (l < num_links sys)%nat -> supported (typ sys l) = true.
Proof.
  intros Hl. unfold shaped in Hshaped. apply andb_prop in Hshaped as [_ H].
  rewrite forallb_forall in H. apply H. apply nth_In. exact Hl.
Qed.

End ShapedFacts.

Lemma supported_stacked t :
  Sys.supported t = true -> Sys.is_free t = false ->
  (1 <= Sys.int t <= 3)%nat.
Proof.
  unfold Sys.supported, Sys.is_free. intros Hs Hf. rewrite Hf in Hs. simpl in Hs.
  destruct (Ascii.eqb_spec t "1") as [E|_]; [rewrite E; vm_compute; lia|].
  destruct (Ascii.eqb_spec t "2") as [E|_]; [rewrite E; vm_compute; lia|].
  destruct (Ascii.eqb_spec t "3") as [E|_]; [rewrite E; vm_compute; lia|].
  discriminate.
Qed.

Section CdofdLinks.
Context {A : Algebra}.
Variable sys : System.
Import Sys.
Variables (q qd : list R) (x : list Transform).
Hypothesis Hshaped : shaped sys = true.
Hypothesis Hqd : length qd = num_dofs sys.

Lemma cd_p_length : length (Dynamics.cd_p sys q qd x) = num_links sys.
Proof.
  unfold Dynamics.cd_p, Arr.take.
  now rewrite length_map, (pidx_length sys (shaped_parents sys Hshaped)).
Qed.

Lemma cdofd_lengths t :
  length
    (Dynamics.cdofd_fn t
       (gather sys L (links_of_type sys t) (Dynamics.cd_p sys q qd x))
       (gather sys D (links_of_type sys t) (Dynamics.cdof sys q x))
       (gather sys D (links_of_type sys t) (Dynamics.cdof_qd sys q qd x)))
  = (length (links_of_type sys t) * width D t)%nat.
Proof.
  apply cdofd_fn_length.
  - rewrite (gather_length_type sys L) by (rewrite cd_p_length, offset_L; auto).
    cbn [width]. lia.
  - apply gather_length_type.
    apply (cdof_length sys q x (shaped_dof sys Hshaped)).
  - apply gather_length_type.
    apply (cdof_qd_length sys q qd x (shaped_dof sys Hshaped) Hqd).
Qed.

(** The block of a stacked link in [cdofd]: axis by axis, the cross product
    of the velocity accumulated so far with the axis's own subspace. *)
Lemma cdofd_block_stacked l :
  (l < num_links sys)%nat -> is_free (typ sys l) = false ->
  Arr.slice (offset sys D l) (width D (typ sys l)) (Dynamics.cdofd sys q qd x) =
  Arr.map2 Motion_.cross
    (map (fun k =>
            fold_left Motion_.add
              (firstn k (Arr.slice (offset sys D l) (width D (typ sys l))
                                   (Dynamics.cdof_qd sys q qd x)))
              (nth l (Dynamics.cd_p sys q qd x) Motion_.zero))
         (seq 0 (int (typ sys l))))
    (Arr.slice (offset sys D l) (width D (typ sys l)) (Dynamics.cdof sys q x)).
Proof.
  intros Hl Hf.
  pose proof (supported_stacked _ (shaped_supported sys Hshaped l Hl) Hf) as Hw.
  unfold Dynamics.cdofd.
  rewrite link_types_slice by (auto; intros; apply cdofd_lengths).
  set (t := typ sys l) in *.
  rewrite (gather_L sys _ _ Motion_.zero)
    by (try apply links_of_type_lt; apply cd_p_length).
  unfold gather.
  assert (Hwd : width D t = int t) by (cbn [width]; now rewrite Hf).
  rewrite (flat_map_ext_in
             (fun k => Arr.slice (offset sys D k) (width D (typ sys k))
                                 (Dynamics.cdof sys q x))
             (fun k => Arr.slice (offset sys D k) (width D t)
                                 (Dynamics.cdof sys q x)))
    by (intros k Hk; now rewrite (links_of_type_typ sys t k Hk)).
  rewrite (flat_map_ext_in
             (fun k => Arr.slice (offset sys D k) (width D (typ sys k))
                                 (Dynamics.cdof_qd sys q qd x))
             (fun k => Arr.slice (offset sys D k) (width D t)
                                 (Dynamics.cdof_qd sys q qd x)))
    by (intros k Hk; now rewrite (links_of_type_typ sys t k Hk)).
  assert (Hblk : forall X (xs : list X) k,
             length xs = num_dofs sys -> In k (links_of_type sys t) ->
             length (Arr.slice (offset sys D k) (width D t) xs) = int t).
  { intros X xs k Hxs Hk. rewrite <- Hwd.
    rewrite <- (links_of_type_typ sys t k Hk).
    apply gather_slice_length; auto. eapply links_of_type_lt; eauto. }
  rewrite cdofd_fn_stacked; auto; try lia.
  2:{ intros k Hk. apply Hblk; auto.
      apply (cdof_length sys q x (shaped_dof sys Hshaped)). }
  2:{ intros k Hk. apply Hblk; auto.
      apply (cdof_qd_length sys q qd x (shaped_dof sys Hshaped) Hqd). }
  destruct (filter_rank_nth (fun k => Ascii.eqb (typ sys k) t)
              (num_links sys) l O) as [Hr Hn]; [lia | apply Ascii.eqb_refl |].
  cbv zeta in Hr, Hn.
  unfold type_rank. fold t.
  rewrite (slice_uniform _ _ _ _ O).
  - unfold links_of_type. now rewrite Hn.
  - intros k Hk. rewrite map2_length, length_map, length_seq.
    rewrite Hblk; auto; try lia.
    apply (cdof_length sys q x (shaped_dof sys Hshaped)).
  - exact Hr.
Qed.

Lemma cd_length : length (Dynamics.cd sys q qd x) = num_links sys.
Proof. unfold Dynamics.cd, Scan.tree. now rewrite length_map, length_seq. Qed.

Lemma cd_p_stacked l :
  (l < num_links sys)%nat -> is_free (typ sys l) = false ->
  (-1 <= parent sys l < Z.of_nat (num_links sys))%Z ->
  nth l (Dynamics.cd_p sys q qd x) Motion_.zero =
  Spec.parent_velocity sys (Dynamics.cd sys q qd x) l.
Proof.
  intros Hl Hf Hp. unfold Dynamics.cd_p.
  rewrite (take_pidx_nth sys (shaped_parents sys Hshaped)); auto using cd_length.
  now rewrite Hf.
Qed.

Lemma cdofd_entry_stacked l a :
  (l < num_links sys)%nat -> is_free (typ sys l) = false ->
  (-1 <= parent sys l < Z.of_nat (num_links sys))%Z ->
  (a < int (typ sys l))%nat ->
  nth (offset sys D l + a) (Dynamics.cdofd sys q qd x) Motion_.zero =
  Motion_.cross
    (Spec.running_velocity (Spec.parent_velocity sys (Dynamics.cd sys q qd x) l)
                           (Dynamics.cdof sys q x) qd (offset sys D l) a)
    (nth (offset sys D l + a) (Dynamics.cdof sys q x) Motion_.zero).
Proof.
  intros Hl Hf Hp Ha.
  assert (Hwd : width D (typ sys l) = int (typ sys l))
    by (cbn [width]; now rewrite Hf).
  pose proof (cdof_length sys q x (shaped_dof sys Hshaped)) as Hc.
  pose proof (cdof_qd_length sys q qd x (shaped_dof sys Hshaped) Hqd) as Hcq.
  pose proof (offset_fits sys D l Hl) as Hfit. fold (num_dofs sys) in Hfit.
  rewrite <- (slice_nth _ (width D (typ sys l))) by lia.
  rewrite cdofd_block_stacked by auto.
  rewrite (map2_nth _ _ _ _ Motion_.zero Motion_.zero).
  2:{ rewrite length_map, length_seq. exact Ha. }
  2:{ rewrite gather_slice_length; auto. lia. }
  rewrite slice_nth by lia. f_equal.
  rewrite (nth_map_in _ _ _ Motion_.zero O) by (now rewrite length_seq).
  rewrite seq_nth by exact Ha. cbn [Nat.add].
  rewrite cd_p_stacked by auto.
  unfold Spec.running_velocity. f_equal.
  unfold Arr.slice at 1. rewrite firstn_firstn.
  replace (Nat.min a (width D (typ sys l))) with a by lia.
  fold (Arr.slice (offset sys D l) a (Dynamics.cdof_qd sys q qd x)).
  rewrite (slice_as_map _ _ _ Motion_.zero) by lia.
  apply map_ext_in. intros e He. apply in_seq in He.
  unfold Dynamics.cdof_qd.
  apply (map2_nth _ _ _ _ Motion_.zero 0); lia.
Qed.

End CdofdLinks.

(** ** A mechanism at rest without gravity *)

Section ZeroFacts.
Context {Y : Type} (add : Y -> Y -> Y) (z : Y).
Hypothesis add_zero : add z z = z.

Lemma add_at_zero p buf :
  Forall (eq z) buf -> Forall (eq z) (Scan.add_at add p z buf).
Proof.
  intros H; revert p; induction H as [|b buf Hb Hbuf IH]; intros [|p]; simpl;
    constructor; auto.
  now rewrite <- Hb, add_zero.
Qed.

Lemma index_sum_zero buf idx vals :
  Forall (eq z) buf -> Forall (eq z) vals ->
  Forall (eq z) (Scan.index_sum add buf idx vals).
Proof.
  intros Hbuf Hvals; revert buf idx Hbuf.
  induction Hvals as [|v vals Hv Hvals IH]; intros buf [|k idx] Hbuf; simpl; auto.
  apply IH. subst v. unfold Scan.at_add.
  destruct (0 <=? k)%Z; [now apply add_at_zero|].
  destruct (_ <=? k)%Z; [now apply add_at_zero|assumption].
Qed.

Lemma segment_sum_zero vals idx n :
  Forall (eq z) vals -> Forall (eq z) (Scan.segment_sum add z vals idx n).
Proof.
  intros H. unfold Scan.segment_sum. apply index_sum_zero; auto.
  apply Forall_forall. intros y Hy. now apply repeat_spec in Hy.
Qed.

Lemma nth_zero k xs : Forall (eq z) xs -> nth k xs z = z.
Proof.
  intros H. destruct (Nat.lt_ge_cases k (length xs)) as [Hk|Hk].
  - rewrite Forall_forall in H. symmetry. apply H. now apply nth_In.
  - now apply nth_overflow.
Qed.

Lemma take_zero xs idx : Forall (eq z) xs -> Forall (eq z) (Arr.take z xs idx).
Proof.
  intros H. unfold Arr.take. apply Forall_forall. intros y Hy.
  apply in_map_iff in Hy as (k & <- & _). symmetry. now apply nth_zero.
Qed.

Section Scans.
Context {A : Algebra}.
Variable sys : System.
Context {In : Type}.
Variable f : option (list Y) -> In -> list Y.
Variable in_args : list nat -> In.
Hypothesis f_zero :
  forall c ls,
    (forall c', c = Some c' -> Forall (eq z) c') ->
    Forall (eq z) (f c (in_args ls)).

Lemma forward_level_zero d : Forall (eq z) (Scan.forward_level sys z f in_args d).
Proof.
  induction d as [|d IH]; simpl; apply f_zero.
  - discriminate.
  - intros c' [= <-]. now apply take_zero.
Qed.

Lemma tree_zero : Forall (eq z) (Scan.tree sys z f in_args).
Proof.
  unfold Scan.tree. apply Forall_forall. intros y Hy.
  apply in_map_iff in Hy as (l & <- & _). symmetry.
  apply nth_zero, forward_level_zero.
Qed.

Lemma backward_level_zero k :
  Forall (eq z) (Scan.backward_level sys z add f in_args k).
Proof.
  induction k as [|k IH]; simpl; apply f_zero.
  - discriminate.
  - intros c' [= <-]. now apply segment_sum_zero.
Qed.

Lemma tree_reverse_zero : Forall (eq z) (Scan.tree_reverse sys z add f in_args).
Proof.
  unfold Scan.tree_reverse. apply Forall_forall. intros y Hy.
  apply in_map_iff in Hy as (l & <- & _). symmetry.
  apply nth_zero, backward_level_zero.
Qed.

End Scans.
End ZeroFacts.

Lemma Forall_slice {X} (P : X -> Prop) off w xs :
  Forall P xs -> Forall P (Arr.slice off w xs).
Proof.
  intros H. unfold Arr.slice. rewrite Forall_forall in *. intros y Hy.
  apply H. rewrite <- (firstn_skipn off xs). apply in_or_app. right.
  rewrite <- (firstn_skipn w (skipn off xs)). apply in_or_app. now left.
Qed.

Lemma Forall_gather {A : Algebra} {X} (P : X -> Prop) sys k ls xs :
  Forall P xs -> Forall P (Sys.gather sys k ls xs).
Proof.
  intros H. unfold Sys.gather. apply Forall_forall. intros y Hy.
  apply in_flat_map in Hy as (l & _ & Hy).
  pose proof (Forall_slice P (Sys.offset sys k l) (Sys.width k (Sys.typ sys l)) xs H) as Hs.
  rewrite Forall_forall in Hs. auto.
Qed.

Lemma Forall_map2 {X Y W} (P : W -> Prop) (f : X -> Y -> W) xs ys :
  (forall x y, In x xs -> In y ys -> P (f x y)) -> Forall P (Arr.map2 f xs ys).
Proof.
  revert ys; induction xs as [|x xs IH]; intros [|y ys] H; simpl; constructor.
  - apply H; simpl; auto.
  - apply IH. intros; apply H; simpl; auto.
Qed.

Lemma motion_add_zero : Motion_.add Motion_.zero Motion_.zero = Motion_.zero.
Proof. v3. Qed.

Lemma force_add_zero : Force_.add Force_.zero Force_.zero = Force_.zero.
Proof. v3. Qed.

Lemma motion_scale_zero m : Motion_.scale m 0 = Motion_.zero.
Proof. v3. Qed.

Lemma motion_dot_zero m : Motion_.dot m Force_.zero = 0.
Proof. v3. Qed.

Section RestFacts.
Context {A : Algebra} {Laws : AlgebraLaws A}.
Variable sys : System.
Import Sys.
Variables (q qd : list R) (x : list Transform).
Hypothesis Hrest : Forall (eq 0) qd.

Lemma scatter_zero c (vals : list Motion) idx :
  (forall c', c = Some c' -> Forall (eq Motion_.zero) c') ->
  Forall (eq Motion_.zero) vals ->
  Forall (eq Motion_.zero)
    (Scan.index_sum Motion_.add
       (match c with None => [Motion_.zero] | Some c' => c' end) idx vals).
Proof.
  intros Hc Hv. apply index_sum_zero; auto using motion_add_zero.
  destruct c as [c'|]; auto.
Qed.

Lemma cdof_qd_zero : Forall (eq Motion_.zero) (Dynamics.cdof_qd sys q qd x).
Proof.
  unfold Dynamics.cdof_qd. apply Forall_map2. intros m v _ Hv.
  rewrite Forall_forall in Hrest. rewrite <- (Hrest v Hv).
  symmetry. apply motion_scale_zero.
Qed.

Lemma cd_zero : Forall (eq Motion_.zero) (Dynamics.cd sys q qd x).
Proof.
  unfold Dynamics.cd. apply tree_zero. intros c ls Hc.
  unfold Dynamics.cd_fn. apply scatter_zero; auto.
  apply Forall_gather, cdof_qd_zero.
Qed.

Lemma cdd_zero cdofd :
  gravity sys = V3.zero -> Forall (eq Motion_.zero) (Dynamics.cdd sys qd cdofd).
Proof.
  intros Hg. unfold Dynamics.cdd. apply tree_zero. intros c ls Hc.
  unfold Dynamics.cdd_fn. rewrite Hg.
  replace (Motion_.create_vel (V3.neg V3.zero)) with Motion_.zero by v3.
  apply scatter_zero; auto.
  apply Forall_map2. intros m v _ Hv.
  pose proof (Forall_gather (eq 0) sys D ls qd Hrest) as Hq.
  rewrite Forall_forall in Hq. rewrite <- (Hq v Hv).
  symmetry. apply motion_scale_zero.
Qed.

Lemma frc_zero ci : Dynamics.frc ci Motion_.zero Motion_.zero = Force_.zero.
Proof.
  unfold Dynamics.frc. rewrite mul_zero, cross_force_zero. apply force_add_zero.
Qed.

Lemma cfrc_flat_zero cinr cd cdofd :
  gravity sys = V3.zero -> Forall (eq Motion_.zero) cd ->
  Forall (eq Force_.zero) (Dynamics.cfrc_flat sys qd cinr cd cdofd).
Proof.
  intros Hg Hcd. unfold Dynamics.cfrc_flat. apply Forall_map2.
  intros ci [a v] _ Hav.
  pose proof (cdd_zero cdofd Hg) as Hcdd. rewrite Forall_forall in Hcdd, Hcd.
  rewrite <- (Hcdd a (in_combine_l _ _ _ _ Hav)).
  rewrite <- (Hcd v (in_combine_r _ _ _ _ Hav)).
  symmetry. apply frc_zero.
Qed.

Lemma cfrc_zero cinr cd cdofd :
  gravity sys = V3.zero -> Forall (eq Motion_.zero) cd ->
  Forall (eq Force_.zero) (Dynamics.cfrc sys qd cinr cd cdofd).
Proof.
  intros Hg Hcd. unfold Dynamics.cfrc. apply tree_reverse_zero.
  - apply force_add_zero.
  - intros c ls Hc. unfold Dynamics.cfrc_fn.
    pose proof (Forall_gather (eq Force_.zero) sys L ls _
                  (cfrc_flat_zero cinr cd cdofd Hg Hcd)) as Hflat.
    destruct c as [c'|]; auto.
    specialize (Hc c' eq_refl). rewrite Forall_forall in Hflat, Hc.
    apply Forall_map2. intros a b Ha Hb.
    rewrite <- (Hflat a Ha), <- (Hc b Hb). symmetry. apply force_add_zero.
Qed.

Lemma inverse_zero cinr cd cdof cdofd :
  gravity sys = V3.zero -> Forall (eq Motion_.zero) cd ->
  length cdof = num_dofs sys ->
  Dynamics.inverse sys qd cinr cd cdof cdofd = repeat 0 (num_dofs sys).
Proof.
  intros Hg Hcd Hlen.
  transitivity (repeat 0 (length (Dynamics.inverse sys qd cinr cd cdof cdofd)));
    [|now rewrite inverse_length].
  apply Forall_eq_repeat. unfold Dynamics.inverse. apply Forall_map2.
  intros m f _ Hf.
  pose proof (take_zero Force_.zero _ (dof_link sys) (cfrc_zero cinr cd cdofd Hg Hcd)) as Hz.
  rewrite Forall_forall in Hz. rewrite <- (Hz f Hf).
  symmetry. apply motion_dot_zero.
Qed.

End RestFacts.

Lemma concrete_laws : AlgebraLaws Concrete.algebra.
Proof.
  split.
  - intros I. unfold mul, Concrete.algebra, Concrete.mul, Concrete.mat_vec.
    destruct I as [[p r] [a b c] m]. simpl. v3.
  - unfold cross_force, Concrete.algebra, Concrete.cross_force. simpl. v3.
Qed.

(** ** The backward scan of the link forces *)

Section ScatterNth.
Context {Y : Type} (add : Y -> Y -> Y).

Lemma add_at_nth p v buf r d :
  (r < length buf)%nat ->
  nth r (Scan.add_at add p v buf) d =
  if (p =? r)%nat then add (nth r buf d) v else nth r buf d.
Proof.
  revert p r; induction buf as [|b buf IH]; intros [|p] [|r] Hr; simpl in *;
    try lia; auto.
  apply IH. lia.
Qed.

(** Slot [r] after a scatter-add: its former content plus, in order, the
    contributions addressed to it. *)
Lemma index_sum_nth {C} (rk : C -> nat) (v : C -> Y) cs buf r d :
  (r < length buf)%nat ->
  nth r (Scan.index_sum add buf (map (fun c => Z.of_nat (rk c)) cs) (map v cs)) d =
  fold_left add (map v (filter (fun c => rk c =? r)%nat cs)) (nth r buf d).
Proof.
  revert buf; induction cs as [|c cs IH]; intros buf Hr; simpl; auto.
  rewrite at_add_nat, IH by (now rewrite add_at_length).
  rewrite add_at_nth by exact Hr.
  destruct (rk c =? r)%nat; reflexivity.
Qed.

End ScatterNth.

Lemma filter_filter_and {X} (P Q : X -> bool) xs :
  filter P (filter Q xs) = filter (fun y => Q y && P y) xs.
Proof.
  induction xs as [|y xs IH]; simpl; auto.
  destruct (Q y); simpl; [destruct (P y)|]; now rewrite IH.
Qed.

Section BackwardScan.
Context {A : Algebra}.
Variable sys : System.
Import Sys.
Hypothesis Htree : rooted_tree sys = true.
Variable flat : list Force.
Hypothesis Hflat : length flat = num_links sys.

Lemma depth_le_max l : (l < num_links sys)%nat -> (depth sys l <= max_depth sys)%nat.
Proof.
  intros Hl. unfold max_depth.
  assert (H : forall xs, In l xs ->
            (depth sys l <= fold_right Nat.max O (map (depth sys) xs))%nat).
  { induction xs as [|y xs IH]; simpl; [tauto|].
    intros [->|Hin]; [lia|]. specialize (IH Hin). lia. }
  apply H. apply in_seq. lia.
Qed.

(** The children of [l] are the links of the next level whose parent has
    the rank of [l]. *)
Lemma children_level l :
  (l < num_links sys)%nat ->
  filter (fun c => level_rank sys (Z.to_nat (parent sys c)) =? level_rank sys l)%nat
         (level sys (S (depth sys l))) =
  Spec.children sys l.
Proof.
  intros Hl. unfold level, Spec.children. rewrite filter_filter_and.
  apply filter_ext_in. intros c Hc. apply in_seq in Hc.
  destruct (Z.eqb_spec (parent sys c) (Z.of_nat l)) as [E|E].
  - assert (Hc0 : c <> O).
    { intros ->. destruct (tree_parent sys Htree O ltac:(lia)) as (_ & H & _).
      specialize (H eq_refl). lia. }
    rewrite (depth_child sys Htree c ltac:(lia) Hc0), E, Nat2Z.id.
    now rewrite !Nat.eqb_refl.
  - destruct (Nat.eqb_spec (depth sys c) (S (depth sys l))) as [Hd|Hd];
      [|reflexivity].
    cbn [andb]. apply Nat.eqb_neq. intros Hr. apply E.
    assert (Hc0 : c <> O).
    { intros ->. rewrite (depth_root sys Htree) in Hd. discriminate. }
    pose proof (parent_lt sys Htree c ltac:(lia) Hc0) as Hp.
    destruct (tree_parent sys Htree c ltac:(lia)) as (_ & _ & Hp0).
    specialize (Hp0 Hc0).
    rewrite (depth_child sys Htree c ltac:(lia) Hc0) in Hd.
    injection Hd as Hd.
    destruct (level_rank_lt sys (Z.to_nat (parent sys c)) ltac:(lia)) as [_ H1].
    destruct (level_rank_lt sys l Hl) as [_ H2].
    rewrite Hd, Hr, H2 in H1. lia.
Qed.

Lemma gather_flat ls :
  (forall l, In l ls -> (l < num_links sys)%nat) ->
  gather sys L ls flat = map (fun l => nth l flat Force_.zero) ls.
Proof. intros Hls. now apply gather_L. Qed.

Local Abbreviation bl := (Scan.backward_level sys Force_.zero Force_.add Dynamics.cfrc_fn
                        (fun ls => gather sys L ls flat)).

Lemma backward_level_O :
  bl O = map (fun l => nth l flat Force_.zero) (level sys (max_depth sys)).
Proof. simpl. apply gather_flat, level_lt. Qed.

Lemma backward_level_S k :
  bl (S k) =
  Arr.map2 Force_.add
    (map (fun l => nth l flat Force_.zero) (level sys (max_depth sys - S k)))
    (Scan.segment_sum Force_.add Force_.zero (bl k)
       (Scan.parent_rows sys (S (max_depth sys - S k)))
       (length (level sys (max_depth sys - S k)))).
Proof. simpl. now rewrite gather_flat by apply level_lt. Qed.

Lemma backward_level_length k :
  length (bl k) = length (level sys (max_depth sys - k)).
Proof.
  destruct k as [|k].
  - now rewrite backward_level_O, length_map, Nat.sub_0_r.
  - rewrite backward_level_S, map2_length, length_map.
    unfold Scan.segment_sum. rewrite index_sum_length, repeat_length. lia.
Qed.

Lemma level_above_max : level sys (S (max_depth sys)) = [].
Proof.
  unfold level. apply filter_none. intros c Hc. apply in_seq in Hc.
  pose proof (depth_le_max c ltac:(lia)). apply Nat.eqb_neq. lia.
Qed.

Lemma level_enumerates {X} (xs : list X) d dx :
  length xs = length (level sys d) ->
  xs = map (fun c => nth (level_rank sys c) xs dx) (level sys d).
Proof.
  intros Hlen. apply (nth_ext _ _ dx dx).
  - now rewrite length_map.
  - intros r Hr. rewrite Hlen in Hr.
    rewrite (nth_map_in _ _ _ dx O) by exact Hr.
    now rewrite level_nth_rank.
Qed.

Lemma force_add_zero_r f : Force_.add f Force_.zero = f.
Proof. v3. Qed.

Local Abbreviation out :=
  (Scan.tree_reverse sys Force_.zero Force_.add Dynamics.cfrc_fn
                     (fun ls => gather sys L ls flat)).

Lemma tree_reverse_nth l :
  (l < num_links sys)%nat ->
  nth l out Force_.zero =
  nth (level_rank sys l) (bl (max_depth sys - depth sys l)) Force_.zero.
Proof.
  intros Hl. unfold Scan.tree_reverse.
  rewrite (nth_map_in _ _ _ Force_.zero O) by (now rewrite length_seq).
  now rewrite seq_nth.
Qed.

(** The force of a link after the backward scan: its own force plus the
    accumulated forces of its children. *)
Lemma tree_reverse_entry l :
  (l < num_links sys)%nat ->
  nth l out Force_.zero =
  Force_.add (nth l flat Force_.zero)
    (fold_left Force_.add
       (map (fun c => nth c out Force_.zero) (Spec.children sys l)) Force_.zero).
Proof.
  intros Hl. rewrite tree_reverse_nth by exact Hl.
  pose proof (depth_le_max l Hl) as Hmax.
  destruct (level_rank_lt sys l Hl) as [Hr Hnth].
  rewrite <- (children_level l Hl).
  destruct (max_depth sys - depth sys l)%nat as [|k] eqn:Ek.
  - assert (Hd : depth sys l = max_depth sys) by lia.
    rewrite backward_level_O, Hd, level_above_max. cbn [filter map fold_left].
    rewrite force_add_zero_r.
    rewrite Hd in Hr, Hnth.
    rewrite (nth_map_in _ _ _ Force_.zero O) by exact Hr.
    now rewrite Hnth.
  - assert (Hd : (max_depth sys - S k)%nat = depth sys l) by lia.
    rewrite backward_level_S, Hd.
    rewrite (map2_nth _ _ _ _ Force_.zero Force_.zero).
    2:{ now rewrite length_map. }
    2:{ unfold Scan.segment_sum. now rewrite index_sum_length, repeat_length. }
    rewrite (nth_map_in _ _ _ Force_.zero O) by exact Hr.
    rewrite Hnth. f_equal.
    unfold Scan.segment_sum, Scan.parent_rows.
    rewrite (level_enumerates (bl k) (S (depth sys l)) Force_.zero) at 1
      by (rewrite backward_level_length;
          now replace (max_depth sys - k)%nat with (S (depth sys l)) by lia).
    rewrite (index_sum_nth Force_.add
               (fun c => level_rank sys (Z.to_nat (parent sys c)))
               (fun c => nth (level_rank sys c) (bl k) Force_.zero))
      by (now rewrite repeat_length).
    rewrite nth_repeat_lt by exact Hr. f_equal.
    apply map_ext_in. intros c Hc. apply filter_In in Hc as [Hc _].
    pose proof (level_lt sys _ c Hc) as Hcn.
    pose proof (level_depth sys _ c Hc) as Hcd.
    rewrite tree_reverse_nth by exact Hcn.
    rewrite Hcd. f_equal. f_equal. lia.
Qed.

End BackwardScan.

Section AccumulatedForce.
Context {A : Algebra}.
Variable sys : System.
Import Sys.
Variables (qd : list R) (cinr : list Inertia) (cd cdofd : list Motion).
Hypothesis Htree : rooted_tree sys = true.
Hypothesis Hcinr : length cinr = num_links sys.
Hypothesis Hcd : length cd = num_links sys.

Lemma cfrc_flat_length :
  length (Dynamics.cfrc_flat sys qd cinr cd cdofd) = num_links sys.
Proof.
  unfold Dynamics.cfrc_flat, Dynamics.cdd, Scan.tree.
  rewrite map2_length, length_combine, length_map, length_seq. lia.
Qed.

Lemma cfrc_entry l :
  (l < num_links sys)%nat ->
  nth l (Dynamics.cfrc sys qd cinr cd cdofd) Force_.zero =
  Force_.add (nth l (Dynamics.cfrc_flat sys qd cinr cd cdofd) Force_.zero)
    (fold_left Force_.add
       (map (fun c => nth c (Dynamics.cfrc sys qd cinr cd cdofd) Force_.zero)
            (Spec.children sys l))
       Force_.zero).
Proof.
  intros Hl. unfold Dynamics.cfrc.
  now apply tree_reverse_entry; auto using cfrc_flat_length.
Qed.

End AccumulatedForce.

(** ** The dynamics at work on the sample mechanisms *)

Example chain_com :
  Dynamics.com (A := Concrete.algebra) (Sample.chain Sample.earth) Sample.x_rest
  = V3.zero.
Proof. real_list. Qed.

(** The centre of mass of the pendulum is at its bob, one unit from the
    origin of the link frame. *)
Example pendulum_com :
  Dynamics.com (A := Concrete.algebra) (Sample.pendulum Sample.earth)
               [Transform_.zero]
  = mkVec3 1 0 0.
Proof. real_list. Qed.

(** The second link inherits the turning of the first. *)
Example chain_cd :
  Sample.cd = [mkMotion (mkVec3 0 0 1) V3.zero; mkMotion (mkVec3 0 0 1) V3.zero].
Proof. real_list. Qed.

Example chain_cdofd :
  Sample.cdofd = [Motion_.zero; mkMotion (mkVec3 0 1 0) V3.zero].
Proof. real_list. Qed.

Example chain_passive :
  Dynamics._passive (A := Concrete.algebra) (Sample.chain Sample.earth)
                    Sample.q_rest Sample.qd_spin = [-1; 0].
Proof. real_list. Qed.

(** The pose by which the inertia of the flipped link is re-expressed keeps
    the half turn of the link. *)
Example skewed_cinr_pose :
  Dynamics.cinr_pose (A := Concrete.algebra) Sample.skewed Sample.x_flipped
  = [mkTransform V3.zero (mkQuat 0 1 0 0)].
Proof.
  real_eval.
  repeat match goal with
         | |- cons _ _ = cons _ _ => f_equal
         | |- mkTransform _ _ = mkTransform _ _ => f_equal
         | |- mkVec3 _ _ _ = mkVec3 _ _ _ => f_equal
         | |- mkQuat _ _ _ _ = mkQuat _ _ _ _ => f_equal
         end; lra.
Qed.

(** A pendulum held horizontally at rest: the bias force is the gravity
    torque about the hinge, mass times [g] times the lever arm. *)
Example pendulum_gravity_torque :
  Dynamics.inverse (A := Concrete.algebra) (Sample.pendulum Sample.earth) [0]
    (Dynamics.cinr (A := Concrete.algebra) (Sample.pendulum Sample.earth)
                   [Transform_.zero])
    (Dynamics.cd (A := Concrete.algebra) (Sample.pendulum Sample.earth)
                 [0] [0] [Transform_.zero])
    (Dynamics.cdof (A := Concrete.algebra) (Sample.pendulum Sample.earth)
                   [0] [Transform_.zero])
    (Dynamics.cdofd (A := Concrete.algebra) (Sample.pendulum Sample.earth)
                    [0] [0] [Transform_.zero])
  = [- (2 * (981 / 100) * 1)].
Proof. real_list. Qed.

(** ** Two consequences *)

(** The centre of mass is the point about which the mass-weighted offsets
    of the links cancel. *)
Lemma vsum_offsets n (m : nat -> R) (p : nat -> Vec3) (c : Vec3) :
  Spec.vsum n (fun l => V3.scale (m l) (V3.sub (p l) c)) =
  V3.sub (Spec.vsum n (fun l => V3.scale (m l) (p l))) (V3.scale (Spec.rsum n m) c).
Proof.
  induction n as [|n IH]; simpl.
  - v3.
  - rewrite IH.
    generalize (Spec.vsum n (fun l => V3.scale (m l) (p l))) as s.
    generalize (Spec.rsum n m) as t. generalize (m n) as mn. generalize (p n) as pn.
    intros pn mn t s. v3.
Qed.

Lemma com_balances {A : Algebra} (sys : System) (x : list Transform) :
  length x = length (link sys) ->
  Spec.rsum (length (link sys)) (Spec.mass_of sys) <> 0 ->
  Spec.vsum (length (link sys))
    (fun l => V3.scale (Spec.mass_of sys l)
                       (V3.sub (Spec.world_pos sys x l) (Dynamics.com sys x)))
  = V3.zero.
Proof.
  intros Hx Hm. rewrite vsum_offsets, (com_formula sys x Hx).
  unfold Spec.weighted_average.
  generalize (Spec.vsum (length (link sys))
                (fun l => V3.scale (Spec.mass_of sys l) (Spec.world_pos sys x l))) as s.
  revert Hm. generalize (Spec.rsum (length (link sys)) (Spec.mass_of sys)) as t.
  intros t Ht [sx sy sz].
  unfold V3.sub, V3.scale, V3.div, V3.zero. simpl. f_equal; field; exact Ht.
Qed.

Section ForwardFacts.
Context {A : Algebra}.
Variable sys : System.
Import Sys.
Variables (q qd : list R) (cinr : list Inertia) (cd cdof cdofd : list Motion).
Variable tau : list R.
Hypothesis Hq : length q = num_q sys.
Hypothesis Hqd : length qd = num_dofs sys.
Hypothesis Hdof : length (dof sys) = num_dofs sys.
Hypothesis Hcdof : length cdof = num_dofs sys.
Hypothesis Htau : length tau = num_dofs sys.

Lemma forward_length :
  length (Dynamics.forward sys q qd cinr cd cdof cdofd tau) = num_dofs sys.
Proof.
  pose proof (passive_length sys q Hq Hdof qd Hqd) as Hp.
  pose proof (inverse_length sys qd cinr cd cdof cdofd Hcdof) as Hi.
  unfold Dynamics.forward. cbv zeta. rewrite !map2_length. lia.
Qed.

Lemma forward_nth e :
  (e < num_dofs sys)%nat ->
  nth e (Dynamics.forward sys q qd cinr cd cdof cdofd tau) 0 =
  nth e (Dynamics._passive sys q qd) 0
  - nth e (Dynamics.inverse sys qd cinr cd cdof cdofd) 0
  + nth e tau 0.
Proof.
  intros He.
  pose proof (passive_length sys q Hq Hdof qd Hqd) as Hp.
  pose proof (inverse_length sys qd cinr cd cdof cdofd Hcdof) as Hi.
  unfold Dynamics.forward. cbv zeta.
  rewrite (map2_nth _ _ _ _ 0 0) by (rewrite ?map2_length; lia).
  rewrite (map2_nth _ _ _ _ 0 0) by lia. reflexivity.
Qed.

End ForwardFacts.

(** At rest, without gravity and without springs, [forward] hands back the
    supplied force unchanged, whatever the masses of the links: no mass
    matrix enters the result. *)
Lemma forward_at_rest {A : Algebra} {Laws : AlgebraLaws A} (sys : System)
    (q : list R) (x : list Transform) (tau : list R) :
  Sys.shaped sys = true ->
  gravity sys = V3.zero ->
  Forall (fun d => stiffness d = 0) (dof sys) ->
  length q = Sys.num_q sys ->
  length tau = Sys.num_dofs sys ->
  Dynamics.forward sys q (repeat 0 (Sys.num_dofs sys))
    (Dynamics.cinr sys x)
    (Dynamics.cd sys q (repeat 0 (Sys.num_dofs sys)) x)
    (Dynamics.cdof sys q x)
    (Dynamics.cdofd sys q (repeat 0 (Sys.num_dofs sys)) x)
    tau
  = tau.
Proof.
  intros Hshaped Hg Hk Hq Htau.
  set (qd := repeat 0 (Sys.num_dofs sys)).
  assert (Hqd : length qd = Sys.num_dofs sys) by apply repeat_length.
  assert (Hrest : Forall (eq 0) qd).
  { apply Forall_forall. intros v Hv. apply repeat_spec in Hv. now subst. }
  pose proof (shaped_dof sys Hshaped) as Hdof.
  pose proof (cdof_length sys q x Hdof) as Hcdof.
  apply (nth_ext _ _ 0 0).
  - rewrite forward_length; auto.
  - rewrite forward_length by auto. intros e He.
    rewrite forward_nth by auto.
    rewrite (inverse_zero sys qd Hrest) by (auto; now apply cd_zero).
    rewrite nth_repeat_lt by exact He.
    destruct (index_decompose sys Sys.D e He) as (l & a & Hl & Ha & ->).
    rewrite (passive_entry sys q Hq Hdof qd l a Hqd Hl Ha).
    rewrite (nth_zero 0 _ qd Hrest).
    rewrite Forall_forall in Hk.
    rewrite (Hk (Sys.dof_at sys (Sys.offset sys Sys.D l + a)))
      by (apply nth_In; lia).
    destruct (Sys.in_fb (Sys.typ sys l)); ring.
Qed.

(** ** Further facts on the dynamics *)

Section ShapeFacts.
Context {A : Algebra}.
Variable sys : System.
Import Sys.
Variables (q qd : list R) (x : list Transform).
Hypothesis Hshaped : shaped sys = true.

Lemma cinr_length :
  length x = num_links sys -> length (Dynamics.cinr sys x) = num_links sys.
Proof.
  intros Hx. unfold Dynamics.cinr, Dynamics.cinr_pose.
  pose proof (shaped_link sys Hshaped) as Hl.
  rewrite map2_length, !length_map, xi_length by lia. lia.
Qed.

Lemma cdofd_length :
  length qd = num_dofs sys ->
  length (Dynamics.cdofd sys q qd x) = num_dofs sys.
Proof.
  intros Hqd. unfold Dynamics.cdofd.
  apply link_types_length. intros t. now apply cdofd_lengths.
Qed.

Lemma cd_velocity_entry l :
  rooted_tree sys = true ->
  length qd = num_dofs sys ->
  (l < num_links sys)%nat ->
  nth l (Dynamics.cd sys q qd x) Motion_.zero =
  fold_left Motion_.add
    (map (fun e => Motion_.scale (nth e (Dynamics.cdof sys q x) Motion_.zero)
                                 (nth e qd 0))
         (seq (offset sys D l) (width D (typ sys l))))
    (if (l =? 0)%nat then Motion_.zero
     else nth (Z.to_nat (parent sys l)) (Dynamics.cd sys q qd x) Motion_.zero).
Proof.
  intros Htree Hqd Hl.
  pose proof (shaped_dof sys Hshaped) as Hdof.
  rewrite (cd_entry sys q qd x Htree Hdof Hqd l Hl). f_equal.
  pose proof (cdof_qd_length sys q qd x Hdof Hqd) as Hcq.
  pose proof (offset_fits sys D l Hl) as Hfit. fold (num_dofs sys) in Hfit.
  rewrite (slice_as_map _ _ _ Motion_.zero) by lia.
  apply map_ext_in. intros e He. apply in_seq in He.
  unfold Dynamics.cdof_qd.
  apply (map2_nth _ _ _ _ Motion_.zero 0).
  - rewrite (cdof_length sys q x Hdof). lia.
  - lia.
Qed.

End ShapeFacts.

(** ** Scans commute with additive maps *)

Ltac v3r :=
  repeat match goal with
         | v : Vec3 |- _ => destruct v
         | m : Motion |- _ => destruct m
         | f : Force |- _ => destruct f
         end;
  unfold Motion_.add, Motion_.scale, Motion_.cross, Motion_.zero, Motion_.dot,
    Motion_.create_vel, Force_.add, Force_.zero,
    V3.add, V3.sub, V3.neg, V3.scale, V3.mul, V3.div, V3.dot, V3.cross, V3.zero;
  simpl;
  repeat match goal with
         | |- mkVec3 _ _ _ = mkVec3 _ _ _ => f_equal
         | |- mkMotion _ _ = mkMotion _ _ => f_equal
         | |- mkForce _ _ = mkForce _ _ => f_equal
         end;
  try ring.

Section MapFacts.
Context {X Y : Type} (h : X -> Y).

Lemma take_map d xs idx :
  Arr.take (h d) (map h xs) idx = map h (Arr.take d xs idx).
Proof.
  unfold Arr.take. rewrite map_map, length_map. apply map_ext.
  intros k. apply map_nth.
Qed.

Lemma reshape_map n w xs :
  Arr.reshape n w (map h xs) = map (map h) (Arr.reshape n w xs).
Proof.
  unfold Arr.reshape. rewrite map_map. apply map_ext. intros k. apply slice_map.
Qed.

Lemma column_map d k rows :
  Arr.column (h d) k (map (map h) rows) = map h (Arr.column d k rows).
Proof.
  unfold Arr.column. rewrite !map_map. apply map_ext. intros r. apply map_nth.
Qed.

Lemma column_stack_map d n cols :
  Arr.column_stack (h d) n (map (map h) cols) = map h (Arr.column_stack d n cols).
Proof.
  unfold Arr.column_stack. rewrite map_flat_map. apply flat_map_ext.
  intros k. rewrite !map_map. apply map_ext. intros c. apply map_nth.
Qed.

End MapFacts.

Section AdditiveMaps.
Context {Y : Type} (add : Y -> Y -> Y) (h : Y -> Y).
Hypothesis h_add : forall a b, h (add a b) = add (h a) (h b).

Lemma add_at_map p v buf :
  Scan.add_at add p (h v) (map h buf) = map h (Scan.add_at add p v buf).
Proof.
  revert p; induction buf as [|b buf IH]; intros [|p]; simpl; auto.
  - now rewrite h_add.
  - now rewrite IH.
Qed.

Lemma index_sum_map buf idx vals :
  Scan.index_sum add (map h buf) idx (map h vals) =
  map h (Scan.index_sum add buf idx vals).
Proof.
  revert buf vals; induction idx as [|k idx IH]; intros buf [|v vals]; simpl; auto.
  rewrite <- IH. f_equal. unfold Scan.at_add. rewrite length_map.
  destruct (0 <=? k)%Z; [apply add_at_map|].
  destruct (_ <=? k)%Z; [apply add_at_map|reflexivity].
Qed.

Lemma map2_add_map xs ys :
  Arr.map2 add (map h xs) (map h ys) = map h (Arr.map2 add xs ys).
Proof.
  rewrite map2_map_l, map2_map_r, map_map2. apply map2_ext.
  intros; symmetry; apply h_add.
Qed.

Section ScanMaps.
Context {A : Algebra}.
Variable sys : System.
Context {In : Type}.
Variable z : Y.
Hypothesis h_zero : h z = z.
Variables f f' : option (list Y) -> In -> list Y.
Variables in_args in_args' : list nat -> In.
Hypothesis f_map :
  forall c ls, f' (option_map (map h) c) (in_args' ls) = map h (f c (in_args ls)).

Lemma forward_level_map d :
  Scan.forward_level sys z f' in_args' d =
  map h (Scan.forward_level sys z f in_args d).
Proof.
  induction d as [|d IH]; simpl.
  - apply (f_map None).
  - rewrite IH, <- f_map. cbn [option_map]. do 2 f_equal.
    rewrite <- (take_map h z). now rewrite h_zero.
Qed.

Lemma tree_map_out :
  Scan.tree sys z f' in_args' = map h (Scan.tree sys z f in_args).
Proof.
  unfold Scan.tree. rewrite map_map. apply map_ext. intros l.
  rewrite forward_level_map.
  transitivity (nth (Sys.level_rank sys l)
                  (map h (Scan.forward_level sys z f in_args (Sys.depth sys l))) (h z));
    [now rewrite h_zero | apply map_nth].
Qed.

Lemma backward_level_map k :
  Scan.backward_level sys z add f' in_args' k =
  map h (Scan.backward_level sys z add f in_args k).
Proof.
  induction k as [|k IH]; simpl.
  - apply (f_map None).
  - rewrite IH, <- f_map. cbn [option_map]. do 2 f_equal.
    unfold Scan.segment_sum. rewrite <- index_sum_map. f_equal.
    now rewrite map_repeat, h_zero.
Qed.

Lemma tree_reverse_map_out :
  Scan.tree_reverse sys z add f' in_args' =
  map h (Scan.tree_reverse sys z add f in_args).
Proof.
  unfold Scan.tree_reverse. rewrite map_map. apply map_ext. intros l.
  rewrite backward_level_map.
  match goal with
  | |- nth ?r (map h ?lv) z = _ =>
      transitivity (nth r (map h lv) (h z)); [now rewrite h_zero | apply map_nth]
  end.
Qed.

End ScanMaps.
End AdditiveMaps.

(** ** Scaling the joint velocities *)

Lemma last_map {X Y} (h : X -> Y) xs d : last (map h xs) (h d) = h (last xs d).
Proof.
  induction xs as [|a xs IH]; simpl; auto.
  destruct xs; simpl in *; auto.
Qed.

Lemma motion_sum_map (h : Motion -> Motion) ms :
  (forall a b, h (Motion_.add a b) = Motion_.add (h a) (h b)) ->
  h Motion_.zero = Motion_.zero ->
  Motion_.sum (map h ms) = h (Motion_.sum ms).
Proof.
  intros Ha Hz. induction ms as [|m ms IH]; simpl; auto.
  now rewrite IH, Ha.
Qed.

Section Homogeneous.
Context {A : Algebra}.
Variable sys : System.
Variables (q : list R) (x : list Transform).
Variable c : R.

Local Abbreviation S := (fun m : Motion => Motion_.scale m c).

Lemma scale_add a b :
  Motion_.scale (Motion_.add a b) c =
  Motion_.add (Motion_.scale a c) (Motion_.scale b c).
Proof. v3r. Qed.

Lemma scale_zero : Motion_.scale Motion_.zero c = Motion_.zero.
Proof. v3r. Qed.

Lemma scale_cross a b :
  Motion_.cross (Motion_.scale a c) b = Motion_.scale (Motion_.cross a b) c.
Proof. v3r. Qed.

Lemma cdof_qd_scale qd :
  Dynamics.cdof_qd sys q (map (Rmult c) qd) x = map S (Dynamics.cdof_qd sys q qd x).
Proof.
  unfold Dynamics.cdof_qd. rewrite map2_map_r, map_map2. apply map2_ext.
  intros m v. v3r.
Qed.

Lemma cd_scale qd :
  Dynamics.cd sys q (map (Rmult c) qd) x = map S (Dynamics.cd sys q qd x).
Proof.
  unfold Dynamics.cd.
  apply (tree_map_out S sys Motion_.zero scale_zero).
  intros carry ls. rewrite cdof_qd_scale, gather_map. unfold Dynamics.cd_fn.
  rewrite <- (index_sum_map Motion_.add S scale_add). f_equal.
  destruct carry; cbn [option_map map]; auto. now rewrite scale_zero.
Qed.

Lemma cd_p_scale qd :
  Dynamics.cd_p sys q (map (Rmult c) qd) x = map S (Dynamics.cd_p sys q qd x).
Proof.
  unfold Dynamics.cd_p. rewrite cd_scale, <- (take_map S Motion_.zero).
  rewrite map_app. cbn [map]. now rewrite scale_zero.
Qed.

Lemma cds_loop_scale cdl st n :
  Dynamics.cds_loop (map S cdl) (map (map S) st) n =
  map (map S) (Dynamics.cds_loop cdl st n).
Proof.
  unfold Dynamics.cds_loop.
  change [map S cdl] with (map (map S) [cdl]).
  generalize [cdl] as acc. generalize (seq 0 (n - 1)) as ks.
  induction ks as [|k ks IH]; intros acc; simpl; auto.
  rewrite <- IH. f_equal. rewrite map_app. cbn [map]. do 2 f_equal.
  rewrite <- (map2_add_map Motion_.add S scale_add). f_equal.
  - apply (last_map (map S) acc []).
  - rewrite <- (column_map S). now rewrite scale_zero.
Qed.

Lemma cdofd_free_scale cdf cq :
  Dynamics.cdofd_free cdf (map S cq) = map S (Dynamics.cdofd_free cdf cq).
Proof.
  unfold Dynamics.cdofd_free. rewrite length_map, reshape_map, concat_map.
  f_equal. rewrite (map_map (map S)).
  rewrite (map_ext _ (fun row => S (Motion_.sum (firstn 3 row)))).
  2:{ intros row. rewrite firstn_map.
      apply (motion_sum_map S); [apply scale_add | apply scale_zero]. }
  rewrite <- (map_map (fun row => Motion_.sum (firstn 3 row)) S).
  rewrite map2_map_l, !map_map2. apply map2_ext. intros m row.
  rewrite !firstn_map, !skipn_map, map_app, !map_map. f_equal.
  - apply map_ext. intros. now rewrite scale_zero.
  - apply map_ext. intros; apply scale_cross.
Qed.

Lemma cdofd_fn_scale t cdl cdf cq :
  Dynamics.cdofd_fn t (map S cdl) cdf (map S cq) =
  map S (Dynamics.cdofd_fn t cdl cdf cq).
Proof.
  unfold Dynamics.cdofd_fn. destruct (Sys.is_free t); [apply cdofd_free_scale|].
  rewrite length_map, reshape_map, cds_loop_scale.
  rewrite <- (scale_zero) at 1. rewrite (column_stack_map S).
  rewrite map2_map_l, map_map2. apply map2_ext. intros; apply scale_cross.
Qed.

Lemma cdofd_scale qd :
  Dynamics.cdofd sys q (map (Rmult c) qd) x = map S (Dynamics.cdofd sys q qd x).
Proof.
  unfold Dynamics.cdofd, Scan.link_types. rewrite map_flat_map.
  apply flat_map_ext. intros l.
  rewrite cd_p_scale, cdof_qd_scale, !gather_map, cdofd_fn_scale.
  apply slice_map.
Qed.

End Homogeneous.

(** ** Free joints *)

Lemma nth_map_const {X Y} (z : Y) (xs : list X) k : nth k (map (fun _ => z) xs) z = z.
Proof. revert k; induction xs as [|a xs IH]; intros [|k]; simpl; auto. Qed.

Lemma cdofd_free_blocks (fblk qblk : nat -> list Motion) ls :
  (forall l, In l ls -> length (fblk l) = 6%nat) ->
  (forall l, In l ls -> length (qblk l) = 6%nat) ->
  Dynamics.cdofd_free (flat_map fblk ls) (flat_map qblk ls) =
  flat_map
    (fun l => map (fun _ => Motion_.zero) (firstn 3 (fblk l))
              ++ map (Motion_.cross (Motion_.sum (firstn 3 (qblk l))))
                     (skipn 3 (fblk l)))
    ls.
Proof.
  intros Hf Hq. unfold Dynamics.cdofd_free. cbv zeta.
  rewrite (flat_map_length_const fblk ls 6), (flat_map_length_const qblk ls 6) by auto.
  rewrite Nat.div_mul by lia.
  rewrite !reshape_blocks by auto.
  rewrite map_map, map2_map_map, map_map, <- flat_map_concat_map.
  apply flat_map_ext. intros l.
  now rewrite firstn_map, skipn_map, map_map.
Qed.

Section FreeJoints.
Context {A : Algebra}.
Variable sys : System.
Import Sys.
Variables (q qd : list R) (x : list Transform).
Hypothesis Hshaped : shaped sys = true.

Lemma free_blocks {X} (xs : list X) t :
  is_free t = true ->
  length xs = num_dofs sys ->
  forall k, In k (links_of_type sys t) ->
  length (Arr.slice (offset sys D k) (width D (typ sys k)) xs) = 6%nat.
Proof.
  intros Hf Hxs k Hk.
  rewrite gather_slice_length; auto.
  - rewrite (links_of_type_typ sys t k Hk). cbn [width]. now rewrite Hf.
  - eapply links_of_type_lt; eauto.
Qed.

Lemma type_rank_nth l :
  (l < num_links sys)%nat ->
  (type_rank sys l < length (links_of_type sys (typ sys l)))%nat /\
  nth (type_rank sys l) (links_of_type sys (typ sys l)) O = l.
Proof.
  intros Hl.
  destruct (filter_rank_nth (fun k => Ascii.eqb (typ sys k) (typ sys l))
              (num_links sys) l O) as [Hr Hn]; [lia | apply Ascii.eqb_refl |].
  cbv zeta in Hr, Hn. split; [exact Hr | exact Hn].
Qed.

(** The block of a free link in the local subspaces: the rows of
    [sys.dof.motion], untouched. *)
Lemma cdof_local_block_free l :
  (l < num_links sys)%nat -> is_free (typ sys l) = true ->
  Arr.slice (offset sys D l) (width D (typ sys l)) (Dynamics.cdof_local sys q) =
  Arr.slice (offset sys D l) (width D (typ sys l)) (map motion (dof sys)).
Proof.
  intros Hl Hf. unfold Dynamics.cdof_local.
  pose proof (shaped_dof sys Hshaped) as Hdof.
  rewrite link_types_slice; auto.
  2:{ intros t. apply cdof_fn_length. apply gather_length_type.
      now rewrite length_map. }
  unfold Dynamics.cdof_fn. rewrite Hf. unfold gather.
  destruct (type_rank_nth l Hl) as [Hr Hn].
  replace (width D (typ sys l)) with 6%nat at 1 2 by (cbn [width]; now rewrite Hf).
  rewrite (slice_uniform _ _ _ _ O); auto.
  - now rewrite Hn.
  - apply free_blocks; auto. now rewrite length_map.
Qed.

Lemma cdof_local_entry_free l a :
  (l < num_links sys)%nat -> is_free (typ sys l) = true -> (a < 6)%nat ->
  nth (offset sys D l + a) (Dynamics.cdof_local sys q) Motion_.zero =
  motion (dof_at sys (offset sys D l + a)).
Proof.
  intros Hl Hf Ha.
  assert (Hw : width D (typ sys l) = 6%nat) by (cbn [width]; now rewrite Hf).
  rewrite <- (slice_nth _ (width D (typ sys l))) by lia.
  rewrite cdof_local_block_free by auto.
  rewrite slice_nth by lia.
  apply (map_nth motion (dof sys) no_dof).
Qed.

Hypothesis Hqd : length qd = num_dofs sys.

(** The block of a free link in [cdofd]: nothing for the three leading
    dofs, and for the three trailing ones the cross product of the summed
    velocity of the leading dofs with the dof's own subspace. *)
Lemma cdofd_block_free l :
  (l < num_links sys)%nat -> is_free (typ sys l) = true ->
  Arr.slice (offset sys D l) (width D (typ sys l)) (Dynamics.cdofd sys q qd x) =
  map (fun _ => Motion_.zero)
      (firstn 3 (Arr.slice (offset sys D l) (width D (typ sys l))
                           (Dynamics.cdof sys q x)))
  ++ map (Motion_.cross
            (Motion_.sum
               (firstn 3 (Arr.slice (offset sys D l) (width D (typ sys l))
                                    (Dynamics.cdof_qd sys q qd x)))))
         (skipn 3 (Arr.slice (offset sys D l) (width D (typ sys l))
                             (Dynamics.cdof sys q x))).
Proof.
  intros Hl Hf.
  pose proof (shaped_dof sys Hshaped) as Hdof.
  unfold Dynamics.cdofd.
  rewrite link_types_slice by (auto; intros; now apply cdofd_lengths).
  unfold Dynamics.cdofd_fn. rewrite Hf. unfold gather.
  rewrite cdofd_free_blocks.
  2:{ apply free_blocks; auto. now apply cdof_length. }
  2:{ apply free_blocks; auto. now apply cdof_qd_length. }
  destruct (type_rank_nth l Hl) as [Hr Hn].
  replace (width D (typ sys l)) with 6%nat at 1 2 by (cbn [width]; now rewrite Hf).
  rewrite (slice_uniform _ _ _ _ O); auto.
  - now rewrite Hn.
  - intros k Hk. rewrite length_app, !length_map, <- length_app, firstn_skipn.
    apply (free_blocks _ (typ sys l)); auto. now apply cdof_length.
Qed.

Lemma cdofd_entry_free l a :
  (l < num_links sys)%nat -> is_free (typ sys l) = true -> (a < 6)%nat ->
  nth (offset sys D l + a) (Dynamics.cdofd sys q qd x) Motion_.zero =
  if (a <? 3)%nat then Motion_.zero
  else Motion_.cross
         (Motion_.sum
            (map (fun e => Motion_.scale (nth e (Dynamics.cdof sys q x) Motion_.zero)
                                         (nth e qd 0))
                 (seq (offset sys D l) 3)))
         (nth (offset sys D l + a) (Dynamics.cdof sys q x) Motion_.zero).
Proof.
  intros Hl Hf Ha.
  pose proof (shaped_dof sys Hshaped) as Hdof.
  assert (Hw : width D (typ sys l) = 6%nat) by (cbn [width]; now rewrite Hf).
  pose proof (cdof_length sys q x Hdof) as Hc.
  pose proof (cdof_qd_length sys q qd x Hdof Hqd) as Hcq.
  pose proof (offset_fits sys D l Hl) as Hfit. fold (num_dofs sys) in Hfit.
  rewrite <- (slice_nth _ (width D (typ sys l))) by lia.
  rewrite cdofd_block_free by auto. rewrite Hw.
  assert (H3 : length (firstn 3 (Arr.slice (offset sys D l) 6 (Dynamics.cdof sys q x)))
               = 3%nat).
  { rewrite length_firstn, slice_length by lia. reflexivity. }
  destruct (Nat.ltb_spec a 3) as [Hlt|Hge].
  - rewrite app_nth1 by (now rewrite length_map, H3).
    apply nth_map_const.
  - rewrite app_nth2 by (rewrite length_map, H3; lia).
    rewrite length_map, H3.
    rewrite (nth_map_in _ _ _ Motion_.zero Motion_.zero).
    2:{ rewrite length_skipn, slice_length by lia. lia. }
    rewrite nth_skipn, slice_nth by lia.
    replace (offset sys D l + (3 + (a - 3)))%nat with (offset sys D l + a)%nat by lia.
    f_equal. f_equal.
    unfold Arr.slice. rewrite firstn_firstn. cbn [Nat.min].
    fold (Arr.slice (offset sys D l) 3 (Dynamics.cdof_qd sys q qd x)).
    rewrite (slice_as_map _ _ _ Motion_.zero) by lia.
    apply map_ext_in. intros e He. apply in_seq in He.
    unfold Dynamics.cdof_qd.
    apply (map2_nth _ _ _ _ Motion_.zero 0); lia.
Qed.

End FreeJoints.

(** ** Stacked joints *)

Lemma column_stack_maps {X} (d : X) (G : nat -> nat -> X) ls ks :
  Arr.column_stack d (length ls) (map (fun a => map (G a) ls) ks) =
  flat_map (fun l => map (fun a => G a l) ks) ls.
Proof.
  unfold Arr.column_stack.
  rewrite <- (flat_map_nth_seq (fun l => map (fun a => G a l) ks) ls O).
  apply flat_map_ext_in. intros r Hr. apply in_seq in Hr.
  rewrite map_map. apply map_ext. intros a.
  now rewrite (nth_map_in _ _ _ d O) by lia.
Qed.

Lemma seq_add off w : seq off w = map (Nat.add off) (seq 0 w).
Proof.
  revert off; induction w as [|w IH]; intros off; simpl; [reflexivity|].
  f_equal; [lia|]. rewrite <- (seq_shift w 0), map_map, (IH (S off)).
  apply map_ext. intros; lia.
Qed.

Lemma firstn_seq_le a s w : (a <= w)%nat -> firstn a (seq s w) = seq s a.
Proof.
  revert s w; induction a as [|a IH]; intros s [|w] H; simpl; auto; try lia.
  f_equal. apply IH. lia.
Qed.

Lemma map2_slices {X Y W} (f : X -> Y -> W) offx offy w xs ys dx dy :
  (offx + w <= length xs)%nat -> (offy + w <= length ys)%nat ->
  Arr.map2 f (Arr.slice offx w xs) (Arr.slice offy w ys) =
  map (fun k => f (nth (offx + k) xs dx) (nth (offy + k) ys dy)) (seq 0 w).
Proof.
  intros Hx Hy.
  rewrite (slice_as_map offx w xs dx), (slice_as_map offy w ys dy) by auto.
  rewrite (seq_add offx), (seq_add offy).
  rewrite !map_map. apply map2_map_map.
Qed.

Section CdofLoop.
Context {A : Algebra}.
Variables (jrow : nat -> list Transform) (mrow : nat -> list Motion).
Variable ls : list nat.

Local Abbreviation prefix l a :=
  (fold_left do_transform (firstn a (jrow l)) Transform_.zero).

(** The state of the loop of [cdof_fn] after [k] axes: per link, the
    composed transform of the axes so far; per axis, the subspace vector
    seen through the inverse of the transform of the axes before it. *)
Lemma cdof_loop_spec w k :
  (forall l, In l ls -> length (jrow l) = w) -> (k <= w)%nat ->
  fold_left (Dynamics.cdof_step (map jrow ls) (map mrow ls)) (seq 0 k)
            (repeat Transform_.zero (length ls), []) =
  (map (fun l => prefix l k) ls,
   map (fun a =>
          map (fun l => do_motion (inv (prefix l a)) (nth a (mrow l) Motion_.zero)) ls)
       (seq 0 k)).
Proof.
  intros Hj. induction k as [|k IH]; intros Hk.
  - simpl. now rewrite map_const.
  - rewrite seq_S, fold_left_app, IH by lia. cbn [fold_left Nat.add].
    unfold Dynamics.cdof_step, Arr.column. f_equal.
    + rewrite map_map, map2_map_map. apply map_ext_in. intros l Hl.
      rewrite (firstn_S_nth (jrow l) k Transform_.zero) by (rewrite Hj; auto).
      now rewrite fold_left_app.
    + rewrite map_app. cbn [map]. do 2 f_equal.
      now rewrite !map_map, map2_map_map.
Qed.

End CdofLoop.

Section StackedJoints.
Context {A : Algebra}.
Variable sys : System.
Import Sys.

Lemma cdof_fn_stacked t ls (qblk : nat -> list R) (mblk : nat -> list Motion) :
  is_free t = false -> (1 <= int t)%nat ->
  (forall l, In l ls -> length (qblk l) = int t) ->
  (forall l, In l ls -> length (mblk l) = int t) ->
  Dynamics.cdof_fn t (flat_map qblk ls) (flat_map mblk ls) =
  flat_map
    (fun l =>
       map (fun a =>
              do_motion
                (inv (fold_left do_transform
                        (firstn a (Arr.map2 Spec.axis_transform (mblk l) (qblk l)))
                        Transform_.zero))
                (nth a (mblk l) Motion_.zero))
           (seq 0 (int t)))
    ls.
Proof.
  intros Hf Hw Hq Hm. unfold Dynamics.cdof_fn. rewrite Hf. cbv zeta.
  rewrite (flat_map_length_const mblk ls (int t)) by auto.
  rewrite Nat.div_mul by lia.
  change (fun (m : Motion) (qk : R) =>
            mkTransform (V3.mul (vel m) qk) (Dynamics.rot_fn (ang m) qk))
    with Spec.axis_transform.
  rewrite map2_flat_map by (intros l Hl; rewrite Hq, Hm; auto).
  rewrite (reshape_blocks _ ls (int t))
    by (intros l Hl; rewrite map2_length, Hq, Hm by auto; lia).
  rewrite (reshape_blocks mblk ls (int t)) by auto.
  rewrite (cdof_loop_spec _ mblk ls (int t))
    by (auto; intros l Hl; rewrite map2_length, Hq, Hm by auto; lia).
  apply (column_stack_maps Motion_.zero
           (fun a l =>
              do_motion
                (inv (fold_left do_transform
                        (firstn a (Arr.map2 Spec.axis_transform (mblk l) (qblk l)))
                        Transform_.zero))
                (nth a (mblk l) Motion_.zero))).
Qed.

Variable q : list R.
Hypothesis Hshaped : shaped sys = true.
Hypothesis Hq : length q = num_q sys.

(** The local subspace of axis [a] of a stacked joint: the row of
    [sys.dof.motion] seen through the inverse of the transform that the axes
    before it make at the coordinates [q]. *)
Lemma cdof_local_entry_stacked l a :
  (l < num_links sys)%nat -> is_free (typ sys l) = false ->
  (a < int (typ sys l))%nat ->
  nth (offset sys D l + a) (Dynamics.cdof_local sys q) Motion_.zero =
  do_motion (inv (Spec.joint_prefix sys q l a))
            (motion (dof_at sys (offset sys D l + a))).
Proof.
  intros Hl Hf Ha.
  pose proof (shaped_dof sys Hshaped) as Hdof.
  pose proof (supported_stacked _ (shaped_supported sys Hshaped l Hl) Hf) as Hw.
  set (t := typ sys l) in *.
  assert (HwD : width D t = int t) by (cbn [width]; now rewrite Hf).
  assert (HwQ : width Q t = int t) by (cbn [width]; now rewrite Hf).
  pose proof (offset_fits sys D l Hl) as HfitD. fold (num_dofs sys) in HfitD.
  pose proof (offset_fits sys Q l Hl) as HfitQ. fold (num_q sys) in HfitQ.
  fold t in HfitD, HfitQ.
  rewrite <- (slice_nth _ (width D t)) by lia.
  unfold Dynamics.cdof_local.
  rewrite link_types_slice; auto.
  2:{ intros t'. apply cdof_fn_length. apply gather_length_type.
      now rewrite length_map. }
  fold t. unfold gather.
  rewrite (flat_map_ext_in
             (fun k => Arr.slice (offset sys Q k) (width Q (typ sys k)) q)
             (fun k => Arr.slice (offset sys Q k) (width Q t) q))
    by (intros k Hk; now rewrite (links_of_type_typ sys t k Hk)).
  rewrite (flat_map_ext_in
             (fun k => Arr.slice (offset sys D k) (width D (typ sys k))
                                 (map motion (dof sys)))
             (fun k => Arr.slice (offset sys D k) (width D t) (map motion (dof sys))))
    by (intros k Hk; now rewrite (links_of_type_typ sys t k Hk)).
  assert (Hblk : forall X (xs : list X) kd k,
             length xs = offset sys kd (num_links sys) -> width kd t = int t ->
             In k (links_of_type sys t) ->
             length (Arr.slice (offset sys kd k) (width kd t) xs) = int t).
  { intros X xs kd k Hxs Hkd Hk. rewrite <- Hkd.
    rewrite <- (links_of_type_typ sys t k Hk).
    apply gather_slice_length; auto. eapply links_of_type_lt; eauto. }
  rewrite cdof_fn_stacked; auto; try lia;
    try (intros k Hk; apply Hblk; auto; now rewrite length_map).
  destruct (filter_rank_nth (fun k => Ascii.eqb (typ sys k) t)
              (num_links sys) l O) as [Hr Hn]; [lia | apply Ascii.eqb_refl |].
  cbv zeta in Hr, Hn.
  unfold type_rank. fold t. rewrite HwD.
  rewrite (slice_uniform _ _ _ _ O);
    [ | intros k Hk; now rewrite length_map, length_seq | exact Hr ].
  unfold links_of_type. rewrite Hn.
  rewrite (nth_map_in _ _ _ Motion_.zero O) by (now rewrite length_seq).
  rewrite seq_nth by exact Ha. cbn [Nat.add].
  rewrite slice_nth by lia.
  rewrite (map_nth motion (dof sys) no_dof). fold (dof_at sys (offset sys D l + a)).
  f_equal. f_equal. unfold Spec.joint_prefix. f_equal.
  rewrite HwQ.
  rewrite (map2_slices _ _ _ _ _ _ Motion_.zero 0)
    by (rewrite ?length_map; lia).
  rewrite firstn_map, firstn_seq_le by lia.
  apply map_ext. intros k.
  now rewrite (map_nth motion (dof sys) no_dof).
Qed.

End StackedJoints.

(** ** The force on the root *)

Ltac force_eq :=
  repeat match goal with
         | f : Force |- _ => destruct f
         | v : Vec3 |- _ => destruct v
         end;
  unfold Force_.add, Force_.zero, V3.add, V3.zero in *; simpl in *;
  repeat match goal with
         | H : mkForce _ _ = mkForce _ _ |- _ => injection H as ? ?
         | H : mkVec3 _ _ _ = mkVec3 _ _ _ |- _ => injection H as ? ? ?
         end;
  repeat match goal with
         | |- mkForce _ _ = mkForce _ _ => f_equal
         | |- mkVec3 _ _ _ = mkVec3 _ _ _ => f_equal
         end;
  try lra.

Section ForceSums.

Lemma force_add_assoc a b c :
  Force_.add (Force_.add a b) c = Force_.add a (Force_.add b c).
Proof. force_eq. Qed.

Lemma force_add_swap a b c d :
  Force_.add (Force_.add a b) (Force_.add c d) =
  Force_.add (Force_.add a c) (Force_.add b d).
Proof. force_eq. Qed.

Lemma force_add_cancel a b r : Force_.add a r = Force_.add b r -> a = b.
Proof. intros H. force_eq. Qed.

Lemma force_add_zero_l f : Force_.add Force_.zero f = f.
Proof. force_eq. Qed.

Lemma force_add_zero_right f : Force_.add f Force_.zero = f.
Proof. force_eq. Qed.

Lemma fsum_ext n f g :
  (forall k, (k < n)%nat -> f k = g k) -> Spec.fsum n f = Spec.fsum n g.
Proof.
  induction n as [|n IH]; intros E; simpl; auto.
  rewrite IH, E by (auto; intros; apply E; lia). reflexivity.
Qed.

Lemma fsum_zero n : Spec.fsum n (fun _ => Force_.zero) = Force_.zero.
Proof. induction n as [|n IH]; simpl; auto. rewrite IH. apply force_add_zero_l. Qed.

Lemma fsum_add n f g :
  Spec.fsum n (fun k => Force_.add (f k) (g k)) =
  Force_.add (Spec.fsum n f) (Spec.fsum n g).
Proof.
  induction n as [|n IH]; simpl.
  - symmetry. apply force_add_zero_l.
  - rewrite IH. apply force_add_swap.
Qed.

Lemma fsum_exchange n m (g : nat -> nat -> Force) :
  Spec.fsum n (fun l => Spec.fsum m (fun c => g l c)) =
  Spec.fsum m (fun c => Spec.fsum n (fun l => g l c)).
Proof.
  induction n as [|n IH]; simpl.
  - symmetry. apply fsum_zero.
  - now rewrite IH, <- fsum_add.
Qed.

(** A sum over the members of a range that pass a test. *)
Lemma fold_filter_fsum (P : nat -> bool) (F : nat -> Force) n :
  fold_left Force_.add (map F (filter P (seq 0 n))) Force_.zero =
  Spec.fsum n (fun c => if P c then F c else Force_.zero).
Proof.
  induction n as [|n IH]; [reflexivity|].
  rewrite seq_S, filter_app, map_app, fold_left_app, IH.
  cbn [Nat.add filter Spec.fsum].
  destruct (P n); cbn [map fold_left]; auto.
  symmetry. apply force_add_zero_right.
Qed.

(** Among the indices below [n], only [p] itself passes the test of being
    equal to [p]. *)
Lemma fsum_indicator n (p : Z) y :
  Spec.fsum n (fun l => if (p =? Z.of_nat l)%Z then y else Force_.zero) =
  if ((0 <=? p)%Z && (p <? Z.of_nat n)%Z)%bool then y else Force_.zero.
Proof.
  induction n as [|n IH].
  - simpl. destruct (0 <=? p)%Z eqn:E0, (p <? 0)%Z eqn:E1; auto. lia.
  - cbn [Spec.fsum]. rewrite IH.
    destruct (Z.eqb_spec p (Z.of_nat n)) as [->|Hne].
    + replace (Z.of_nat n <? Z.of_nat n)%Z with false by (symmetry; apply Z.ltb_ge; lia).
      replace (0 <=? Z.of_nat n)%Z with true by (symmetry; apply Z.leb_le; lia).
      replace (Z.of_nat n <? Z.of_nat (S n))%Z with true
        by (symmetry; apply Z.ltb_lt; lia).
      apply force_add_zero_l.
    + rewrite force_add_zero_right.
      destruct (0 <=? p)%Z; auto. cbn [andb].
      destruct (Z.ltb_spec p (Z.of_nat n)), (Z.ltb_spec p (Z.of_nat (S n)));
        auto; lia.
Qed.

(** Splitting the first term off a sum. *)
Lemma fsum_head n F :
  Spec.fsum (S n) F =
  Force_.add (F O) (Spec.fsum (S n) (fun c => if (c =? 0)%nat then Force_.zero else F c)).
Proof.
  induction n as [|n IH].
  - simpl. force_eq.
  - change (Spec.fsum (S (S n)) F) with (Force_.add (Spec.fsum (S n) F) (F (S n))).
    rewrite IH. cbn [Spec.fsum Nat.eqb]. apply force_add_assoc.
Qed.

End ForceSums.

Section RootForce.
Context {A : Algebra}.
Variable sys : System.
Import Sys.
Variables (qd : list R) (cinr : list Inertia) (cd cdofd : list Motion).
Hypothesis Htree : rooted_tree sys = true.
Hypothesis Hcinr : length cinr = num_links sys.
Hypothesis Hcd : length cd = num_links sys.

Local Abbreviation F :=
  (fun l => nth l (Dynamics.cfrc sys qd cinr cd cdofd) Force_.zero).
Local Abbreviation f :=
  (fun l => nth l (Dynamics.cfrc_flat sys qd cinr cd cdofd) Force_.zero).

(** The accumulated forces of all links but the root are the accumulated
    forces of all the children. *)
Lemma children_total :
  Spec.fsum (num_links sys)
    (fun l => fold_left Force_.add (map F (Spec.children sys l)) Force_.zero) =
  Spec.fsum (num_links sys) (fun c => if (c =? 0)%nat then Force_.zero else F c).
Proof.
  transitivity
    (Spec.fsum (num_links sys)
       (fun l => Spec.fsum (num_links sys)
          (fun c => if (parent sys c =? Z.of_nat l)%Z then F c else Force_.zero))).
  { apply fsum_ext. intros l _. unfold Spec.children. apply fold_filter_fsum. }
  rewrite fsum_exchange. apply fsum_ext. intros c Hc.
  rewrite fsum_indicator.
  destruct (tree_parent sys Htree c Hc) as (Hlt & H0 & Hpos).
  destruct (Nat.eqb_spec c O) as [->|Hn].
  - rewrite (H0 eq_refl). reflexivity.
  - specialize (Hpos Hn).
    replace (0 <=? parent sys c)%Z with true by (symmetry; apply Z.leb_le; lia).
    replace (parent sys c <? Z.of_nat (num_links sys))%Z with true
      by (symmetry; apply Z.ltb_lt; lia).
    reflexivity.
Qed.

(** The force accumulated at the root is the sum of the forces of all the
    links. *)
Lemma cfrc_root_total :
  nth O (Dynamics.cfrc sys qd cinr cd cdofd) Force_.zero =
  Spec.fsum (num_links sys) f.
Proof.
  pose proof (tree_nonempty sys Htree) as Hn.
  pose proof (fsum_head (num_links sys - 1) F) as Hh. cbv beta in Hh.
  replace (S (num_links sys - 1)) with (num_links sys) in Hh by lia.
  apply (force_add_cancel _ _
           (Spec.fsum (num_links sys)
              (fun c => if (c =? 0)%nat then Force_.zero else F c))).
  rewrite <- Hh, <- children_total, <- fsum_add.
  apply fsum_ext. intros l Hl.
  now apply cfrc_entry.
Qed.

End RootForce.

(** ** A mechanism at rest under gravity *)

Lemma nth_all {X} (z : X) k xs : Forall (eq z) xs -> nth k xs z = z.
Proof.
  intros H. destruct (Nat.lt_ge_cases k (length xs)) as [Hk|Hk].
  - rewrite Forall_forall in H. symmetry. apply H. now apply nth_In.
  - now apply nth_overflow.
Qed.

Lemma motion_add_zero_r m : Motion_.add m Motion_.zero = m.
Proof. v3. Qed.

Lemma motion_cross_zero_l m : Motion_.cross Motion_.zero m = Motion_.zero.
Proof. v3r. Qed.

Section RestGravity.
Context {A : Algebra}.
Variable sys : System.
Import Sys.
Variables (qd : list R) (cdofd : list Motion).
Hypothesis Htree : rooted_tree sys = true.
Hypothesis Hqd : length qd = num_dofs sys.
Hypothesis Hcdofd : length cdofd = num_dofs sys.

Lemma cdd_entry l :
  (l < num_links sys)%nat ->
  nth l (Dynamics.cdd sys qd cdofd) Motion_.zero =
  fold_left Motion_.add
    (map (fun e => Motion_.scale (nth e cdofd Motion_.zero) (nth e qd 0))
         (seq (offset sys D l) (width D (typ sys l))))
    (if (l =? 0)%nat then Motion_.create_vel (V3.neg (gravity sys))
     else nth (Z.to_nat (parent sys l)) (Dynamics.cdd sys qd cdofd) Motion_.zero).
Proof.
  intros Hl. unfold Dynamics.cdd.
  apply (tree_entry sys Htree Motion_.zero
           (Motion_.create_vel (V3.neg (gravity sys))) Motion_.add)
    with (block := fun k =>
            map (fun e => Motion_.scale (nth e cdofd Motion_.zero) (nth e qd 0))
                (seq (offset sys D k) (width D (typ sys k))));
    auto.
  - intros k Hk. now rewrite length_map, length_seq.
  - intros c ls Hls. now apply cdd_fn_scatter.
Qed.

Hypothesis Hrest : Forall (eq 0) qd.

Lemma rest_block (cs : list Motion) es base :
  fold_left Motion_.add
    (map (fun e => Motion_.scale (nth e cs Motion_.zero) (nth e qd 0)) es) base = base.
Proof.
  revert base; induction es as [|e es IH]; intros base; simpl; auto.
  rewrite (nth_all 0 e qd Hrest), motion_scale_zero, motion_add_zero_r. apply IH.
Qed.

(** At rest every link has the acceleration of the seed. *)
Lemma cdd_at_rest l :
  (l < num_links sys)%nat ->
  nth l (Dynamics.cdd sys qd cdofd) Motion_.zero =
  Motion_.create_vel (V3.neg (gravity sys)).
Proof.
  induction l as [l IH] using lt_wf_ind. intros Hl.
  rewrite cdd_entry, rest_block by exact Hl.
  destruct (Nat.eqb_spec l O) as [->|Hn]; auto.
  pose proof (parent_lt sys Htree l Hl Hn).
  apply IH; lia.
Qed.

Lemma cdd_length : length (Dynamics.cdd sys qd cdofd) = num_links sys.
Proof. unfold Dynamics.cdd, Scan.tree. now rewrite length_map, length_seq. Qed.

Context {Laws : AlgebraLaws A}.

(** At rest the force on a link is its inertia applied to the seed. *)
Lemma cfrc_flat_at_rest cinr cd l :
  length cinr = num_links sys -> length cd = num_links sys ->
  Forall (eq Motion_.zero) cd ->
  (l < num_links sys)%nat ->
  nth l (Dynamics.cfrc_flat sys qd cinr cd cdofd) Force_.zero =
  mul (nth l cinr no_inertia) (Motion_.create_vel (V3.neg (gravity sys))).
Proof.
  intros Hcinr Hcd Hz Hl. unfold Dynamics.cfrc_flat.
  rewrite (map2_nth _ _ _ _ no_inertia (Motion_.zero, Motion_.zero))
    by (rewrite ?length_combine, ?cdd_length; lia).
  rewrite combine_nth by (now rewrite cdd_length).
  rewrite cdd_at_rest, (nth_all Motion_.zero l cd Hz) by exact Hl.
  unfold Dynamics.frc. rewrite mul_zero, cross_force_zero.
  apply force_add_zero_right.
Qed.

End RestGravity.

(** ** The subspace of a dof in the frame at the centre of mass *)

Section CdofEntry.
Context {A : Algebra}.
Variable sys : System.
Import Sys.
Variables (q : list R) (x : list Transform).
Hypothesis Hshaped : shaped sys = true.

Lemma j_length : length (Dynamics.j sys x) = num_links sys.
Proof.
  unfold Dynamics.j, Arr.take. rewrite !map2_length, !length_map.
  rewrite (pidx_length sys (shaped_parents sys Hshaped)), (shaped_link sys Hshaped).
  lia.
Qed.

Lemma take_dof_link {X} (xs : list X) d l a :
  length xs = num_links sys ->
  (l < num_links sys)%nat -> (a < width D (typ sys l))%nat ->
  nth (offset sys D l + a) (Arr.take d xs (dof_link sys)) d = nth l xs d.
Proof.
  intros Hxs Hl Ha. unfold Arr.take.
  pose proof (offset_fits sys D l Hl) as Hfit. fold (num_dofs sys) in Hfit.
  rewrite (nth_map_in _ _ _ d 0%Z) by (rewrite dof_link_length; lia).
  rewrite dof_link_nth by auto.
  now rewrite wrap_small by lia.
Qed.

(** Each local subspace vector is turned by the rotation of the joint
    frame of the dof's link and carried to the centre of mass. *)
Lemma cdof_entry l a :
  (l < num_links sys)%nat -> (a < width D (typ sys l))%nat ->
  let e := (offset sys D l + a)%nat in
  let jl := nth l (Dynamics.j sys x) Transform_.zero in
  let m := nth e (Dynamics.cdof_local sys q) Motion_.zero in
  nth e (Dynamics.cdof sys q x) Motion_.zero =
  do_motion (Transform_.create_pos (V3.sub (Dynamics.com sys x) (pos jl)))
            (Motion_.replace_ang m (rotate (ang m) (rot jl))).
Proof.
  intros Hl Ha e jl m.
  pose proof (shaped_dof sys Hshaped) as Hdof.
  pose proof (offset_fits sys D l Hl) as Hfit. fold (num_dofs sys) in Hfit.
  pose proof (cdof_local_length sys q Hdof) as Hloc.
  assert (He : (e < num_dofs sys)%nat) by (unfold e; lia).
  unfold Dynamics.cdof, Dynamics.cdof_rotated.
  rewrite (map2_nth _ _ _ _ Transform_.zero Motion_.zero).
  2:{ unfold Arr.take. now rewrite length_map, dof_link_length. }
  2:{ rewrite map2_length. unfold Arr.take.
      rewrite length_map, dof_link_length, Hloc. lia. }
  rewrite (map2_nth _ _ _ _ Motion_.zero Transform_.zero).
  2:{ now rewrite Hloc. }
  2:{ unfold Arr.take. now rewrite length_map, dof_link_length. }
  unfold e. rewrite (take_dof_link (Dynamics.j sys x)) by (auto using j_length).
  fold e m jl. f_equal.
  transitivity
    (nth l (map (fun t => Transform_.create_pos (V3.sub (Dynamics.com sys x) (pos t)))
                (Dynamics.j sys x))
         Transform_.zero).
  - unfold e. apply take_dof_link; auto. now rewrite length_map, j_length.
  - unfold jl.
    apply (nth_map_in
             (fun t => Transform_.create_pos (V3.sub (Dynamics.com sys x) (pos t)))).
    now rewrite j_length.
Qed.

End CdofEntry.

(** ** Superposition in the passive force *)

Lemma nth_combination c (xs ys : list R) k :
  length xs = length ys ->
  nth k (Arr.map2 Rplus (map (Rmult c) xs) ys) 0 = c * nth k xs 0 + nth k ys 0.
Proof.
  intros H. destruct (Nat.lt_ge_cases k (length xs)) as [Hk|Hk].
  - rewrite (map2_nth _ _ _ _ 0 0) by (rewrite ?length_map; lia).
    now rewrite (nth_map_in _ _ _ 0 0) by lia.
  - rewrite !nth_overflow; try lia; try ring.
    rewrite map2_length, length_map. lia.
Qed.

Section PassiveLinear.
Context {A : Algebra}.
Variable sys : System.
Import Sys.
Hypothesis Hdof : length (dof sys) = num_dofs sys.

Lemma passive_linear c q1 q2 qd1 qd2 :
  length q1 = num_q sys -> length q2 = num_q sys ->
  length qd1 = num_dofs sys -> length qd2 = num_dofs sys ->
  Dynamics._passive sys (Arr.map2 Rplus (map (Rmult c) q1) q2)
                        (Arr.map2 Rplus (map (Rmult c) qd1) qd2) =
  Arr.map2 Rplus (map (Rmult c) (Dynamics._passive sys q1 qd1))
                 (Dynamics._passive sys q2 qd2).
Proof.
  intros H1 H2 Hd1 Hd2.
  assert (Hq : length (Arr.map2 Rplus (map (Rmult c) q1) q2) = num_q sys)
    by (rewrite map2_length, length_map; lia).
  assert (Hqd : length (Arr.map2 Rplus (map (Rmult c) qd1) qd2) = num_dofs sys)
    by (rewrite map2_length, length_map; lia).
  pose proof (passive_length sys _ H1 Hdof _ Hd1) as L1.
  pose proof (passive_length sys _ H2 Hdof _ Hd2) as L2.
  apply (nth_ext _ _ 0 0).
  - rewrite (passive_length sys _ Hq Hdof _ Hqd), map2_length, length_map. lia.
  - rewrite (passive_length sys _ Hq Hdof _ Hqd). intros e He.
    rewrite nth_combination by lia.
    destruct (index_decompose sys D e He) as (l & a & Hl & Ha & ->).
    rewrite (passive_entry sys _ Hq Hdof _ l a Hqd Hl Ha).
    rewrite (passive_entry sys _ H1 Hdof _ l a Hd1 Hl Ha).
    rewrite (passive_entry sys _ H2 Hdof _ l a Hd2 Hl Ha).
    rewrite !nth_combination by lia.
    destruct (in_fb (typ sys l)); ring.
Qed.

End PassiveLinear.

(** ** Link velocities of a sum of joint velocities *)

Lemma nth_sum (xs ys : list R) k :
  length xs = length ys ->
  nth k (Arr.map2 Rplus xs ys) 0 = nth k xs 0 + nth k ys 0.
Proof.
  intros H. destruct (Nat.lt_ge_cases k (length xs)) as [Hk|Hk].
  - apply (map2_nth _ _ _ _ 0 0); lia.
  - rewrite !nth_overflow; try lia; try ring.
    rewrite map2_length. lia.
Qed.

Lemma motion_add_swap a b c d :
  Motion_.add (Motion_.add a b) (Motion_.add c d) =
  Motion_.add (Motion_.add a c) (Motion_.add b d).
Proof. v3. Qed.

Lemma motion_scale_plus m a b :
  Motion_.scale m (a + b) = Motion_.add (Motion_.scale m a) (Motion_.scale m b).
Proof. v3r. Qed.

Lemma fold_add_pairs {X} (f g : X -> Motion) es b1 b2 :
  fold_left Motion_.add (map (fun e => Motion_.add (f e) (g e)) es)
            (Motion_.add b1 b2) =
  Motion_.add (fold_left Motion_.add (map f es) b1)
              (fold_left Motion_.add (map g es) b2).
Proof.
  revert b1 b2; induction es as [|e es IH]; intros b1 b2; simpl; auto.
  now rewrite motion_add_swap, IH.
Qed.

Section VelocitySum.
Context {A : Algebra}.
Variable sys : System.
Import Sys.
Variables (q qd1 qd2 : list R) (x : list Transform).
Hypothesis Hshaped : shaped sys = true.
Hypothesis Htree : rooted_tree sys = true.
Hypothesis Hqd1 : length qd1 = num_dofs sys.
Hypothesis Hqd2 : length qd2 = num_dofs sys.

Lemma cd_sum_entry l :
  (l < num_links sys)%nat ->
  nth l (Dynamics.cd sys q (Arr.map2 Rplus qd1 qd2) x) Motion_.zero =
  Motion_.add (nth l (Dynamics.cd sys q qd1 x) Motion_.zero)
              (nth l (Dynamics.cd sys q qd2 x) Motion_.zero).
Proof.
  assert (H12 : length (Arr.map2 Rplus qd1 qd2) = num_dofs sys)
    by (rewrite map2_length; lia).
  induction l as [l IH] using lt_wf_ind. intros Hl.
  rewrite (cd_velocity_entry sys q _ x Hshaped l Htree H12 Hl).
  rewrite (cd_velocity_entry sys q _ x Hshaped l Htree Hqd1 Hl).
  rewrite (cd_velocity_entry sys q _ x Hshaped l Htree Hqd2 Hl).
  rewrite <- fold_add_pairs. f_equal.
  - apply map_ext. intros e.
    rewrite nth_sum by lia. apply motion_scale_plus.
  - destruct (Nat.eqb_spec l O) as [->|Hn].
    + symmetry. apply motion_add_zero.
    + pose proof (parent_lt sys Htree l Hl Hn). apply IH; lia.
Qed.

Lemma cd_sum :
  Dynamics.cd sys q (Arr.map2 Rplus qd1 qd2) x =
  Arr.map2 Motion_.add (Dynamics.cd sys q qd1 x) (Dynamics.cd sys q qd2 x).
Proof.
  assert (Hlen : forall qd, length (Dynamics.cd sys q qd x) = num_links sys).
  { intros qd. unfold Dynamics.cd, Scan.tree. now rewrite length_map, length_seq. }
  apply (nth_ext _ _ Motion_.zero Motion_.zero).
  - rewrite map2_length, !Hlen. lia.
  - rewrite Hlen. intros l Hl.
    rewrite (map2_nth _ _ _ _ Motion_.zero Motion_.zero) by (rewrite Hlen; lia).
    now apply cd_sum_entry.
Qed.

End VelocitySum.

(** ** Cancelling the bias and passive forces *)

Section Cancellation.
Context {A : Algebra}.
Variable sys : System.
Import Sys.
Variables (q qd : list R) (cinr : list Inertia) (cd cdof cdofd : list Motion).
Hypothesis Hq : length q = num_q sys.
Hypothesis Hqd : length qd = num_dofs sys.
Hypothesis Hdof : length (dof sys) = num_dofs sys.
Hypothesis Hcdof : length cdof = num_dofs sys.

Lemma forward_cancels :
  Dynamics.forward sys q qd cinr cd cdof cdofd
    (Arr.map2 Rminus (Dynamics.inverse sys qd cinr cd cdof cdofd)
                     (Dynamics._passive sys q qd)) =
  repeat 0 (num_dofs sys).
Proof.
  pose proof (passive_length sys q Hq Hdof qd Hqd) as Hp.
  pose proof (inverse_length sys qd cinr cd cdof cdofd Hcdof) as Hi.
  assert (Htau : length (Arr.map2 Rminus
                           (Dynamics.inverse sys qd cinr cd cdof cdofd)
                           (Dynamics._passive sys q qd)) = num_dofs sys)
    by (rewrite map2_length; lia).
  apply (nth_ext _ _ 0 0).
  - rewrite forward_length, repeat_length; auto.
  - rewrite forward_length by auto. intros e He.
    rewrite forward_nth by auto.
    rewrite (map2_nth _ _ _ _ 0 0) by lia.
    rewrite nth_repeat_lt by exact He. ring.
Qed.

End Cancellation.

(** ** The claims *)

(** C1. The [com] returned by [transform_com] is the mass-weighted average
    of the world positions of the links' centres of mass,
    [sum_l (mass_l * worldpos_l) / sum_l mass_l], whatever the pose; when the
    total mass is not zero it is the point about which the mass-weighted
    offsets of the links cancel. *)
Theorem C1_com_weighted_average (A : Algebra) (sys : System)
    (q qd : list R) (x : list Transform) :
  length x = length (link sys) ->
  let '(com, _, _, _, _) := Dynamics.transform_com sys q qd x in
  com = Spec.weighted_average (length (link sys)) (Spec.mass_of sys)
                              (Spec.world_pos sys x)
  /\ (Spec.rsum (length (link sys)) (Spec.mass_of sys) <> 0 ->
      Spec.vsum (length (link sys))
        (fun l => V3.scale (Spec.mass_of sys l)
                           (V3.sub (Spec.world_pos sys x l) com))
      = V3.zero).
Proof.
  intros Hx. unfold Dynamics.transform_com. split.
  - now apply com_formula.
  - now apply com_balances.
Qed.

Lemma C1_witness :
  Dynamics.com (A := Concrete.algebra) (Sample.chain Sample.earth) Sample.x_rest =
  Spec.weighted_average 2
    (Spec.mass_of (Sample.chain Sample.earth))
    (Spec.world_pos (A := Concrete.algebra) (Sample.chain Sample.earth) Sample.x_rest).
Proof.
  exact (proj1 (C1_com_weighted_average Concrete.algebra (Sample.chain Sample.earth)
                  Sample.q_rest Sample.qd_spin Sample.x_rest eq_refl)).
Defined.

(** C2. [forward] returns, dof by dof, the passive force minus the bias
    force of [inverse] plus the supplied [tau]: the net generalized force,
    with no other operation applied to it. *)
Theorem C2_forward_net_force (A : Algebra) (sys : System) (q qd : list R)
    (cinr : list Inertia) (cd cdof cdofd : list Motion) (tau : list R) :
  length q = Sys.num_q sys ->
  length qd = Sys.num_dofs sys ->
  length (dof sys) = Sys.num_dofs sys ->
  length cdof = Sys.num_dofs sys ->
  length tau = Sys.num_dofs sys ->
  length (Dynamics.forward sys q qd cinr cd cdof cdofd tau) = Sys.num_dofs sys /\
  forall e, (e < Sys.num_dofs sys)%nat ->
    nth e (Dynamics.forward sys q qd cinr cd cdof cdofd tau) 0 =
    nth e (Dynamics._passive sys q qd) 0
    - nth e (Dynamics.inverse sys qd cinr cd cdof cdofd) 0
    + nth e tau 0.
Proof.
  intros Hq Hqd Hdof Hcdof Htau. split.
  - now apply forward_length.
  - intros e He. now apply forward_nth.
Qed.

Lemma C2_witness :
  nth 0 (Dynamics.forward (A := Concrete.algebra) (Sample.chain Sample.earth)
           Sample.q_rest Sample.qd_spin Sample.cinr Sample.cd Sample.cdof Sample.cdofd
           [7; 9]) 0 =
  nth 0 (Dynamics._passive (A := Concrete.algebra) (Sample.chain Sample.earth)
           Sample.q_rest Sample.qd_spin) 0
  - nth 0 (Dynamics.inverse (A := Concrete.algebra) (Sample.chain Sample.earth)
             Sample.qd_spin Sample.cinr Sample.cd Sample.cdof Sample.cdofd) 0
  + nth 0 [7; 9] 0.
Proof.
  refine (proj2 (C2_forward_net_force Concrete.algebra (Sample.chain Sample.earth)
                   Sample.q_rest Sample.qd_spin Sample.cinr Sample.cd Sample.cdof Sample.cdofd
                   [7; 9] _ _ _ _ _) 0%nat _).
  - reflexivity.
  - reflexivity.
  - reflexivity.
  - reflexivity.
  - reflexivity.
  - vm_compute. lia.
Defined.




(** C4 (amended). For a stacked joint and each of its axes [a], the [cdofd]
    of the axis is the spatial cross product of the axis's effective
    velocity with its own subspace vector, the effective velocity being the
    velocity of the parent link (zero above the root) plus the running sum of
    [cdof_e * qd_e] over the preceding axes of the joint. *)
Theorem C4_stacked_subspace_rate (A : Algebra) (sys : System)
    (q qd : list R) (x : list Transform) (l a : nat) :
  Sys.shaped sys = true ->
  length qd = Sys.num_dofs sys ->
  (l < Sys.num_links sys)%nat ->
  (-1 <= Sys.parent sys l < Z.of_nat (Sys.num_links sys))%Z ->
  Sys.is_free (Sys.typ sys l) = false ->
  (a < Sys.int (Sys.typ sys l))%nat ->
  let '(_, _, cd, cdof, cdofd) := Dynamics.transform_com sys q qd x in
  nth (Sys.offset sys Sys.D l + a) cdofd Motion_.zero =
  Motion_.cross
    (Spec.running_velocity (Spec.parent_velocity sys cd l) cdof qd
                           (Sys.offset sys Sys.D l) a)
    (nth (Sys.offset sys Sys.D l + a) cdof Motion_.zero).
Proof.
  intros Hshaped Hqd Hl Hp Hf Ha. unfold Dynamics.transform_com.
  now apply cdofd_entry_stacked.
Qed.

Lemma C4_witness :
  nth 1 (Dynamics.cdofd (A := Concrete.algebra) (Sample.chain Sample.earth)
                        Sample.q_rest Sample.qd_spin Sample.x_rest) Motion_.zero =
  Motion_.cross
    (Spec.running_velocity
       (Spec.parent_velocity (Sample.chain Sample.earth)
          (Dynamics.cd (A := Concrete.algebra) (Sample.chain Sample.earth)
                       Sample.q_rest Sample.qd_spin Sample.x_rest) 1)
       (Dynamics.cdof (A := Concrete.algebra) (Sample.chain Sample.earth)
                      Sample.q_rest Sample.x_rest)
       Sample.qd_spin 1 0)
    (nth 1 (Dynamics.cdof (A := Concrete.algebra) (Sample.chain Sample.earth)
                          Sample.q_rest Sample.x_rest) Motion_.zero).
Proof.
  refine (C4_stacked_subspace_rate Concrete.algebra (Sample.chain Sample.earth)
            Sample.q_rest Sample.qd_spin Sample.x_rest 1 0 _ _ _ _ _ _).
  - reflexivity.
  - reflexivity.
  - unfold Sys.num_links. simpl. lia.
  - unfold Sys.num_links, Sys.parent. simpl. lia.
  - reflexivity.
  - vm_compute. lia.
Defined.

(** C4, as stated, fails: with the running sum started from zero, the rate
    of the second hinge of a chain whose first hinge is turning would
    vanish, and it does not. *)
Lemma C4_counterexample :
  nth 1 (Dynamics.cdofd (A := Concrete.algebra) (Sample.chain Sample.earth)
                        Sample.q_rest Sample.qd_spin Sample.x_rest) Motion_.zero <>
  Motion_.cross
    (Spec.running_velocity Motion_.zero
       (Dynamics.cdof (A := Concrete.algebra) (Sample.chain Sample.earth)
                      Sample.q_rest Sample.x_rest)
       Sample.qd_spin 1 0)
    (nth 1 (Dynamics.cdof (A := Concrete.algebra) (Sample.chain Sample.earth)
                          Sample.q_rest Sample.x_rest) Motion_.zero).
Proof.
  intros H. apply (f_equal (fun m => vy (ang m))) in H.
  real_eval in H. lra.
Qed.

(** C5. In [inverse], the forward tree scan gives every link the spatial
    acceleration of its parent plus the indexed sum, over the dofs of the
    link, of [cdofd_e * qd_e]; the parent value of the root is the seed whose
    angular part is zero and whose linear part is [-gravity]. *)
Theorem C5_acceleration_scan (A : Algebra) (sys : System)
    (qd : list R) (cdofd : list Motion) (l : nat) :
  Sys.rooted_tree sys = true ->
  length qd = Sys.num_dofs sys ->
  length cdofd = Sys.num_dofs sys ->
  (l < Sys.num_links sys)%nat ->
  nth l (Dynamics.cdd sys qd cdofd) Motion_.zero =
  fold_left Motion_.add
    (map (fun e => Motion_.scale (nth e cdofd Motion_.zero) (nth e qd 0))
         (seq (Sys.offset sys Sys.D l) (Sys.width Sys.D (Sys.typ sys l))))
    (if (l =? 0)%nat then mkMotion V3.zero (V3.neg (gravity sys))
     else nth (Z.to_nat (Sys.parent sys l)) (Dynamics.cdd sys qd cdofd) Motion_.zero).
Proof.
  intros Htree Hqd Hcdofd Hl. unfold Dynamics.cdd.
  apply (tree_entry sys Htree Motion_.zero
           (Motion_.create_vel (V3.neg (gravity sys))) Motion_.add)
    with (block := fun k =>
            map (fun e => Motion_.scale (nth e cdofd Motion_.zero) (nth e qd 0))
                (seq (Sys.offset sys Sys.D k) (Sys.width Sys.D (Sys.typ sys k))));
    auto.
  - intros k Hk. now rewrite length_map, length_seq.
  - intros c ls Hls. now apply cdd_fn_scatter.
Qed.

Lemma C5_witness :
  nth 1 (Dynamics.cdd (A := Concrete.algebra) (Sample.chain Sample.earth)
                      Sample.qd_spin Sample.cdofd) Motion_.zero =
  fold_left Motion_.add
    [Motion_.scale (nth 1 Sample.cdofd Motion_.zero) (nth 1 Sample.qd_spin 0)]
    (nth 0 (Dynamics.cdd (A := Concrete.algebra) (Sample.chain Sample.earth)
                         Sample.qd_spin Sample.cdofd) Motion_.zero).
Proof.
  refine (C5_acceleration_scan Concrete.algebra (Sample.chain Sample.earth)
            Sample.qd_spin Sample.cdofd 1 _ _ _ _).
  - reflexivity.
  - reflexivity.
  - reflexivity.
  - vm_compute. lia.
Defined.

(** C6. With zero gravity and zero joint velocity, the quantities that
    [transform_com] derives at that velocity make [inverse] return a bias
    force that is exactly zero at every dof. *)
Theorem C6_rest_no_bias (A : Algebra) (Laws : AlgebraLaws A) (sys : System)
    (q : list R) (x : list Transform) :
  Sys.shaped sys = true ->
  gravity sys = V3.zero ->
  let qd := repeat 0 (Sys.num_dofs sys) in
  let '(_, cinr, cd, cdof, cdofd) := Dynamics.transform_com sys q qd x in
  Dynamics.inverse sys qd cinr cd cdof cdofd = repeat 0 (Sys.num_dofs sys).
Proof.
  intros Hshaped Hg qd. unfold Dynamics.transform_com.
  assert (Hrest : Forall (eq 0) qd).
  { apply Forall_forall. intros v Hv. apply repeat_spec in Hv. now subst. }
  apply inverse_zero; auto.
  - now apply cd_zero.
  - apply cdof_length. now apply shaped_dof.
Qed.

Lemma C6_witness :
  Dynamics.inverse (A := Concrete.algebra) (Sample.chain V3.zero) Sample.qd_rest
    (Dynamics.cinr (A := Concrete.algebra) (Sample.chain V3.zero) Sample.x_rest)
    (Dynamics.cd (A := Concrete.algebra) (Sample.chain V3.zero)
                 Sample.q_rest Sample.qd_rest Sample.x_rest)
    (Dynamics.cdof (A := Concrete.algebra) (Sample.chain V3.zero)
                   Sample.q_rest Sample.x_rest)
    (Dynamics.cdofd (A := Concrete.algebra) (Sample.chain V3.zero)
                    Sample.q_rest Sample.qd_rest Sample.x_rest)
  = [0; 0].
Proof.
  exact (C6_rest_no_bias Concrete.algebra concrete_laws (Sample.chain V3.zero)
           Sample.q_rest Sample.x_rest eq_refl eq_refl).
Defined.

(** C7. For every dof the passive force is [- stiffness * q - damping * qd],
    except that the stiffness term is zero for the dofs of a free joint and
    of a joint tagged as exempt (['b'], ball); the damping term always
    applies. *)
Theorem C7_passive_spring_damper (A : Algebra) (sys : System) (q qd : list R) :
  length q = Sys.num_q sys ->
  length qd = Sys.num_dofs sys ->
  length (dof sys) = Sys.num_dofs sys ->
  (forall e, (e < Sys.num_dofs sys)%nat ->
     exists l a,
       (l < Sys.num_links sys)%nat /\ (a < Sys.width Sys.D (Sys.typ sys l))%nat /\
       e = (Sys.offset sys Sys.D l + a)%nat /\
       nth e (Dynamics._passive sys q qd) 0 =
       (if Sys.in_fb (Sys.typ sys l) then 0
        else - (stiffness (Sys.dof_at sys e) * nth (Sys.offset sys Sys.Q l + a) q 0))
       - damping (Sys.dof_at sys e) * nth e qd 0)
  /\ (forall t, Sys.in_fb t = true <-> t = "f"%char \/ t = "b"%char)
  /\ (forall t qs dofs, Sys.in_fb t = true ->
        Dynamics.stiffness_fn t qs dofs = map (fun _ => 0) dofs).
Proof.
  intros Hq Hqd Hdof. split; [|split].
  - intros e He.
    destruct (index_decompose sys Sys.D e He) as (l & a & Hl & Ha & ->).
    exists l, a. repeat split; auto.
    rewrite (passive_entry sys q Hq Hdof qd l a Hqd Hl Ha).
    destruct (Sys.in_fb (Sys.typ sys l)); ring.
  - intros t. unfold Sys.in_fb. rewrite orb_true_iff.
    split; (intros [H|H]; [left|right]); now apply Ascii.eqb_eq.
  - intros t qs dofs Ht. unfold Dynamics.stiffness_fn. now rewrite Ht.
Qed.

Lemma C7_witness :
  exists l a,
    (l < 2)%nat /\ (a < Sys.width (A := Concrete.algebra) Sys.D
                         (Sys.typ (Sample.chain Sample.earth) l))%nat /\
    1%nat = (Sys.offset (A := Concrete.algebra) (Sample.chain Sample.earth) Sys.D l + a)%nat /\
    nth 1 (Dynamics._passive (A := Concrete.algebra) (Sample.chain Sample.earth)
             Sample.q_rest Sample.qd_spin) 0 =
    (if Sys.in_fb (Sys.typ (Sample.chain Sample.earth) l) then 0
     else - (stiffness (Sys.dof_at (Sample.chain Sample.earth) 1) *
             nth (Sys.offset (A := Concrete.algebra) (Sample.chain Sample.earth) Sys.Q l + a)
                 Sample.q_rest 0))
    - damping (Sys.dof_at (Sample.chain Sample.earth) 1) * nth 1 Sample.qd_spin 0.
Proof.
  refine (proj1 (C7_passive_spring_damper Concrete.algebra
                   (Sample.chain Sample.earth) Sample.q_rest Sample.qd_spin
                   _ _ _) 1%nat _).
  - reflexivity.
  - reflexivity.
  - reflexivity.
  - vm_compute. lia.
Defined.

(** C8. The passive force is homogeneous of degree one in [(q, qd)]:
    doubling both doubles the force. *)
Theorem C8_passive_homogeneous (A : Algebra) (sys : System) (q qd : list R) :
  Dynamics._passive sys (map (Rmult 2) q) (map (Rmult 2) qd) =
  map (Rmult 2) (Dynamics._passive sys q qd).
Proof. apply passive_homogeneous. Qed.

(** C9. For every dof, the generalized bias force returned by [inverse] is
    the dot product of the dof's [cdof] with the force of the link that the
    dof-to-link map assigns to the dof; that force is the one accumulated by
    the backward scan: the link's own force plus the accumulated forces of
    its children. *)
Theorem C9_bias_force_is_dot (A : Algebra) (sys : System) (qd : list R)
    (cinr : list Inertia) (cd cdof cdofd : list Motion) (e : nat) :
  Sys.rooted_tree sys = true ->
  length cinr = Sys.num_links sys ->
  length cd = Sys.num_links sys ->
  length cdof = Sys.num_dofs sys ->
  (e < Sys.num_dofs sys)%nat ->
  let cfrc := Dynamics.cfrc sys qd cinr cd cdofd in
  let l := Z.to_nat (nth e (Sys.dof_link sys) 0%Z) in
  nth e (Dynamics.inverse sys qd cinr cd cdof cdofd) 0 =
  Motion_.dot (nth e cdof Motion_.zero) (nth l cfrc Force_.zero)
  /\ (l < Sys.num_links sys)%nat
  /\ forall k, (k < Sys.num_links sys)%nat ->
       nth k cfrc Force_.zero =
       Force_.add (nth k (Dynamics.cfrc_flat sys qd cinr cd cdofd) Force_.zero)
         (fold_left Force_.add
            (map (fun c => nth c cfrc Force_.zero) (Spec.children sys k))
            Force_.zero).
Proof.
  intros Htree Hcinr Hcd Hcdof He cfrc l. split; [|split].
  - now apply inverse_nth.
  - subst l. destruct (dof_link_range sys e He) as (k & -> & Hk).
    now rewrite Nat2Z.id.
  - intros k Hk. now apply cfrc_entry.
Qed.

Lemma C9_witness :
  nth 1 (Dynamics.inverse (A := Concrete.algebra) (Sample.chain Sample.earth)
           Sample.qd_spin Sample.cinr Sample.cd Sample.cdof Sample.cdofd) 0 =
  Motion_.dot (nth 1 Sample.cdof Motion_.zero)
    (nth 1 (Dynamics.cfrc (A := Concrete.algebra) (Sample.chain Sample.earth)
              Sample.qd_spin Sample.cinr Sample.cd Sample.cdofd) Force_.zero).
Proof.
  refine (proj1 (C9_bias_force_is_dot Concrete.algebra (Sample.chain Sample.earth)
                   Sample.qd_spin Sample.cinr Sample.cd Sample.cdof Sample.cdofd
                   1 _ _ _ _ _)).
  - reflexivity.
  - reflexivity.
  - reflexivity.
  - reflexivity.
  - vm_compute. lia.
Defined.

(** C10. In [transform_com] the joint frame of a link is the pose of its
    parent composed with the link transform and the joint offset, the
    identity transform standing for the absent parent of the root; for a free
    link the frame is anchored at the pose of the link itself. *)
Theorem C10_joint_frame_anchor (A : Algebra) (sys : System)
    (x : list Transform) (l : nat) :
  length (link sys) = Sys.num_links sys ->
  length (link_parents sys) = Sys.num_links sys ->
  length x = Sys.num_links sys ->
  (l < Sys.num_links sys)%nat ->
  (-1 <= Sys.parent sys l < Z.of_nat (Sys.num_links sys))%Z ->
  nth l (Dynamics.j sys x) Transform_.zero =
  do_transform
    (do_transform (Spec.anchor sys x l) (link_transform (Sys.link_at sys l)))
    (link_joint (Sys.link_at sys l))
  /\ (Sys.is_free (Sys.typ sys l) = true ->
      Spec.anchor sys x l = nth l x Transform_.zero)
  /\ (Sys.is_free (Sys.typ sys l) = false -> Sys.parent sys l = (-1)%Z ->
      Spec.anchor sys x l = Transform_.zero)
  /\ (Sys.is_free (Sys.typ sys l) = false -> Sys.parent sys l <> (-1)%Z ->
      Spec.anchor sys x l = nth (Z.to_nat (Sys.parent sys l)) x Transform_.zero).
Proof.
  intros Hlink Hpar Hx Hl Hp. split.
  - unfold Dynamics.j, Dynamics.x_pad.
    rewrite (map2_nth _ _ _ _ Transform_.zero (link_joint Sys.no_link)).
    + rewrite (map2_nth _ _ _ _ Transform_.zero (link_transform Sys.no_link)).
      * rewrite (take_pidx_nth sys Hpar x Transform_.zero l Hx Hl Hp).
        rewrite (map_nth link_transform), (map_nth link_joint). reflexivity.
      * unfold Arr.take. now rewrite length_map, pidx_length.
      * now rewrite length_map, Hlink.
    + rewrite map2_length. unfold Arr.take.
      rewrite !length_map, pidx_length, Hlink by auto. lia.
    + now rewrite length_map, Hlink.
  - unfold Spec.anchor. repeat split; intros Hf.
    + now rewrite Hf.
    + intros ->. now rewrite Hf.
    + intros Hne. rewrite Hf. destruct (Z.eqb_spec (Sys.parent sys l) (-1)); congruence.
Qed.

Lemma C10_witness :
  nth 1 (Dynamics.j (A := Concrete.algebra) (Sample.chain Sample.earth) Sample.x_rest)
      Transform_.zero =
  Concrete.do_transform
    (Concrete.do_transform (nth 0 Sample.x_rest Transform_.zero) Transform_.zero)
    Transform_.zero.
Proof.
  refine (proj1 (C10_joint_frame_anchor Concrete.algebra
                   (Sample.chain Sample.earth) Sample.x_rest 1 _ _ _ _ _)).
  - reflexivity.
  - reflexivity.
  - reflexivity.
  - unfold Sys.num_links. simpl. lia.
  - unfold Sys.num_links, Sys.parent. simpl. lia.
Defined.

(** ** Further properties of the dynamics *)

(** X1. [transform_com] returns one inertia [cinr] per link, and one
    subspace vector [cdof] and one subspace rate [cdofd] per dof. *)
Theorem X1_transform_com_shapes (A : Algebra) (sys : System)
    (q qd : list R) (x : list Transform) :
  Sys.shaped sys = true ->
  length x = Sys.num_links sys ->
  length qd = Sys.num_dofs sys ->
  let '(_, cinr, _, cdof, cdofd) := Dynamics.transform_com sys q qd x in
  length cinr = Sys.num_links sys /\
  length cdof = Sys.num_dofs sys /\ length cdofd = Sys.num_dofs sys.
Proof.
  intros Hshaped Hx Hqd. unfold Dynamics.transform_com. repeat split.
  - now apply cinr_length.
  - apply cdof_length. now apply shaped_dof.
  - now apply cdofd_length.
Qed.

Lemma X1_witness :
  let sys := Sample.floater Sample.earth in
  length (Dynamics.cinr (A := Concrete.algebra) sys Sample.x_rest) = 2%nat /\
  length (Dynamics.cdof (A := Concrete.algebra) sys Sample.q_floater Sample.x_rest)
  = 7%nat /\
  length (Dynamics.cdofd (A := Concrete.algebra) sys Sample.q_floater
                         Sample.qd_floater Sample.x_rest) = 7%nat.
Proof.
  exact (X1_transform_com_shapes Concrete.algebra (Sample.floater Sample.earth)
           Sample.q_floater Sample.qd_floater Sample.x_rest
           eq_refl eq_refl eq_refl).
Defined.

(** X2. The velocity scan of [transform_com]: the spatial velocity [cd] of
    a link is that of its parent, zero for the root, plus the
    velocity-weighted subspace vectors [cdof_e * qd_e] of its own dofs. *)
Theorem X2_velocity_scan (A : Algebra) (sys : System)
    (q qd : list R) (x : list Transform) (l : nat) :
  Sys.shaped sys = true ->
  Sys.rooted_tree sys = true ->
  length qd = Sys.num_dofs sys ->
  (l < Sys.num_links sys)%nat ->
  let '(_, _, cd, cdof, _) := Dynamics.transform_com sys q qd x in
  nth l cd Motion_.zero =
  fold_left Motion_.add
    (map (fun e => Motion_.scale (nth e cdof Motion_.zero) (nth e qd 0))
         (seq (Sys.offset sys Sys.D l) (Sys.width Sys.D (Sys.typ sys l))))
    (if (l =? 0)%nat then Motion_.zero
     else nth (Z.to_nat (Sys.parent sys l)) cd Motion_.zero).
Proof.
  intros Hshaped Htree Hqd Hl. unfold Dynamics.transform_com.
  now apply cd_velocity_entry.
Qed.

Lemma X2_witness :
  nth 1 Sample.cd Motion_.zero =
  fold_left Motion_.add
    [Motion_.scale (nth 1 Sample.cdof Motion_.zero) (nth 1 Sample.qd_spin 0)]
    (nth 0 Sample.cd Motion_.zero).
Proof.
  refine (X2_velocity_scan Concrete.algebra (Sample.chain Sample.earth)
            Sample.q_rest Sample.qd_spin Sample.x_rest 1 _ _ _ _).
  - reflexivity.
  - reflexivity.
  - reflexivity.
  - vm_compute. lia.
Defined.

(** X3. [transform_com] is homogeneous of degree one in the joint
    velocities: with every entry of [qd] multiplied by [c], the centre of
    mass, the inertias [cinr] and the subspaces [cdof] are unchanged, and
    every link velocity [cd] and every subspace rate [cdofd] is multiplied
    by [c]. *)
Theorem X3_velocity_scaling (A : Algebra) (sys : System)
    (q qd : list R) (x : list Transform) (c : R) :
  let '(com', cinr', cd', cdof', cdofd') :=
    Dynamics.transform_com sys q (map (Rmult c) qd) x in
  let '(com, cinr, cd, cdof, cdofd) := Dynamics.transform_com sys q qd x in
  com' = com /\ cinr' = cinr /\ cdof' = cdof /\
  cd' = map (fun m => Motion_.scale m c) cd /\
  cdofd' = map (fun m => Motion_.scale m c) cdofd.
Proof.
  unfold Dynamics.transform_com. repeat split.
  - apply cd_scale.
  - apply cdofd_scale.
Qed.

(** X4. The subspace of a dof of a free joint, as [transform_com] returns
    it: the row of [sys.dof.motion], whatever the coordinates [q], with its
    angular part turned by the rotation of the joint frame [j] of the link
    and the whole carried to the centre of mass by the translation
    [com - j.pos]. *)
Theorem X4_free_joint_subspace (A : Algebra) (sys : System)
    (q qd : list R) (x : list Transform) (l a : nat) :
  Sys.shaped sys = true ->
  (l < Sys.num_links sys)%nat ->
  Sys.is_free (Sys.typ sys l) = true ->
  (a < 6)%nat ->
  let '(com, _, _, cdof, _) := Dynamics.transform_com sys q qd x in
  let e := (Sys.offset sys Sys.D l + a)%nat in
  let jl := nth l (Dynamics.j sys x) Transform_.zero in
  let m := motion (Sys.dof_at sys e) in
  nth e cdof Motion_.zero =
  do_motion (Transform_.create_pos (V3.sub com (pos jl)))
            (Motion_.replace_ang m (rotate (ang m) (rot jl))).
Proof.
  intros Hshaped Hl Hf Ha. unfold Dynamics.transform_com. cbv zeta.
  assert (Hw : Sys.width Sys.D (Sys.typ sys l) = 6%nat)
    by (cbn [Sys.width]; now rewrite Hf).
  rewrite (cdof_entry sys q x Hshaped l a Hl) by lia.
  now rewrite cdof_local_entry_free.
Qed.

Lemma X4_witness :
  let sys := Sample.floater Sample.earth in
  let jl := nth 0 (Dynamics.j (A := Concrete.algebra) sys Sample.x_rest)
                Transform_.zero in
  let m := motion (Sys.dof_at sys 3) in
  nth 3 (Dynamics.cdof (A := Concrete.algebra) sys Sample.q_floater Sample.x_rest)
      Motion_.zero =
  Concrete.do_motion
    (Transform_.create_pos
       (V3.sub (Dynamics.com (A := Concrete.algebra) sys Sample.x_rest) (pos jl)))
    (Motion_.replace_ang m (Concrete.rotate (ang m) (rot jl))).
Proof.
  refine (X4_free_joint_subspace Concrete.algebra (Sample.floater Sample.earth)
            Sample.q_floater Sample.qd_floater Sample.x_rest 0 3 _ _ _ _).
  - reflexivity.
  - vm_compute. lia.
  - reflexivity.
  - lia.
Defined.

(** X5. The subspace of axis [a] of a stacked joint, as [transform_com]
    returns it: the row of [sys.dof.motion] seen through the inverse of the
    transform that the axes before it make at the coordinates [q], then
    turned by the rotation of the joint frame [j] of the link and carried to
    the centre of mass.  The first axis sees the identity transform. *)
Theorem X5_stacked_joint_subspace (A : Algebra) (sys : System)
    (q qd : list R) (x : list Transform) (l a : nat) :
  Sys.shaped sys = true ->
  length q = Sys.num_q sys ->
  (l < Sys.num_links sys)%nat ->
  Sys.is_free (Sys.typ sys l) = false ->
  (a < Sys.int (Sys.typ sys l))%nat ->
  let '(com, _, _, cdof, _) := Dynamics.transform_com sys q qd x in
  let e := (Sys.offset sys Sys.D l + a)%nat in
  let jl := nth l (Dynamics.j sys x) Transform_.zero in
  let m := do_motion (inv (Spec.joint_prefix sys q l a))
                     (motion (Sys.dof_at sys e)) in
  (nth e cdof Motion_.zero =
   do_motion (Transform_.create_pos (V3.sub com (pos jl)))
             (Motion_.replace_ang m (rotate (ang m) (rot jl))))
  /\ Spec.joint_prefix sys q l 0 = Transform_.zero.
Proof.
  intros Hshaped Hq Hl Hf Ha. unfold Dynamics.transform_com. cbv zeta.
  split; [|reflexivity].
  assert (Hw : Sys.width Sys.D (Sys.typ sys l) = Sys.int (Sys.typ sys l))
    by (cbn [Sys.width]; now rewrite Hf).
  rewrite (cdof_entry sys q x Hshaped l a Hl) by lia.
  now rewrite cdof_local_entry_stacked.
Qed.

Lemma X5_witness :
  let sys := Sample.chain Sample.earth in
  let jl := nth 1 (Dynamics.j (A := Concrete.algebra) sys Sample.x_rest)
                Transform_.zero in
  let m := Concrete.do_motion
             (Concrete.inv (Spec.joint_prefix (A := Concrete.algebra) sys
                              Sample.q_rest 1 0))
             (motion (Sys.dof_at sys 1)) in
  (nth 1 Sample.cdof Motion_.zero =
   Concrete.do_motion
     (Transform_.create_pos
        (V3.sub (Dynamics.com (A := Concrete.algebra) sys Sample.x_rest) (pos jl)))
     (Motion_.replace_ang m (Concrete.rotate (ang m) (rot jl))))
  /\ Spec.joint_prefix (A := Concrete.algebra) sys Sample.q_rest 1 0
     = Transform_.zero.
Proof.
  refine (X5_stacked_joint_subspace Concrete.algebra (Sample.chain Sample.earth)
            Sample.q_rest Sample.qd_spin Sample.x_rest 1 0 _ _ _ _ _).
  - reflexivity.
  - reflexivity.
  - vm_compute. lia.
  - reflexivity.
  - vm_compute. lia.
Defined.

(** X6. The subspace rates of a free joint in [transform_com]: zero for its
    three leading dofs; for each of the three trailing ones the cross
    product of the summed velocity [cdof_e * qd_e] of the three leading dofs
    with the dof's own subspace.  The velocity of no link enters. *)
Theorem X6_free_joint_rate (A : Algebra) (sys : System)
    (q qd : list R) (x : list Transform) (l a : nat) :
  Sys.shaped sys = true ->
  length qd = Sys.num_dofs sys ->
  (l < Sys.num_links sys)%nat ->
  Sys.is_free (Sys.typ sys l) = true ->
  (a < 6)%nat ->
  let '(_, _, _, cdof, cdofd) := Dynamics.transform_com sys q qd x in
  let off := Sys.offset sys Sys.D l in
  nth (off + a) cdofd Motion_.zero =
  if (a <? 3)%nat then Motion_.zero
  else Motion_.cross
         (Motion_.sum
            (map (fun e => Motion_.scale (nth e cdof Motion_.zero) (nth e qd 0))
                 (seq off 3)))
         (nth (off + a) cdof Motion_.zero).
Proof.
  intros Hshaped Hqd Hl Hf Ha. unfold Dynamics.transform_com. cbv zeta.
  now apply cdofd_entry_free.
Qed.

Lemma X6_witness :
  let sys := Sample.floater Sample.earth in
  let cdof :=
    Dynamics.cdof (A := Concrete.algebra) sys Sample.q_floater Sample.x_rest in
  nth 5 (Dynamics.cdofd (A := Concrete.algebra) sys Sample.q_floater
                        Sample.qd_floater Sample.x_rest) Motion_.zero =
  Motion_.cross
    (Motion_.sum
       (map (fun e => Motion_.scale (nth e cdof Motion_.zero)
                                    (nth e Sample.qd_floater 0))
            [0; 1; 2]%nat))
    (nth 5 cdof Motion_.zero).
Proof.
  refine (X6_free_joint_rate Concrete.algebra (Sample.floater Sample.earth)
            Sample.q_floater Sample.qd_floater Sample.x_rest 0 5 _ _ _ _ _).
  - reflexivity.
  - reflexivity.
  - vm_compute. lia.
  - reflexivity.
  - lia.
Defined.

(** X7. A stacked joint on a link without parent (parent index [-1]) starts
    from the zero row appended to [cd], so the subspace rate of its first
    axis is zero at every velocity. *)
Theorem X7_parentless_first_axis_rate (A : Algebra) (sys : System)
    (q qd : list R) (x : list Transform) (l : nat) :
  Sys.shaped sys = true ->
  length qd = Sys.num_dofs sys ->
  (l < Sys.num_links sys)%nat ->
  Sys.is_free (Sys.typ sys l) = false ->
  Sys.parent sys l = (-1)%Z ->
  let '(_, _, _, _, cdofd) := Dynamics.transform_com sys q qd x in
  nth (Sys.offset sys Sys.D l) cdofd Motion_.zero = Motion_.zero.
Proof.
  intros Hshaped Hqd Hl Hf Hp. unfold Dynamics.transform_com.
  pose proof (supported_stacked _ (shaped_supported sys Hshaped l Hl) Hf) as Hw.
  rewrite <- (Nat.add_0_r (Sys.offset sys Sys.D l)).
  rewrite cdofd_entry_stacked by (auto; lia).
  unfold Spec.running_velocity, Spec.parent_velocity. rewrite Hp. simpl.
  apply motion_cross_zero_l.
Qed.

Lemma X7_witness :
  nth 0 Sample.cdofd Motion_.zero = Motion_.zero.
Proof.
  refine (X7_parentless_first_axis_rate Concrete.algebra (Sample.chain Sample.earth)
            Sample.q_rest Sample.qd_spin Sample.x_rest 0 _ _ _ _ _).
  - reflexivity.
  - reflexivity.
  - vm_compute. lia.
  - reflexivity.
  - reflexivity.
Defined.

(** X8. In [inverse] the backward scan leaves at the root the sum of the
    forces [cfrc_flat] of all the links of the tree, so the bias force at a
    dof of the root is its subspace vector dotted with that total. *)
Theorem X8_root_force_total (A : Algebra) (sys : System) (qd : list R)
    (cinr : list Inertia) (cd cdof cdofd : list Motion) (a : nat) :
  Sys.rooted_tree sys = true ->
  length cinr = Sys.num_links sys ->
  length cd = Sys.num_links sys ->
  length cdof = Sys.num_dofs sys ->
  (a < Sys.width Sys.D (Sys.typ sys 0))%nat ->
  let total :=
    Spec.fsum (Sys.num_links sys)
      (fun l => nth l (Dynamics.cfrc_flat sys qd cinr cd cdofd) Force_.zero) in
  nth 0 (Dynamics.cfrc sys qd cinr cd cdofd) Force_.zero = total /\
  nth a (Dynamics.inverse sys qd cinr cd cdof cdofd) 0 =
  Motion_.dot (nth a cdof Motion_.zero) total.
Proof.
  intros Htree Hcinr Hcd Hcdof Ha total.
  pose proof (cfrc_root_total sys qd cinr cd cdofd Htree Hcinr Hcd) as Hroot.
  split; [exact Hroot|].
  pose proof (tree_nonempty sys Htree) as Hn.
  pose proof (offset_fits sys Sys.D 0 Hn) as Hfit.
  change (Sys.offset sys Sys.D 0) with O in Hfit.
  fold (Sys.num_dofs sys) in Hfit.
  rewrite inverse_nth by (auto; lia).
  pose proof (dof_link_nth sys 0 a Hn Ha) as Hd.
  change (Sys.offset sys Sys.D 0 + a)%nat with a in Hd.
  rewrite Hd. cbn [Z.to_nat Z.of_nat]. now rewrite Hroot.
Qed.

Lemma X8_witness :
  let sys := Sample.chain Sample.earth in
  let flat := Dynamics.cfrc_flat (A := Concrete.algebra) sys Sample.qd_spin
                Sample.cinr Sample.cd Sample.cdofd in
  let total := Force_.add (Force_.add Force_.zero (nth 0 flat Force_.zero))
                          (nth 1 flat Force_.zero) in
  nth 0 (Dynamics.cfrc (A := Concrete.algebra) sys Sample.qd_spin
           Sample.cinr Sample.cd Sample.cdofd) Force_.zero = total /\
  nth 0 (Dynamics.inverse (A := Concrete.algebra) sys Sample.qd_spin
           Sample.cinr Sample.cd Sample.cdof Sample.cdofd) 0 =
  Motion_.dot (nth 0 Sample.cdof Motion_.zero) total.
Proof.
  refine (X8_root_force_total Concrete.algebra (Sample.chain Sample.earth)
            Sample.qd_spin Sample.cinr Sample.cd Sample.cdof Sample.cdofd 0
            _ _ _ _ _).
  - reflexivity.
  - reflexivity.
  - reflexivity.
  - reflexivity.
  - vm_compute. lia.
Defined.

(** X9. With every joint at rest, whatever the gravity, [inverse] gives
    every link the acceleration of the seed, zero angular part and linear
    part [-gravity], and the force of a link is its inertia applied to that
    acceleration: the velocity term of [frc] vanishes. *)
Theorem X9_rest_under_gravity (A : Algebra) (Laws : AlgebraLaws A) (sys : System)
    (q : list R) (x : list Transform) (l : nat) :
  Sys.shaped sys = true ->
  Sys.rooted_tree sys = true ->
  length x = Sys.num_links sys ->
  (l < Sys.num_links sys)%nat ->
  let qd := repeat 0 (Sys.num_dofs sys) in
  let '(_, cinr, cd, _, cdofd) := Dynamics.transform_com sys q qd x in
  let seed := mkMotion V3.zero (V3.neg (gravity sys)) in
  nth l (Dynamics.cdd sys qd cdofd) Motion_.zero = seed /\
  nth l (Dynamics.cfrc_flat sys qd cinr cd cdofd) Force_.zero =
  mul (nth l cinr Sys.no_inertia) seed.
Proof.
  intros Hshaped Htree Hx Hl qd. unfold Dynamics.transform_com. cbv zeta.
  assert (Hqd : length qd = Sys.num_dofs sys) by apply repeat_length.
  assert (Hrest : Forall (eq 0) qd).
  { apply Forall_forall. intros v Hv. apply repeat_spec in Hv. now subst. }
  pose proof (cdofd_length sys q qd x Hshaped Hqd) as Hcdofd.
  split.
  - now apply cdd_at_rest.
  - apply cfrc_flat_at_rest; auto.
    + now apply cinr_length.
    + now apply cd_length.
    + now apply cd_zero.
Qed.

Lemma X9_witness :
  let sys := Sample.chain Sample.earth in
  let cinr := Dynamics.cinr (A := Concrete.algebra) sys Sample.x_rest in
  let cd := Dynamics.cd (A := Concrete.algebra) sys Sample.q_rest [0; 0]
              Sample.x_rest in
  let cdofd := Dynamics.cdofd (A := Concrete.algebra) sys Sample.q_rest [0; 0]
                 Sample.x_rest in
  let seed := mkMotion V3.zero (V3.neg Sample.earth) in
  nth 1 (Dynamics.cdd (A := Concrete.algebra) sys [0; 0] cdofd) Motion_.zero = seed /\
  nth 1 (Dynamics.cfrc_flat (A := Concrete.algebra) sys [0; 0] cinr cd cdofd)
      Force_.zero =
  Concrete.mul (nth 1 cinr Sys.no_inertia) seed.
Proof.
  refine (X9_rest_under_gravity Concrete.algebra concrete_laws
            (Sample.chain Sample.earth) Sample.q_rest Sample.x_rest 1 _ _ _ _).
  - reflexivity.
  - reflexivity.
  - reflexivity.
  - vm_compute. lia.
Defined.

(** X10. [_passive] is linear in the pair of positions and velocities:
    the passive force of [c * (q1, qd1) + (q2, qd2)] is [c] times that of
    [(q1, qd1)] plus that of [(q2, qd2)], entry by entry. *)
Theorem X10_passive_superposition (A : Algebra) (sys : System) (c : R)
    (q1 q2 qd1 qd2 : list R) :
  Sys.shaped sys = true ->
  length q1 = Sys.num_q sys -> length q2 = Sys.num_q sys ->
  length qd1 = Sys.num_dofs sys -> length qd2 = Sys.num_dofs sys ->
  Dynamics._passive sys (Arr.map2 Rplus (map (Rmult c) q1) q2)
                        (Arr.map2 Rplus (map (Rmult c) qd1) qd2) =
  Arr.map2 Rplus (map (Rmult c) (Dynamics._passive sys q1 qd1))
                 (Dynamics._passive sys q2 qd2).
Proof.
  intros Hshaped H1 H2 Hd1 Hd2.
  apply passive_linear; auto. now apply shaped_dof.
Qed.

Lemma X10_witness :
  let sys := Sample.chain Sample.earth in
  Dynamics._passive (A := Concrete.algebra) sys
    (Arr.map2 Rplus (map (Rmult 2) [1; 2]) Sample.q_rest)
    (Arr.map2 Rplus (map (Rmult 2) Sample.qd_spin) [3; 4]) =
  Arr.map2 Rplus
    (map (Rmult 2) (Dynamics._passive (A := Concrete.algebra) sys [1; 2]
                                      Sample.qd_spin))
    (Dynamics._passive (A := Concrete.algebra) sys Sample.q_rest [3; 4]).
Proof.
  refine (X10_passive_superposition Concrete.algebra (Sample.chain Sample.earth) 2
            [1; 2] Sample.q_rest Sample.qd_spin [3; 4] _ _ _ _ _); reflexivity.
Defined.

(** X11. At rest, without gravity and without springs, [forward] applied to
    what [transform_com] derives hands back the supplied force [tau]
    unchanged, whatever the masses and the pose: neither a bias force nor a
    passive force is left. *)
Theorem X11_forward_at_rest (A : Algebra) (Laws : AlgebraLaws A) (sys : System)
    (q : list R) (x : list Transform) (tau : list R) :
  Sys.shaped sys = true ->
  gravity sys = V3.zero ->
  Forall (fun d => stiffness d = 0) (dof sys) ->
  length q = Sys.num_q sys ->
  length tau = Sys.num_dofs sys ->
  let qd := repeat 0 (Sys.num_dofs sys) in
  let '(_, cinr, cd, cdof, cdofd) := Dynamics.transform_com sys q qd x in
  Dynamics.forward sys q qd cinr cd cdof cdofd tau = tau.
Proof.
  intros Hshaped Hg Hk Hq Htau qd. unfold Dynamics.transform_com.
  now apply forward_at_rest.
Qed.

Lemma X11_witness :
  let sys := Sample.pendulum V3.zero in
  let x := [Transform_.zero] in
  Dynamics.forward (A := Concrete.algebra) sys [1] [0]
    (Dynamics.cinr (A := Concrete.algebra) sys x)
    (Dynamics.cd (A := Concrete.algebra) sys [1] [0] x)
    (Dynamics.cdof (A := Concrete.algebra) sys [1] x)
    (Dynamics.cdofd (A := Concrete.algebra) sys [1] [0] x)
    [7] = [7].
Proof.
  refine (X11_forward_at_rest Concrete.algebra concrete_laws
            (Sample.pendulum V3.zero) [1] [Transform_.zero] [7] _ _ _ _ _).
  - reflexivity.
  - reflexivity.
  - repeat constructor.
  - reflexivity.
  - reflexivity.
Defined.

(** X12. The link velocities of [transform_com] add up over the joint
    velocities: the velocity [cd] of every link at [qd1 + qd2] is the sum of
    its velocities at [qd1] and at [qd2]. *)
Theorem X12_velocity_superposition (A : Algebra) (sys : System)
    (q qd1 qd2 : list R) (x : list Transform) :
  Sys.shaped sys = true ->
  Sys.rooted_tree sys = true ->
  length qd1 = Sys.num_dofs sys ->
  length qd2 = Sys.num_dofs sys ->
  let '(_, _, cd12, _, _) :=
    Dynamics.transform_com sys q (Arr.map2 Rplus qd1 qd2) x in
  let '(_, _, cd1, _, _) := Dynamics.transform_com sys q qd1 x in
  let '(_, _, cd2, _, _) := Dynamics.transform_com sys q qd2 x in
  cd12 = Arr.map2 Motion_.add cd1 cd2.
Proof.
  intros Hshaped Htree H1 H2. unfold Dynamics.transform_com.
  now apply cd_sum.
Qed.

Lemma X12_witness :
  let sys := Sample.chain Sample.earth in
  Dynamics.cd (A := Concrete.algebra) sys Sample.q_rest
    (Arr.map2 Rplus Sample.qd_spin [2; 5]) Sample.x_rest =
  Arr.map2 Motion_.add Sample.cd
    (Dynamics.cd (A := Concrete.algebra) sys Sample.q_rest [2; 5] Sample.x_rest).
Proof.
  refine (X12_velocity_superposition Concrete.algebra (Sample.chain Sample.earth)
            Sample.q_rest Sample.qd_spin [2; 5] Sample.x_rest _ _ _ _);
    reflexivity.
Defined.

(** X13. [forward] undoes [inverse]: when the supplied force [tau] is the
    bias force of [inverse] minus the passive force, the net force that
    [forward] returns is zero at every dof. *)
Theorem X13_forward_cancels_inverse (A : Algebra) (sys : System)
    (q qd : list R) (cinr : list Inertia) (cd cdof cdofd : list Motion) :
  Sys.shaped sys = true ->
  length q = Sys.num_q sys ->
  length qd = Sys.num_dofs sys ->
  length cdof = Sys.num_dofs sys ->
  let tau :=
    Arr.map2 Rminus (Dynamics.inverse sys qd cinr cd cdof cdofd)
                    (Dynamics._passive sys q qd) in
  Dynamics.forward sys q qd cinr cd cdof cdofd tau = repeat 0 (Sys.num_dofs sys).
Proof.
  intros Hshaped Hq Hqd Hcdof tau.
  apply forward_cancels; auto. now apply shaped_dof.
Qed.

Lemma X13_witness :
  let sys := Sample.chain Sample.earth in
  Dynamics.forward (A := Concrete.algebra) sys Sample.q_rest Sample.qd_spin
    Sample.cinr Sample.cd Sample.cdof Sample.cdofd
    (Arr.map2 Rminus
       (Dynamics.inverse (A := Concrete.algebra) sys Sample.qd_spin
          Sample.cinr Sample.cd Sample.cdof Sample.cdofd)
       (Dynamics._passive (A := Concrete.algebra) sys Sample.q_rest Sample.qd_spin))
  = [0; 0].
Proof.
  refine (X13_forward_cancels_inverse Concrete.algebra (Sample.chain Sample.earth)
            Sample.q_rest Sample.qd_spin Sample.cinr Sample.cd Sample.cdof
            Sample.cdofd _ _ _ _); reflexivity.
Defined.
